(** * publish-to-git: a shallow embedding of the Git orchestration core

    The development follows the TypeScript sources:
    - [validator.ts]   (class [Validator]),
    - [gitBranch.ts]   (class [GitBranch]),
    - [publishtogit.ts] (the publish workflow, function [main]).

    JavaScript strings are sequences of UTF-16 code units; promises are
    described by what they settle to; the asynchronous workflow is a
    computation in a small monad that records, in order, which external
    operations were started, which ones settled and what was printed. *)

From Stdlib Require Import String Ascii List NArith ZArith Bool Arith Lia.
From Stdlib Require Import DecimalString DecimalN Permutation.
Import ListNotations.

Set Implicit Arguments.

(* ================================================================== *)
(** * JavaScript values used by the program *)
(* ================================================================== *)

Module JS.

(** A string is a list of UTF-16 code units. *)
Definition jsstring := list N.

(** A string literal of the source. *)
Definition js (s : string) : jsstring :=
  map N_of_ascii (list_ascii_of_string s).

Fixpoint str_eqb (a b : jsstring) : bool :=
  match a, b with
  | [], [] => true
  | x :: a', y :: b' => N.eqb x y && str_eqb a' b'
  | _, _ => false
  end.

(** ECMAScript [LineTerminator]: LF, CR, LS, PS. *)
Definition isLineTerminator (c : N) : bool :=
  (c =? 10)%N || (c =? 13)%N || (c =? 8232)%N || (c =? 8233)%N.

(** ECMAScript [WhiteSpace]: TAB, VT, FF, SP, NBSP, ZWNBSP and the
    code points of category Zs. *)
Definition isWhiteSpace (c : N) : bool :=
  (c =? 9)%N || (c =? 11)%N || (c =? 12)%N || (c =? 32)%N ||
  (c =? 160)%N || (c =? 65279)%N || (c =? 5760)%N ||
  ((8192 <=? c)%N && (c <=? 8202)%N) ||
  (c =? 8239)%N || (c =? 8287)%N || (c =? 12288)%N.

(** What [String.prototype.trim] strips and what [\s] matches. *)
Definition isTrimmable (c : N) : bool :=
  isWhiteSpace c || isLineTerminator c.

(** [\w] without the [i] and [u] flags: [A-Za-z0-9_]. *)
Definition isWordChar (c : N) : bool :=
  ((97 <=? c)%N && (c <=? 122)%N) ||
  ((65 <=? c)%N && (c <=? 90)%N) ||
  ((48 <=? c)%N && (c <=? 57)%N) ||
  (c =? 95)%N.

Fixpoint trimStart (s : jsstring) : jsstring :=
  match s with
  | [] => []
  | c :: s' => if isTrimmable c then trimStart s' else s
  end.

Definition trimEnd (s : jsstring) : jsstring :=
  rev (trimStart (rev s)).

(** [String.prototype.trim]. *)
Definition trim (s : jsstring) : jsstring :=
  trimEnd (trimStart s).

(** [s.split(sep)] for a separator of one code unit; the result is
    never empty: [[""]] for the empty string. *)
Fixpoint split (sep : N) (s : jsstring) : list jsstring :=
  match s with
  | [] => [[]]
  | c :: s' =>
      if (c =? sep)%N then [] :: split sep s'
      else match split sep s' with
           | [] => [[c]]
           | l :: ls => (c :: l) :: ls
           end
  end.

(** [Array.prototype.join]. *)
Fixpoint join (sep : jsstring) (l : list jsstring) : jsstring :=
  match l with
  | [] => []
  | [x] => x
  | x :: ((_ :: _) as l') => x ++ sep ++ join sep l'
  end.

(** [ToString] of a non-negative integer Number: its decimal digits. *)
Definition Number_toString (n : N) : jsstring :=
  js (NilZero.string_of_uint (N.to_uint n)).

(** Is [needle] a substring of [hay] ([String.prototype.includes])? *)
Fixpoint startsWith (needle hay : jsstring) : bool :=
  match needle, hay with
  | [], _ => true
  | x :: n', y :: h' => N.eqb x y && startsWith n' h'
  | _ :: _, [] => false
  end.

Fixpoint includes (hay needle : jsstring) : bool :=
  startsWith needle hay ||
  match hay with
  | [] => false
  | _ :: h' => includes h' needle
  end.

(** The values that an option of the command line can hold when no
    type is declared for it: yargs makes a number of an argument that
    looks like one and a boolean of an option given without a value.
    A Number is known by its [ToString] text, which tells two numbers
    apart except for the sign of zero, that the comparisons below
    ignore as well. *)
Inductive Value : Type :=
| VString (s : jsstring)
| VNumber (text : jsstring)
| VBoolean (b : bool).

(** [ToBoolean]: the empty string, zero, [NaN] and [false] are falsy. *)
Definition truthy (v : Value) : bool :=
  match v with
  | VString [] => false
  | VString (_ :: _) => true
  | VNumber text => negb (str_eqb text (js "0") || str_eqb text (js "NaN"))
  | VBoolean b => b
  end.

(** [ToString], as in a template literal and in [Array.prototype.join]. *)
Definition ToString (v : Value) : jsstring :=
  match v with
  | VString s => s
  | VNumber text => text
  | VBoolean true => js "true"
  | VBoolean false => js "false"
  end.

(** [SameValueZero], the comparison of lodash: values of different
    types are never equal. *)
Definition SameValueZero (a b : Value) : bool :=
  match a, b with
  | VString x, VString y => str_eqb x y
  | VNumber x, VNumber y => str_eqb x y
  | VBoolean x, VBoolean y => Bool.eqb x y
  | _, _ => false
  end.

(** Errors that travel through rejected promises and [throw]:
    the rejection value of [spawn] (it carries [exitCode] and [stderr],
    see spawn.spec.ts) and a plain [new Error(message)]. *)
Inductive Error : Type :=
| ProcessError (exitCode : Z) (stderr : jsstring)
| JsError (message : jsstring).

Definition isProcessError (e : Error) : bool :=
  match e with ProcessError _ _ => true | JsError _ => false end.

(** What a promise settles to; also the result of running the body of
    an [async] function (a [throw] rejects its promise). *)
Inductive Outcome (A : Type) : Type :=
| Resolved (a : A)
| Rejected (e : Error).
Arguments Rejected {A} e.

(** [p.then(f)] for a callback that returns a plain value. *)
Definition then_ {A B} (p : Outcome A) (f : A -> B) : Outcome B :=
  match p with
  | Resolved a => Resolved (f a)
  | Rejected e => Rejected e
  end.

(** [p.catch(f)] for a callback that returns a plain value. *)
Definition catch_ {A} (p : Outcome A) (f : Error -> A) : Outcome A :=
  match p with
  | Resolved a => Resolved a
  | Rejected e => Resolved (f e)
  end.

(** [Promise.all]: the array of the values when every promise
    resolves, a rejection as soon as one rejects. Which rejection wins
    depends on timing; the first in array order stands for it here. *)
Fixpoint Promise_all {A} (ps : list (Outcome A)) : Outcome (list A) :=
  match ps with
  | [] => Resolved []
  | Resolved a :: ps' => then_ (Promise_all ps') (cons a)
  | Rejected e :: _ => Rejected e
  end.

(** [_.every(array)] on booleans: the identity iteratee. *)
Definition every (l : list bool) : bool := forallb (fun b => b) l.

End JS.
Import JS.

(* ================================================================== *)
(** * Regular expressions

    Matching follows the backtracking semantics of ECMA-262: a matcher
    takes a state and a continuation and returns the first successful
    completion. *)
(* ================================================================== *)

Module RegExp.

Record MatchState : Type := mkState {
  endIndex : nat;            (* how far the match has advanced *)
  remaining : jsstring;      (* the input from [endIndex] on *)
  captures : list (option jsstring) (* group k is element k-1 *)
}.

Definition MatchResult := option MatchState.
Definition MatcherContinuation := MatchState -> MatchResult.
Definition Matcher := MatchState -> MatcherContinuation -> MatchResult.

(** One character of a set: a literal, a class, or [.]. *)
Definition CharacterSetMatcher (A : N -> bool) : Matcher := fun x c =>
  match remaining x with
  | [] => None
  | ch :: rest =>
      if A ch then c (mkState (S (endIndex x)) rest (captures x)) else None
  end.

Definition Chr (ch : N) : Matcher := CharacterSetMatcher (N.eqb ch).

(** [.] without the [s] flag: anything but a line terminator. *)
Definition Dot : Matcher :=
  CharacterSetMatcher (fun ch => negb (isLineTerminator ch)).

Definition Empty : Matcher := fun x c => c x.

Definition Seq (m1 m2 : Matcher) : Matcher := fun x c =>
  m1 x (fun y => m2 y c).

Fixpoint Lit (s : jsstring) : Matcher :=
  match s with
  | [] => Empty
  | ch :: s' => Seq (Chr ch) (Lit s')
  end.

(** [^] and [$] without the [m] flag. *)
Definition AssertStart : Matcher := fun x c =>
  match endIndex x with O => c x | S _ => None end.

Definition AssertEnd : Matcher := fun x c =>
  match remaining x with [] => c x | _ :: _ => None end.

Fixpoint set_nth {A} (n : nat) (a : A) (l : list A) : list A :=
  match n, l with
  | _, [] => []
  | O, _ :: l' => a :: l'
  | S n', b :: l' => b :: set_nth n' a l'
  end.

(** Capturing group number [k] (from 1). *)
Definition Group (k : nat) (m : Matcher) : Matcher := fun x c =>
  m x (fun y =>
    let text := firstn (endIndex y - endIndex x) (remaining x) in
    c (mkState (endIndex y) (remaining y)
               (set_nth (pred k) (Some text) (captures y)))).

Definition clear_groups (ks : list nat) (caps : list (option jsstring))
  : list (option jsstring) :=
  fold_left (fun cs k => set_nth (pred k) None cs) ks caps.

(** Greedy [m*] ([RepeatMatcher] with min 0 and no max): another
    round of [m] first, the continuation otherwise; a round that
    matches the empty string is refused; the groups [ks] inside [m]
    are reset before each round. Every accepted round consumes a
    character, so [fuel] = number of remaining characters is enough. *)
Fixpoint RepeatGreedy (fuel : nat) (ks : list nat) (m : Matcher) : Matcher :=
  fun x c =>
    match fuel with
    | O => c x
    | S fuel' =>
        let xr := mkState (endIndex x) (remaining x)
                          (clear_groups ks (captures x)) in
        match m xr (fun y =>
                      if Nat.eqb (endIndex y) (endIndex x) then None
                      else RepeatGreedy fuel' ks m y c) with
        | Some z => Some z
        | None => c x
        end
    end.

Definition Star (ks : list nat) (m : Matcher) : Matcher := fun x c =>
  RepeatGreedy (length (remaining x)) ks m x c.

(** Greedy [m+]: one round, then [m*]. *)
Definition Plus (ks : list nat) (m : Matcher) : Matcher := fun x c =>
  let xr := mkState (endIndex x) (remaining x)
                    (clear_groups ks (captures x)) in
  m xr (fun y => Star ks m y c).

(** Greedy [m?]. *)
Definition Opt (ks : list nat) (m : Matcher) : Matcher := fun x c =>
  let xr := mkState (endIndex x) (remaining x)
                    (clear_groups ks (captures x)) in
  match m xr (fun y =>
                if Nat.eqb (endIndex y) (endIndex x) then None else c y) with
  | Some z => Some z
  | None => c x
  end.

(** A compiled pattern: its matcher and its number of groups. *)
Record RegExp : Type := mkRegExp {
  matcher : Matcher;
  nGroups : nat
}.

(** The result array of [exec]: the index of the match, the matched
    text and the groups. *)
Record ExecResult : Type := mkExec {
  index : nat;
  matched : jsstring;
  groups : list (option jsstring)
}.

(** [RegExpBuiltinExec] for a pattern without the [g] and [y] flags:
    try index 0, then 1, ... up to the length of the input. *)
Fixpoint exec_from (r : RegExp) (i : nat) (s : jsstring) : option ExecResult :=
  match matcher r (mkState i s (repeat None (nGroups r))) (fun y => Some y) with
  | Some y => Some (mkExec i (firstn (endIndex y - i) s) (captures y))
  | None =>
      match s with
      | [] => None
      | _ :: s' => exec_from r (S i) s'
      end
  end.

Definition exec (r : RegExp) (s : jsstring) : option ExecResult :=
  exec_from r 0 s.

Definition test (r : RegExp) (s : jsstring) : bool :=
  match exec r s with Some _ => true | None => false end.

(** [regexResults[k]]: the whole match for 0, group [k] otherwise
    ([None] is [undefined]). *)
Definition result_nth (res : ExecResult) (k : nat) : option jsstring :=
  match k with
  | O => Some (matched res)
  | S k' => nth k' (groups res) None
  end.

(** [s.replace(r, replacement)] for a pattern without the [g] flag and
    a replacement text without [$]: the first match is replaced. *)
Definition replace (r : RegExp) (replacement s : jsstring) : jsstring :=
  match exec r s with
  | None => s
  | Some res =>
      firstn (index res) s ++ replacement
        ++ skipn (index res + length (matched res)) s
  end.

End RegExp.

(* ================================================================== *)
(** * validator.ts *)
(* ================================================================== *)

Module Validator.

(** [type ValidatorFunc<SubjectType> =
      (subject: SubjectType) => boolean | Promise<boolean>]. *)
Definition ValidatorFunc (SubjectType : Type) : Type :=
  SubjectType -> bool + Outcome bool.

Record Validator (SubjectType : Type) : Type := new {
  _validatorFuncs : list (ValidatorFunc SubjectType)
}.

(** [Promise.resolve(result)] for a boolean or a promise of one. *)
Definition Promise_resolve (result : bool + Outcome bool) : Outcome bool :=
  match result with
  | inl b => Resolved b
  | inr p => p
  end.

Definition isValid {SubjectType} (this : Validator SubjectType)
           (subject : SubjectType) : Outcome bool :=
  let promises :=
    map (fun curValidatorFunc =>
           let result := curValidatorFunc subject in
           Promise_resolve result)
        (_validatorFuncs this) in
  catch_
    (then_ (Promise_all promises)
           (fun validationResults => every validationResults))
    (fun _ => false).

End Validator.

(* ================================================================== *)
(** * gitBranch.ts *)
(* ================================================================== *)

(** Modelled from the spec: gitRepo.ts and directory.ts are not part of
    the sources at hand. A Repository "identifies a working-copy
    location (absolute path)"; a directory is its path text. *)
Definition Directory := jsstring.

Record GitRepo : Type := mkGitRepo {
  directory : Directory
}.

Module GitBranch.

Import RegExp.

(** [strParserRegex], spelled with blanks between its parts:
    [^ ( remotes\/ ( [\w.-]+ ) \/ )? ( .* ) $]. *)
Definition strParserRegex : RegExp :=
  mkRegExp
    (Seq AssertStart
    (Seq (Opt [1; 2]
            (Group 1
               (Seq (Lit (js "remotes/"))
               (Seq (Group 2
                       (Plus [] (CharacterSetMatcher
                                   (fun ch => isWordChar ch
                                              || (ch =? 46)%N     (* dot *)
                                              || (ch =? 45)%N)))) (* dash *)
                    (Chr 47)))))                                  (* slash *)
    (Seq (Group 3 (Star [] Dot))
         AssertEnd)))
    3.

(** The pattern of the [replace] call: [^ \* \s+]. *)
Definition currentMarkerRegex : RegExp :=
  mkRegExp
    (Seq AssertStart
    (Seq (Chr 42)                                                 (* star *)
         (Plus [] (CharacterSetMatcher isTrimmable))))
    0.

(** The pattern of the [filter] call:
    [^ [\w/]+ \/HEAD \s+ -> \s+ [\w/]+ $]. *)
Definition headLineRegex : RegExp :=
  let wordOrSlash := fun ch => isWordChar ch || (ch =? 47)%N in
  mkRegExp
    (Seq AssertStart
    (Seq (Plus [] (CharacterSetMatcher wordOrSlash))
    (Seq (Lit (js "/HEAD"))
    (Seq (Plus [] (CharacterSetMatcher isTrimmable))
    (Seq (Lit (js "->"))
    (Seq (Plus [] (CharacterSetMatcher isTrimmable))
    (Seq (Plus [] (CharacterSetMatcher wordOrSlash))
         AssertEnd)))))))
    0.

Record GitBranch : Type := mkGitBranch {
  _repo : GitRepo;
  _remoteName : option jsstring;
  _name : jsstring
}.

(** The private constructor; [remoteName || undefined] turns the empty
    string into [undefined]. *)
Definition new_GitBranch (repo : GitRepo) (branchName : jsstring)
           (remoteName : option jsstring) : GitBranch :=
  {| _repo := repo;
     _name := branchName;
     _remoteName := match remoteName with
                    | Some [] => None
                    | other => other
                    end |}.

Definition name (this : GitBranch) : jsstring := _name this.

(** [throw] inside the callback of a [map] ends the whole chain. *)
Fixpoint map_throwing {A B} (f : A -> Outcome B) (l : list A)
  : Outcome (list B) :=
  match l with
  | [] => Resolved []
  | a :: l' =>
      match f a with
      | Rejected e => Rejected e
      | Resolved b => then_ (map_throwing f l') (cons b)
      end
  end.

(** The last callback of the chain in [enumerateGitRepoBranches]. *)
Definition parseLongName (repo : GitRepo) (longName : jsstring)
  : Outcome GitBranch :=
  match exec strParserRegex longName with
  | None =>
      Rejected (JsError (js "Error: Branch " ++ [34%N] ++ longName ++ [34%N]
                  ++ js " could not be parsed by enumerateGitRepoBranches()."))
  | Some regexResults =>
      let remoteName := result_nth regexResults 2 in
      let branchName := match result_nth regexResults 3 with
                        | Some s => s
                        | None => []
                        end in
      Resolved (new_GitBranch repo branchName remoteName)
  end.

(** The [_.chain(stdout.split("\n")) ... .value()] of
    [enumerateGitRepoBranches]. *)
Definition parseBranchListing (repo : GitRepo) (stdout : jsstring)
  : Outcome (list GitBranch) :=
  let lines1 := map trim (split 10 stdout) in
  let lines2 := map (replace currentMarkerRegex []) lines1 in
  let lines3 := filter (fun curLine => negb (test headLineRegex curLine)) lines2 in
  let lines4 := map trim lines3 in
  map_throwing (parseLongName repo) lines4.

Section WithSpawn.

(** [spawn(cmd, args, cwd)] of spawn.ts, by what its promise settles
    to: the standard output, or a [ProcessError]. *)
Variable spawn : jsstring -> list jsstring -> option jsstring -> Outcome jsstring.

Definition isValidBranchName (branchName : jsstring) : Outcome bool :=
  catch_
    (then_ (spawn (js "git")
                  [js "check-ref-format"; js "--allow-onelevel"; branchName]
                  None)
           (fun _ => true))
    (fun _ => false).

Definition create (repo : GitRepo) (branchName : jsstring)
           (remoteName : option jsstring) : Outcome GitBranch :=
  let validator :=
    Validator.new [fun s => inr (isValidBranchName s)] in
  match Validator.isValid validator branchName with
  | Rejected e => Rejected e
  | Resolved false =>
      Rejected (JsError
        (js "Cannot create GitBranch instance from invalid branch name "
           ++ branchName ++ js "."))
  | Resolved true =>
      Resolved (new_GitBranch repo branchName remoteName)
  end.

Definition enumerateGitRepoBranches (repo : GitRepo)
  : Outcome (list GitBranch) :=
  match spawn (js "git") [js "branch"; js "-a"] (Some (directory repo)) with
  | Rejected e => Rejected e
  | Resolved stdout => parseBranchListing repo stdout
  end.

End WithSpawn.

End GitBranch.

(* ================================================================== *)
(** * The collaborators of the workflow

    gitRepo.ts, nodePackage.ts, directory.ts, file.ts, url.ts,
    commitHash.ts and publishToGitConfig.ts are not part of the sources
    at hand. What the workflow calls in them is an external operation:
    it has a name and arguments, and the environment decides its
    outcome. *)
(* ================================================================== *)

(** Modelled from the spec: commitHash.ts is missing; a Revision is "an
    opaque content hash string identifying a commit", and [toString]
    gives that string. *)
Definition CommitHash := jsstring.
Definition CommitHash_toString (h : CommitHash) : jsstring := h.

(** Modelled from the spec: file.ts is missing; [files()] gives "tracked
    file handles", known here by their paths. *)
Definition File := jsstring.

(** Modelled from the spec: url.ts is missing; a URL is the "remote URL
    string" that its resolver extracts, and [toString] gives it back.
    [Url.fromString] and [replaceProtocol] are left to the environment. *)
Definition Url := jsstring.
Definition Url_toString (u : Url) : jsstring := u.

(** Modelled from the spec: nodePackage.ts is missing; this is what
    the workflow reads of a package: [pkg.config.version] (the "declared
    version", possibly absent), [pkg.config.repository.url] and
    [pkg.projectName]. *)
Record NodePackage : Type := mkNodePackage {
  pkg_directory : Directory;
  config_version : option jsstring;
  config_repository_url : jsstring;
  projectName : jsstring
}.

(** The pieces of [new Date()] that the workflow reads. *)
Record Date : Type := mkDate {
  getFullYear : N;
  getMonth : N;
  getDate : N;
  getHours : N;
  getMinutes : N;
  getSeconds : N;
  getMilliseconds : N
}.

(** Modelled from the spec: the operations of the missing modules that
    the workflow calls (section 4.3 of the specification lists those
    of a Repository), and [spawn] of spawn.ts, by name and arguments. *)
Inductive Op : Type :=
| GlobalConfig_init
| GitRepo_fromDirectory (dir : Directory)
| NodePackage_fromDirectory (dir : Directory)
| modifiedFiles (repo : GitRepo)
| untrackedFiles (repo : GitRepo)
| tags (repo : GitRepo)
| currentCommitHash (repo : GitRepo)
| Directory_deleteSync (dir : Directory)
| GitRepo_clone (url : Url) (parentDir : Directory)
| checkoutCommit (repo : GitRepo) (commit : CommitHash)
| spawn (cmd : jsstring) (args : list jsstring) (cwd : option jsstring)
| checkoutBranch (repo : GitRepo) (branch : GitBranch.GitBranch)
                 (createIfNeeded : bool)
| files (repo : GitRepo)
| File_delete (file : File)
| Directory_prune (dir : Directory)
| NodePackage_publish (pkg : NodePackage) (publishDir : Directory)
                      (emptyPublishDir : bool)
| stageAll (repo : GitRepo)
| commit (repo : GitRepo) (msg : jsstring)
| createTag (repo : GitRepo) (tagName : Value) (message : jsstring)
            (force : bool)
| pushTag (repo : GitRepo) (tagName : Value) (remoteName : jsstring)
          (force : bool).

(** What can be observed of a run, in order. *)
Inductive Event : Type :=
| Started (op : Op)               (* an asynchronous operation is launched *)
| Settled (op : Op) (ok : bool)   (* its promise resolves or rejects *)
| Invoked (op : Op)               (* a synchronous call *)
| Log (msg : jsstring).           (* [console.log] *)

(* ================================================================== *)
(** * Asynchronous computations

    JavaScript runs one callback at a time. Calling an operation
    launches it and returns a promise at once; the promise settles
    during a later turn of the event loop, and the program only gets
    there at an [await]. An operation takes [latency] turns, decided by
    the environment. A promise is known by the turn it settles in and
    by what it settles to. *)
(* ================================================================== *)

Module Async.

Record Promise (A : Type) : Type := mkPromise {
  due : nat;
  outcome : Outcome A
}.

Record Pending : Type := mkPending {
  p_due : nat;
  p_op : Op;
  p_ok : bool
}.

Record Sched : Type := mkSched {
  clock : nat;
  pending : list Pending     (* launched and not settled yet *)
}.

Definition start : Sched := mkSched 0 [].

Record Run (A : Type) : Type := mkRun {
  events : list Event;
  sched : Sched;
  result : Outcome A
}.

(** The body of an [async] function. *)
Definition M (A : Type) : Type := Sched -> Run A.

Definition ret {A} (a : A) : M A := fun s => mkRun [] s (Resolved a).

Definition throw {A} (e : Error) : M A := fun s => mkRun [] s (Rejected e).

Definition bind {A B} (m : M A) (k : A -> M B) : M B := fun s =>
  let r := m s in
  match result r with
  | Rejected e => mkRun (events r) (sched r) (Rejected e)
  | Resolved a =>
      let r' := k a (sched r) in
      mkRun (events r ++ events r') (sched r') (result r')
  end.

Definition lift {A} (o : Outcome A) : M A := fun s => mkRun [] s o.

Definition log (msg : jsstring) : M unit := fun s =>
  mkRun [Log msg] s (Resolved tt).

(** A synchronous call of an external operation. *)
Definition invoke {A} (op : Op) (out : Outcome A) : M A := fun s =>
  mkRun [Invoked op] s out.

Definition is_resolved {A} (o : Outcome A) : bool :=
  match o with Resolved _ => true | Rejected _ => false end.

(** Calling an asynchronous operation without waiting for it. *)
Definition fire {A} (latency : Op -> nat) (op : Op) (out : Outcome A)
  : M (Promise A) := fun s =>
  let d := clock s + S (latency op) in
  mkRun [Started op]
        (mkSched (clock s) (pending s ++ [mkPending d op (is_resolved out)]))
        (Resolved (mkPromise d out)).

Fixpoint insert_by_due (q : Pending) (l : list Pending) : list Pending :=
  match l with
  | [] => [q]
  | q' :: l' =>
      if p_due q <=? p_due q' then q :: l else q' :: insert_by_due q l'
  end.

Definition sort_by_due (l : list Pending) : list Pending :=
  fold_right insert_by_due [] l.

(** Waiting until [p] has settled: the event loop turns until then,
    and everything launched that is due by that turn settles as well,
    in the order of the turns. *)
Definition settle {A} (p : Promise A) : M (Outcome A) := fun s =>
  let t := Nat.max (clock s) (due p) in
  let ready := filter (fun q => p_due q <=? t) (pending s) in
  let later := filter (fun q => negb (p_due q <=? t)) (pending s) in
  mkRun (map (fun q => Settled (p_op q) (p_ok q)) (sort_by_due ready))
        (mkSched t later)
        (Resolved (outcome p)).

(** [await p]: a rejection is thrown. *)
Definition await {A} (p : Promise A) : M A :=
  bind (settle p) lift.

(** [await op(...)]. *)
Definition call {A} (latency : Op -> nat) (op : Op) (out : Outcome A) : M A :=
  bind (fire latency op out) await.

(** The promise of [Promise.all(ps)]: it resolves when the last of
    [ps] has resolved, and rejects as soon as one of them rejects. *)
Fixpoint all_values {A} (ps : list (Promise A)) : list A :=
  match ps with
  | [] => []
  | p :: ps' =>
      match outcome p with
      | Resolved a => a :: all_values ps'
      | Rejected _ => all_values ps'
      end
  end.

Fixpoint first_rejection {A} (ps : list (Promise A)) : option (nat * Error) :=
  match ps with
  | [] => None
  | p :: ps' =>
      match outcome p, first_rejection ps' with
      | Resolved _, r => r
      | Rejected e, None => Some (due p, e)
      | Rejected e, Some (d', e') =>
          if d' <? due p then Some (d', e') else Some (due p, e)
      end
  end.

Definition Promise_all {A} (ps : list (Promise A)) : Promise (list A) :=
  match first_rejection ps with
  | Some (d, e) => mkPromise d (Rejected e)
  | None => mkPromise (fold_right Nat.max 0 (map (@due A) ps))
                      (Resolved (all_values ps))
  end.

(** [_.map(array, callback)] for a callback with effects. *)
Fixpoint mapM {A B} (f : A -> M B) (l : list A) : M (list B) :=
  match l with
  | [] => ret []
  | a :: l' => bind (f a) (fun b => bind (mapM f l') (fun bs => ret (b :: bs)))
  end.

(** [Object.prototype.toString] on a promise. *)
Definition Promise_toString {A} (p : Promise A) : jsstring :=
  js "[object Promise]".

End Async.

Declare Scope async_scope.
Delimit Scope async_scope with async.
Notation "x <- m ;; k" := (Async.bind m (fun x => k))
  (at level 100, m at next level, right associativity) : async_scope.
Notation "m ;;; k" := (Async.bind m (fun _ => k))
  (at level 100, right associativity) : async_scope.

(* ================================================================== *)
(** * publishtogit.ts *)
(* ================================================================== *)

Module PublishToGit.

Import Async.
Local Open Scope async_scope.

(** [argv.tag]: [undefined] when the option is absent, one value when
    it is given once, an array when it is given several times. The
    option is declared without a type, so that a value is a string, a
    number or a boolean. *)
Inductive TagArg : Type :=
| TagAbsent
| TagOne (t : Value)
| TagMany (ts : list Value).

(** The [yargs.Arguments] that [getArgs] returns. *)
Record Arguments : Type := mkArguments {
  arg_tag : TagArg;
  arg_tag_version : bool;
  arg_dry_run : bool
}.

(** The environment of one run: the command line, the clock, the
    user, and the outcome and the duration of every external
    operation. An operation repeated with the same arguments has the
    same outcome. *)
Record World : Type := mkWorld {
  argv : Arguments;
  tmpDir : Directory;                               (* globalConfig.tmpDir *)
  Directory_new : Directory -> jsstring -> Directory; (* new Directory(a, b) *)
  Url_fromString : jsstring -> option Url;
  Url_replaceProtocol : Url -> jsstring -> Url;
  now : Date;                                       (* new Date() *)
  username : jsstring;                              (* userInfo().username *)
  out_GitRepo_fromDirectory : Directory -> Outcome GitRepo;
  out_NodePackage_fromDirectory : Directory -> Outcome NodePackage;
  out_modifiedFiles : GitRepo -> Outcome (list File);
  out_untrackedFiles : GitRepo -> Outcome (list File);
  out_tags : GitRepo -> Outcome (list jsstring);
  out_currentCommitHash : GitRepo -> Outcome CommitHash;
  out_clone : Url -> Directory -> Outcome GitRepo;
  out_files : GitRepo -> Outcome (list File);
  out_spawn : jsstring -> list jsstring -> option jsstring -> Outcome jsstring;
  out_void : Op -> Outcome unit;      (* the operations without a value *)
  latency : Op -> nat
}.

Record IInstanceConfig : Type := mkInstanceConfig {
  devRepo : GitRepo;
  pkg : NodePackage;
  dryRun : bool;
  cfg_tags : list Value     (* declared [Array<string>]; holds what yargs gave *)
}.

(** [_.intersection(a, b)]: the values of [a] that are in [b], each
    once, in the order of their first occurrence in [a]; values are
    compared with [SameValueZero]. *)
Definition includes_value (l : list Value) (x : Value) : bool :=
  existsb (SameValueZero x) l.

Fixpoint intersection_from (seen a b : list Value) : list Value :=
  match a with
  | [] => []
  | x :: a' =>
      if includes_value b x && negb (includes_value seen x)
      then x :: intersection_from (x :: seen) a' b
      else intersection_from seen a' b
  end.

Definition intersection (a b : list Value) : list Value :=
  intersection_from [] a b.

Section WithWorld.

Variable w : World.

Definition getArgs : Arguments := argv w.

(** [[].concat(argv.tag || [])]: a falsy value gives way to the
    empty array; an array is truthy whatever it holds, and [concat]
    takes its elements as they are. *)
Definition explicit_tags (a : Arguments) : list Value :=
  match arg_tag a with
  | TagAbsent => []
  | TagOne t => if truthy t then [t] else []
  | TagMany ts => ts
  end.

(** The text of [pkg.config.version] inside a template literal. *)
Definition version_text (p : NodePackage) : jsstring :=
  match config_version p with
  | Some v => v
  | None => js "undefined"
  end.

Definition getInstanceConfig (argv : Arguments) : M IInstanceConfig :=
  let devDir := js "." in
  devRepo <- call (latency w) (GitRepo_fromDirectory devDir)
                  (out_GitRepo_fromDirectory w devDir) ;;
  pkg <- call (latency w) (NodePackage_fromDirectory devDir)
              (out_NodePackage_fromDirectory w devDir) ;;
  let tags := explicit_tags argv in
  let tags := if arg_tag_version argv
              then tags ++ [VString (js "v" ++ version_text pkg)]
              else tags in
  match tags with
  | [] => throw (JsError (js
      "At least one tag must be applied by using either --tag-version or --tag."))
  | _ :: _ =>
      ret {| dryRun := arg_dry_run argv;
             cfg_tags := tags;
             devRepo := devRepo;
             pkg := pkg |}
  end.

(** [!instanceConfig.pkg.config.version] *)
Definition no_version (p : NodePackage) : bool :=
  match config_version p with
  | None | Some [] => true
  | Some (_ :: _) => false
  end.

Definition checkInitialConditions (instanceConfig : IInstanceConfig)
  : M unit :=
  modified <- call (latency w) (modifiedFiles (devRepo instanceConfig))
                   (out_modifiedFiles w (devRepo instanceConfig)) ;;
  match modified with
  | _ :: _ => throw (JsError (js "This repository contains modified files."))
  | [] =>
  untracked <- call (latency w) (untrackedFiles (devRepo instanceConfig))
                    (out_untrackedFiles w (devRepo instanceConfig)) ;;
  match untracked with
  | _ :: _ => throw (JsError (js "This repository contains untracked files."))
  | [] =>
  if no_version (pkg instanceConfig)
  then throw (JsError (js "Package does not have a version."))
  else
  existingTags <- call (latency w) (tags (devRepo instanceConfig))
                       (out_tags w (devRepo instanceConfig)) ;;
  let alreadyExist := intersection (map VString existingTags)
                                   (cfg_tags instanceConfig) in
  match alreadyExist with
  | _ :: _ =>
      throw (JsError (js "The following tags already exist: "
                        ++ join (js ", ") (map ToString alreadyExist)))
  | [] => ret tt
  end
  end
  end.

(** [GitBranch.create], as the event loop sees it: the name check
    launches [git check-ref-format]; [validator.isValid] settles
    when that process has, and never rejects. *)
Definition GitBranch_create (repo : GitRepo) (branchName : jsstring)
           (remoteName : option jsstring) : M GitBranch.GitBranch :=
  let cmd := js "git" in
  let args := [js "check-ref-format"; js "--allow-onelevel"; branchName] in
  p <- fire (latency w) (spawn cmd args None) (out_spawn w cmd args None) ;;
  settle p ;;;
  lift (GitBranch.create (out_spawn w) repo branchName remoteName).

Definition datestamp (now : Date) : jsstring :=
  Number_toString (getFullYear now) ++ js "_" ++
  Number_toString (getMonth now) ++ js "_" ++
  Number_toString (getDate now) ++ js "_" ++
  Number_toString (getHours now) ++ js "_" ++
  Number_toString (getMinutes now) ++ js "_" ++
  Number_toString (getSeconds now) ++ js "." ++
  Number_toString (getMilliseconds now).

Definition tmpBranchName (baseName user : jsstring) (now : Date) : jsstring :=
  baseName ++ js "-" ++ user ++ js "-" ++ datestamp now.

Definition checkoutTempBranch (repo : GitRepo) (baseName : jsstring)
  : M GitBranch.GitBranch :=
  let now := now w in
  let user := username w in
  let tmpBranchName := tmpBranchName baseName user now in
  tmpBranch <- GitBranch_create repo tmpBranchName None ;;
  call (latency w) (checkoutBranch repo tmpBranch true)
       (out_void w (checkoutBranch repo tmpBranch true)) ;;;
  ret tmpBranch.

Definition deleteTrackedFiles (repo : GitRepo) : M unit :=
  files <- call (latency w) (files repo) (out_files w repo) ;;
  deletePromises <- mapM (fun curFile =>
                            fire (latency w) (File_delete curFile)
                                 (out_void w (File_delete curFile)))
                         files ;;
  await (Promise_all deletePromises) ;;;
  ret tt.

Definition void (op : Op) : M unit := call (latency w) op (out_void w op).

Definition main : M unit :=
  let argv := getArgs in
  invoke GlobalConfig_init (out_void w GlobalConfig_init) ;;;
  instanceConfig <- getInstanceConfig argv ;;
  checkInitialConditions instanceConfig ;;;
  devCommitHash <- call (latency w) (currentCommitHash (devRepo instanceConfig))
                        (out_currentCommitHash w (devRepo instanceConfig)) ;;
  let publishDir := Directory_new w (tmpDir w)
                                  (projectName (pkg instanceConfig)) in
  invoke (Directory_deleteSync publishDir)
         (out_void w (Directory_deleteSync publishDir)) ;;;
  match Url_fromString w (config_repository_url (pkg instanceConfig)) with
  | None => throw (JsError (js "Invalid repository URL."))
  | Some repoUrl =>
  log (js "Creating temporary repo clone at " ++ publishDir ++ js "...") ;;;
  publishRepo <- call (latency w) (GitRepo_clone repoUrl (tmpDir w))
                      (out_clone w repoUrl (tmpDir w)) ;;
  (* no await here *)
  fire (latency w) (checkoutCommit publishRepo devCommitHash)
       (out_void w (checkoutCommit publishRepo devCommitHash)) ;;;
  log (js "Checking out current development commit "
         ++ CommitHash_toString devCommitHash ++ js "...") ;;;
  log (js "Creating temporary branch...") ;;;
  checkoutTempBranch publishRepo (js "publishtogit") ;;;
  log (js "Deleting all files...") ;;;
  deleteTrackedFiles publishRepo ;;;
  void (Directory_prune (directory publishRepo)) ;;;
  log (js "Publishing package contents to publish repository...") ;;;
  void (NodePackage_publish (pkg instanceConfig) publishDir false) ;;;
  log (js "Commiting published files...") ;;;
  void (stageAll publishRepo) ;;;
  void (commit publishRepo (js "Published using publish-to-git.")) ;;;
  (* no await here *)
  publishCommitHash <- fire (latency w) (currentCommitHash publishRepo)
                            (out_currentCommitHash w publishRepo) ;;
  createPromises <-
    mapM (fun curTagName =>
            log (js "Creating tag " ++ ToString curTagName ++ js "...") ;;;
            fire (latency w) (createTag publishRepo curTagName [] false)
                 (out_void w (createTag publishRepo curTagName [] false)))
         (cfg_tags instanceConfig) ;;
  await (Promise_all createPromises) ;;;
  if dryRun instanceConfig
  then
    let msg := [
      js "Running in dry-run mode.  The repository in the following temporary directory";
      js "has been left ready to push to a public server.";
      directory publishRepo ] in
    log (join [10%N] msg)
  else
  pushPromises <-
    mapM (fun curTagName =>
            log (js "Pushing tag " ++ ToString curTagName ++ js " to origin.") ;;;
            fire (latency w) (pushTag publishRepo curTagName (js "origin") true)
                 (out_void w (pushTag publishRepo curTagName (js "origin") true)))
         (cfg_tags instanceConfig) ;;
  await (Promise_all pushPromises) ;;;
  let dependencyUrl :=
    Url_toString (Url_replaceProtocol w repoUrl (js "git+https")) in
  let doneMessage :=
    ([ js "Done.";
       js "To include the published library in a Node.js project, execute the following command:" ]
     ++ map (fun curTagName =>
               js "npm install " ++ dependencyUrl ++ js "#"
                 ++ ToString curTagName)
            (cfg_tags instanceConfig))
     ++ [ js "npm install " ++ dependencyUrl ++ js "#"
            ++ Promise_toString publishCommitHash ] in
  log (join [10%N] doneMessage)
  end.

End WithWorld.

(** One run of the program: what happened until the promise of [main]
    settled, and how it settled. *)
Definition run (w : World) : list Event * Outcome unit :=
  let r := main w start in (events r, result r).

End PublishToGit.

(* ================================================================== *)
(** * Concrete inputs used by the examples below *)
(* ================================================================== *)

Module Examples.

Import Async PublishToGit.

Definition devRepo : GitRepo := mkGitRepo (js "/home/dev/proj").
Definition publishRepo : GitRepo := mkGitRepo (js "/tmp/publish/proj").

(** The output of [git branch -a] in a clone of a repository whose
    remote is called [origin]. *)
Definition listing_origin : jsstring :=
  join [10%N] [ js "* master";
                js "  develop";
                js "  remotes/origin/HEAD -> origin/master";
                js "  remotes/origin/master" ].

(** The same for a remote called [my-remote]. *)
Definition listing_dashed_remote : jsstring :=
  join [10%N] [ js "* master";
                js "  remotes/my-remote/HEAD -> my-remote/master";
                js "  remotes/my-remote/master" ].

(** A remote [origin] whose default branch is [release-1.0]. *)
Definition listing_dotted_branch : jsstring :=
  join [10%N] [ js "* release-1.0";
                js "  remotes/origin/HEAD -> origin/release-1.0";
                js "  remotes/origin/release-1.0" ].

(** A line with a carriage return in the middle. *)
Definition line_with_cr : jsstring := js "a" ++ [13%N] ++ js "b".

Definition package : NodePackage :=
  mkNodePackage (js ".") (Some (js "1.2.3"))
                (js "https://github.com/kwpeters/proj.git") (js "proj").

Definition isDevRepo (r : GitRepo) : bool :=
  str_eqb (directory r) (directory devRepo).

(** A clean package at revision [abc123], published with the explicit
    tags [latest] and [stable]; every operation succeeds; the publish commit is
    [def456]; [git checkout] of the revision takes two more turns of
    the event loop than the other operations. *)
Definition world (dry_run : bool) : World :=
  {| argv := mkArguments (TagMany [VString (js "latest"); VString (js "stable")])
                         false dry_run;
     tmpDir := js "/tmp/publish";
     Directory_new := fun a b => a ++ js "/" ++ b;
     Url_fromString := fun s => Some s;
     Url_replaceProtocol := fun u p => p ++ js "://github.com/kwpeters/proj.git";
     now := mkDate 2017 9 3 12 30 59 123;
     username := js "kwpeters";
     out_GitRepo_fromDirectory := fun _ => Resolved devRepo;
     out_NodePackage_fromDirectory := fun _ => Resolved package;
     out_modifiedFiles := fun _ => Resolved [];
     out_untrackedFiles := fun _ => Resolved [];
     out_tags := fun _ => Resolved [js "v1.0.0"];
     out_currentCommitHash :=
       fun r => Resolved (if isDevRepo r then js "abc123" else js "def456");
     out_clone := fun _ _ => Resolved publishRepo;
     out_files := fun _ => Resolved [js "index.ts"; js "README.md"];
     out_spawn := fun _ _ _ => Resolved [];
     out_void := fun _ => Resolved tt;
     latency := fun op => match op with checkoutCommit _ _ => 2 | _ => 0 end |}.

(** The same package with a modified file and with the tag [latest]
    already present. *)
Definition dirty_world : World :=
  let w := world false in
  {| argv := argv w; tmpDir := tmpDir w; Directory_new := Directory_new w;
     Url_fromString := Url_fromString w;
     Url_replaceProtocol := Url_replaceProtocol w;
     now := now w; username := username w;
     out_GitRepo_fromDirectory := out_GitRepo_fromDirectory w;
     out_NodePackage_fromDirectory := out_NodePackage_fromDirectory w;
     out_modifiedFiles := fun _ => Resolved [js "index.ts"];
     out_untrackedFiles := out_untrackedFiles w;
     out_tags := fun _ => Resolved [js "v1.0.0"; js "latest"];
     out_currentCommitHash := out_currentCommitHash w;
     out_clone := out_clone w; out_files := out_files w;
     out_spawn := out_spawn w; out_void := out_void w;
     latency := latency w |}.

(** The clean package again, with the tags [latest] and [stable]
    already present in the source repository. *)
Definition collision_world : World :=
  let w := world false in
  {| argv := argv w; tmpDir := tmpDir w; Directory_new := Directory_new w;
     Url_fromString := Url_fromString w;
     Url_replaceProtocol := Url_replaceProtocol w;
     now := now w; username := username w;
     out_GitRepo_fromDirectory := out_GitRepo_fromDirectory w;
     out_NodePackage_fromDirectory := out_NodePackage_fromDirectory w;
     out_modifiedFiles := out_modifiedFiles w;
     out_untrackedFiles := out_untrackedFiles w;
     out_tags := fun _ => Resolved [js "stable"; js "v1.0.0"; js "latest"; js "stable"];
     out_currentCommitHash := out_currentCommitHash w;
     out_clone := out_clone w; out_files := out_files w;
     out_spawn := out_spawn w; out_void := out_void w;
     latency := latency w |}.

(** The configuration that [getInstanceConfig] builds in these worlds. *)
Definition instanceConfig : IInstanceConfig :=
  mkInstanceConfig devRepo package false
                   [VString (js "latest"); VString (js "stable")].

(** The clean package once more, published with [--tag 2], of which
    yargs makes the number 2, while the source repository has the tag
    [2] already. *)
Definition numeric_tag_world : World :=
  let w := world false in
  {| argv := mkArguments (TagOne (VNumber (js "2"))) false false;
     tmpDir := tmpDir w; Directory_new := Directory_new w;
     Url_fromString := Url_fromString w;
     Url_replaceProtocol := Url_replaceProtocol w;
     now := now w; username := username w;
     out_GitRepo_fromDirectory := out_GitRepo_fromDirectory w;
     out_NodePackage_fromDirectory := out_NodePackage_fromDirectory w;
     out_modifiedFiles := out_modifiedFiles w;
     out_untrackedFiles := out_untrackedFiles w;
     out_tags := fun _ => Resolved [js "v1.0.0"; js "2"];
     out_currentCommitHash := out_currentCommitHash w;
     out_clone := out_clone w; out_files := out_files w;
     out_spawn := out_spawn w; out_void := out_void w;
     latency := latency w |}.

Definition numeric_tag_config : IInstanceConfig :=
  mkInstanceConfig devRepo package false [VNumber (js "2")].

Definition tmpBranch : GitBranch.GitBranch :=
  GitBranch.mkGitBranch publishRepo None
    (js "publishtogit-kwpeters-2017_9_3_12_30_59.123").

End Examples.

(* ================================================================== *)
(** * The vocabulary of the statements *)
(* ================================================================== *)

Section Vocabulary.

Import RegExp GitBranch Async PublishToGit.

(** What one validator function contributes to the verdict. *)
Definition contribution (r : bool + Outcome bool) : bool :=
  match r with
  | inl b => b
  | inr (Resolved b) => b
  | inr (Rejected _) => false
  end.

Definition evaluates_true (r : bool + Outcome bool) : Prop :=
  r = inl true \/ r = inr (Resolved true).

Definition rejects (r : bool + Outcome bool) : Prop :=
  exists e, r = inr (Rejected e).

(** The validator that [create] builds. *)
Definition branchNameValidator
           (spawn : jsstring -> list jsstring -> option jsstring -> Outcome jsstring)
  : Validator.Validator jsstring :=
  Validator.new [fun s => inr (isValidBranchName spawn s)].

(** The error that [create] throws for a name that is not valid. *)
Definition InvalidBranchName (branchName : jsstring) : Error :=
  JsError (js "Cannot create GitBranch instance from invalid branch name "
             ++ branchName ++ js ".").

Definition noLineTerminator (s : jsstring) : Prop :=
  Forall (fun ch => isLineTerminator ch = false) s.

Definition hasLineTerminator (s : jsstring) : Prop :=
  Exists (fun ch => isLineTerminator ch = true) s.

(** A matcher that consumes no line terminator: when the input ahead
    holds one and the continuation fails on every such input, the
    matcher fails. *)
Definition carries (m : Matcher) : Prop :=
  forall x c,
    hasLineTerminator (remaining x) ->
    (forall y, hasLineTerminator (remaining y) -> c y = None) ->
    m x c = None.

(** A matcher that fails whenever a line terminator is ahead. *)
Definition blocks (m : Matcher) : Prop :=
  forall x c, hasLineTerminator (remaining x) -> m x c = None.

(** The text of a branch listing: line feeds separate the lines, and
    no other line terminator occurs. *)
Definition plainListing (stdout : jsstring) : Prop :=
  Forall (fun ch => ch = 10%N \/ isLineTerminator ch = false) stdout.

(** Names made of letters, digits, underscores and slashes. *)
Definition plainName (s : jsstring) : Prop :=
  s <> [] /\ Forall (fun ch => (isWordChar ch || (ch =? 47)%N) = true) s.

(** The line of the listing for the symbolic reference of a remote. *)
Definition headLine (remote branch : jsstring) : jsstring :=
  js "remotes/" ++ remote ++ js "/HEAD -> " ++ remote ++ js "/" ++ branch.

(** Everything that is still running may settle later: the events
    allowed are also those of the pending operations. *)
Definition pending_ok (P : Event -> Prop) (s : Sched) : Prop :=
  Forall (fun q => P (Settled (p_op q) (p_ok q))) (pending s).

(** [safe P Q m]: whenever [m] runs, all its events satisfy [P], and
    the value it returns, if any, satisfies [Q]. *)
Definition safe {A} (P : Event -> Prop) (Q : A -> Prop) (m : M A) : Prop :=
  forall s, pending_ok P s ->
    Forall P (events (m s))
    /\ pending_ok P (sched (m s))
    /\ (forall a, result (m s) = Resolved a -> Q a).

(** [reach F m]: the events of a run of [m] that returns a value
    satisfy [F]. *)
Definition reach {A} (F : list Event -> Prop) (m : M A) : Prop :=
  forall s a, result (m s) = Resolved a -> F (events (m s)).

Definition extensible (F : list Event -> Prop) : Prop :=
  forall l1 l2, F l2 -> F (l1 ++ l2).

Definition is_settlement (e : Event) : Prop :=
  match e with
  | Settled _ _ => True
  | _ => False
  end.

(** The operations of the workflow up to the end of the validation of
    the source repository's working tree. *)
Definition inspection (op : Op) : bool :=
  match op with
  | GlobalConfig_init
  | GitRepo_fromDirectory _
  | NodePackage_fromDirectory _
  | modifiedFiles _
  | untrackedFiles _ => true
  | _ => false
  end.

(** Nothing of the clone yet: no deletion of the publish directory,
    no [git clone], no operation on the clone, no message. *)
Definition before_clone (e : Event) : Prop :=
  match e with
  | Started op | Settled op _ | Invoked op => inspection op = true
  | Log _ => False
  end.

(** The working tree of [repo] has a modified or an untracked file. *)
Definition dirty (w : World) (repo : GitRepo) : Prop :=
  (exists f fs, out_modifiedFiles w repo = Resolved (f :: fs))
  \/ (exists f fs, out_untrackedFiles w repo = Resolved (f :: fs)).

Definition is_push (op : Op) : bool :=
  match op with
  | pushTag _ _ _ _ => true
  | _ => false
  end.

Definition not_a_push (e : Event) : Prop :=
  match e with
  | Started op | Settled op _ | Invoked op => is_push op = false
  | Log _ => True
  end.

(** The tags that the run is asked to apply: those of [--tag], and the
    one of [--tag-version]. *)
Definition requested_tags (w : World) : list Value :=
  explicit_tags (argv w)
  ++ match out_NodePackage_fromDirectory w (js "."), arg_tag_version (argv w) with
     | Resolved p, true => [VString (js "v" ++ version_text p)]
     | _, _ => []
     end.

(** A tag that the command line asks for: one of the values of a
    [--tag] given several times, the value of a [--tag] given once
    unless that value is falsy, or, with [--tag-version], the letter
    [v] followed by the version of the package. *)
Definition asked_for (w : World) (t : Value) : Prop :=
  (exists ts, arg_tag (argv w) = TagMany ts /\ In t ts)
  \/ (arg_tag (argv w) = TagOne t /\ truthy t = true)
  \/ (arg_tag_version (argv w) = true
      /\ exists p, out_NodePackage_fromDirectory w (js ".") = Resolved p
                   /\ t = VString (js "v" ++ version_text p)).



(** The tags for which a run started [createTag], and those for which
    it started [pushTag], in order. *)
Definition created_tags (ev : list Event) : list Value :=
  flat_map (fun e => match e with
                     | Started (createTag _ t _ _) => [t]
                     | _ => []
                     end) ev.

Definition pushed_tags (ev : list Event) : list Value :=
  flat_map (fun e => match e with
                     | Started (pushTag _ t _ _) => [t]
                     | _ => []
                     end) ev.

(** Two instants of the same second. *)
Definition same_second (d1 d2 : Date) : Prop :=
  getFullYear d1 = getFullYear d2 /\ getMonth d1 = getMonth d2
  /\ getDate d1 = getDate d2 /\ getHours d1 = getHours d2
  /\ getMinutes d1 = getMinutes d2 /\ getSeconds d1 = getSeconds d2.

(** The checkout of the revision is launched, two messages are
    printed, and the check of the temporary branch name is launched:
    four consecutive events, with no settlement in between. *)
Definition launches_back_to_back (w : World) (ev : list Event) : Prop :=
  exists pre post publishRepo devCommitHash,
    ev = pre
         ++ [ Started (checkoutCommit publishRepo devCommitHash);
              Log (js "Checking out current development commit "
                     ++ devCommitHash ++ js "...");
              Log (js "Creating temporary branch...");
              Started (spawn (js "git")
                             [ js "check-ref-format"; js "--allow-onelevel";
                               tmpBranchName (js "publishtogit") (username w) (now w) ]
                             None) ]
         ++ post.

Definition done_report (dependencyUrl : jsstring) (tags : list Value)
           (commit_text : jsstring) : jsstring :=
  join [10%N]
    ([ js "Done.";
       js "To include the published library in a Node.js project, execute the following command:" ]
     ++ map (fun t => js "npm install " ++ dependencyUrl ++ js "#" ++ ToString t)
            tags
     ++ [ js "npm install " ++ dependencyUrl ++ js "#" ++ commit_text ]).

(** The run ends by printing the report, with one line for each
    requested tag and a last line that ends in [[object Promise]]. *)
Definition reports_a_promise (w : World) (ev : list Event) : Prop :=
  exists pre dependencyUrl,
    ev = pre ++ [Log (done_report dependencyUrl (requested_tags w)
                                  (js "[object Promise]"))].

End Vocabulary.

(* ================================================================== *)
(** * More vocabulary: listings, and stages of the workflow *)
(* ================================================================== *)

Section MoreVocabulary.

Import RegExp GitBranch Async PublishToGit.

(** [carries_on I m]: when the input ahead satisfies [I] and the
    continuation fails on every such input, [m] fails. *)
Definition carries_on (I : jsstring -> Prop) (m : Matcher) : Prop :=
  forall x c,
    I (remaining x) ->
    (forall y, I (remaining y) -> c y = None) ->
    m x c = None.

(** [blocks_on I m]: [m] fails whenever the input ahead satisfies [I]. *)
Definition blocks_on (I : jsstring -> Prop) (m : Matcher) : Prop :=
  forall x c, I (remaining x) -> m x c = None.

(** A text without white space and without line terminators. *)
Definition noWhiteSpace (s : jsstring) : Prop :=
  Forall (fun ch => isTrimmable ch = false) s.

(** The characters of a remote name in [strParserRegex]. *)
Definition remoteNameChar (ch : N) : bool :=
  isWordChar ch || (ch =? 46)%N || (ch =? 45)%N.

(** The long name that [git branch -a] prints for a branch. *)
Definition longName (b : GitBranch) : jsstring :=
  match _remoteName b with
  | None => _name b
  | Some r => js "remotes/" ++ r ++ js "/" ++ _name b
  end.

(** A branch of [repo] that a listing can show: a name without white
    space; for a remote branch, a remote name made of letters, digits,
    underscores, dots and dashes; for a local branch, a name that does
    not look like a remote one. *)
Definition listable (repo : GitRepo) (b : GitBranch) : Prop :=
  _repo b = repo
  /\ _name b <> []
  /\ noWhiteSpace (_name b)
  /\ match _remoteName b with
     | None => startsWith (js "remotes/") (_name b) = false
     | Some r => r <> [] /\ Forall (fun ch => remoteNameChar ch = true) r
     end.

(** A line of a listing: a branch, current or not, or the symbolic
    reference of a remote. *)
Inductive ListingItem : Type :=
| BranchItem (current : bool) (b : GitBranch)
| HeadItem (remote branch : jsstring).

Definition itemLine (it : ListingItem) : jsstring :=
  match it with
  | BranchItem true b => js "* " ++ longName b
  | BranchItem false b => js "  " ++ longName b
  | HeadItem remote branch => js "  " ++ headLine remote branch
  end.

Definition itemBranches (it : ListingItem) : list GitBranch :=
  match it with
  | BranchItem _ b => [b]
  | HeadItem _ _ => []
  end.

Definition listableItem (repo : GitRepo) (it : ListingItem) : Prop :=
  match it with
  | BranchItem _ b => listable repo b
  | HeadItem remote branch => plainName remote /\ plainName branch
  end.

(** The text of a listing with the given lines. *)
Definition listingText (items : list ListingItem) : jsstring :=
  join [10%N] (map itemLine items).

(** ** Stages of the workflow *)

(** Loading the configuration: set-up and the two [fromDirectory]. *)
Definition loading (op : Op) : bool :=
  match op with
  | GlobalConfig_init
  | GitRepo_fromDirectory _
  | NodePackage_fromDirectory _ => true
  | _ => false
  end.

Definition only_loading (e : Event) : Prop :=
  match e with
  | Started op | Settled op _ | Invoked op => loading op = true
  | Log _ => False
  end.

(** Up to the end of [checkInitialConditions]. *)
Definition validating (op : Op) : bool :=
  match op with
  | tags _ => true
  | _ => inspection op
  end.

Definition only_validating (e : Event) : Prop :=
  match e with
  | Started op | Settled op _ | Invoked op => validating op = true
  | Log _ => False
  end.

(** Up to the deletion of the stale publish directory. *)
Definition preparing (op : Op) : bool :=
  match op with
  | currentCommitHash _ | Directory_deleteSync _ => true
  | _ => validating op
  end.

Definition only_preparing (e : Event) : Prop :=
  match e with
  | Started op | Settled op _ | Invoked op => preparing op = true
  | Log _ => False
  end.

(** From the checkout of the temporary branch on: what changes the
    clone, its history or the remote. *)
Definition purging (op : Op) : bool :=
  match op with
  | checkoutBranch _ _ _ | files _ | File_delete _ | Directory_prune _
  | NodePackage_publish _ _ _ | stageAll _ | commit _ _
  | createTag _ _ _ _ | pushTag _ _ _ _ => true
  | _ => false
  end.

Definition before_purge (e : Event) : Prop :=
  match e with
  | Started op | Settled op _ | Invoked op => purging op = false
  | Log _ => True
  end.

(** There is no tag to apply: without [--tag-version], [argv.tag] is
    [undefined], a single falsy value (the empty string, the number
    zero, [false]) or an empty array. *)
Definition no_tag_value (a : Arguments) : Prop :=
  arg_tag_version a = false
  /\ match arg_tag a with
     | TagAbsent => True
     | TagOne t => truthy t = false
     | TagMany ts => ts = []
     end.

(** What [checkInitialConditions] requires: a clean working tree, a
    version, and no requested value that is an existing tag. The
    existing tags are strings: a requested number or boolean is none
    of them, whatever its text. *)
Definition validated (w : World) (cfg : IInstanceConfig) : Prop :=
  out_modifiedFiles w (devRepo cfg) = Resolved []
  /\ out_untrackedFiles w (devRepo cfg) = Resolved []
  /\ no_version (pkg cfg) = false
  /\ exists existing,
       out_tags w (devRepo cfg) = Resolved existing
       /\ forall t, In t (cfg_tags cfg) -> ~ In t (map VString existing).

(** A repository that [GitRepo.clone] returned. *)
Definition cloned (w : World) (r : GitRepo) : Prop :=
  exists url dir, out_clone w url dir = Resolved r.

(** The operations on a working copy are launched on a clone. *)
Definition on_clone (w : World) (e : Event) : Prop :=
  match e with
  | Started op =>
      match op with
      | checkoutCommit r _ | checkoutBranch r _ _ | files r | stageAll r
      | commit r _ | createTag r _ _ _ | pushTag r _ _ _ => cloned w r
      | Directory_prune d => exists r, cloned w r /\ d = directory r
      | _ => True
      end
  | _ => True
  end.

(** In every repository that [GitRepo.clone] returns, one of the
    requested tags cannot be created. *)
Definition some_tag_fails (w : World) : Prop :=
  forall publishRepo,
    cloned w publishRepo ->
    exists t, In t (requested_tags w)
              /\ is_resolved (out_void w (createTag publishRepo t [] false)) = false.


(** The run ends by printing where the clone is. *)
Definition reports_the_clone (w : World) (ev : list Event) : Prop :=
  exists pre publishRepo,
    cloned w publishRepo
    /\ ev = pre
            ++ [Log (join [10%N]
                  [ js "Running in dry-run mode.  The repository in the following temporary directory";
                    js "has been left ready to push to a public server.";
                    directory publishRepo ])].

(** ** The order of the steps *)





End MoreVocabulary.

(* ================================================================== *)
(** * More concrete inputs *)
(* ================================================================== *)

Module MoreExamples.

Import GitBranch Async PublishToGit.

(** The lines of [Examples.listing_origin]. *)
Definition origin_items : list ListingItem :=
  [ BranchItem true (mkGitBranch Examples.publishRepo None (js "master"));
    BranchItem false (mkGitBranch Examples.publishRepo None (js "develop"));
    HeadItem (js "origin") (js "master");
    BranchItem false
      (mkGitBranch Examples.publishRepo (Some (js "origin")) (js "master")) ].

(** [Examples.world] with another command line, another package,
    other outcomes for the operations without a value, another outcome
    for the processes, or another reading of URLs. *)
Definition world_with (a : Arguments) (p : NodePackage)
           (void : Op -> Outcome unit)
           (spawned : jsstring -> list jsstring -> option jsstring -> Outcome jsstring)
           (url : jsstring -> option Url) (existing : list jsstring) : World :=
  let w := Examples.world false in
  {| argv := a; tmpDir := tmpDir w; Directory_new := Directory_new w;
     Url_fromString := url;
     Url_replaceProtocol := Url_replaceProtocol w;
     now := now w; username := username w;
     out_GitRepo_fromDirectory := out_GitRepo_fromDirectory w;
     out_NodePackage_fromDirectory := fun _ => Resolved p;
     out_modifiedFiles := out_modifiedFiles w;
     out_untrackedFiles := out_untrackedFiles w;
     out_tags := fun _ => Resolved existing;
     out_currentCommitHash := out_currentCommitHash w;
     out_clone := out_clone w; out_files := out_files w;
     out_spawn := spawned; out_void := void;
     latency := latency w |}.

Definition two_tags : Arguments :=
  mkArguments (TagMany [VString (js "latest"); VString (js "stable")]) false false.

Definition all_well : Op -> Outcome unit := fun _ => Resolved tt.

Definition processes_succeed
  : jsstring -> list jsstring -> option jsstring -> Outcome jsstring :=
  fun _ _ _ => Resolved [].

(** [--tag] with the empty string and nothing else on the command line. *)
Definition untagged_world : World :=
  world_with (mkArguments (TagOne (VString [])) false false) Examples.package
             all_well processes_succeed (fun s => Some s) [js "v1.0.0"].

(** [--tag] given twice, with the empty string each time. *)
Definition empty_tags_world : World :=
  world_with (mkArguments (TagMany [VString []; VString []]) false false)
             Examples.package all_well processes_succeed (fun s => Some s)
             [js "v1.0.0"].

(** [--tag 0], of which yargs makes the number zero. *)
Definition zero_tag_world : World :=
  world_with (mkArguments (TagOne (VNumber (js "0"))) false false)
             Examples.package all_well processes_succeed (fun s => Some s)
             [js "v1.0.0"].

(** A package.json without a version, published with [--tag-version]. *)
Definition unversioned_package : NodePackage :=
  mkNodePackage (js ".") None
                (js "https://github.com/kwpeters/proj.git") (js "proj").

Definition unversioned_world : World :=
  world_with (mkArguments TagAbsent true false) unversioned_package
             all_well processes_succeed (fun s => Some s) [js "v1.0.0"].

(** The tag [stable] exists already. *)
Definition rerun_world : World :=
  world_with two_tags Examples.package all_well processes_succeed
             (fun s => Some s) [js "v1.0.0"; js "stable"].

(** [git check-ref-format] refuses every name. *)
Definition refusing_world : World :=
  world_with two_tags Examples.package all_well
             (fun _ _ _ => Rejected (ProcessError 1 []))
             (fun s => Some s) [js "v1.0.0"].

(** The tag [stable] cannot be created. *)
Definition tag_failure_world : World :=
  world_with two_tags Examples.package
             (fun op => match op with
                        | createTag _ t _ _ =>
                            if SameValueZero t (VString (js "stable"))
                            then Rejected (ProcessError 128 (js "fatal: tag exists"))
                            else Resolved tt
                        | _ => Resolved tt
                        end)
             processes_succeed (fun s => Some s) [js "v1.0.0"].

(** The repository URL of the package cannot be read. *)
Definition bad_url_world : World :=
  world_with two_tags Examples.package all_well processes_succeed
             (fun _ => None) [js "v1.0.0"].

End MoreExamples.


(* ================================================================== *)
(** * Properties of [Validator] *)
(* ================================================================== *)

Section ValidatorFacts.

Import Validator.

Context {SubjectType : Type}.

Lemma contribution_true (r : bool + Outcome bool) :
  contribution r = true <-> evaluates_true r.
Proof.
  unfold evaluates_true.
  destruct r as [[|] | [[|] | e]]; simpl; split; intros H;
    try reflexivity; try discriminate; auto;
    destruct H as [H | H]; discriminate.
Qed.

Lemma Promise_all_resolve (fs : list (ValidatorFunc SubjectType)) (subject : SubjectType) :
  catch_ (then_ (Promise_all (map (fun f => Promise_resolve (f subject)) fs)) every)
         (fun _ => false)
  = Resolved (forallb (fun f => contribution (f subject)) fs).
Proof.
  induction fs as [| f fs IH]; simpl.
  - reflexivity.
  - destruct (f subject) as [b | [b | e]]; simpl.
    + destruct (Promise_all _) as [vs | e']; simpl in *.
      * injection IH as IH. unfold every in *. simpl. now rewrite IH.
      * injection IH as IH. rewrite <- IH. now rewrite andb_false_r.
    + destruct (Promise_all _) as [vs | e']; simpl in *.
      * injection IH as IH. unfold every in *. simpl. now rewrite IH.
      * injection IH as IH. rewrite <- IH. now rewrite andb_false_r.
    + reflexivity.
Qed.

Lemma isValid_verdict (fs : list (ValidatorFunc SubjectType)) (subject : SubjectType) :
  isValid (new fs) subject
  = Resolved (forallb (fun f => contribution (f subject)) fs).
Proof. unfold isValid. simpl. apply Promise_all_resolve. Qed.

(** C2: [isValid] resolves to [true] exactly when every validator
    function evaluates to [true] on the subject; when one of them
    returns a promise that rejects, it resolves to [false]; and it
    never rejects. *)
Theorem isValid_and_of_all :
  forall (fs : list (ValidatorFunc SubjectType)) (subject : SubjectType),
    (isValid (new fs) subject = Resolved true
     <-> Forall (fun f => evaluates_true (f subject)) fs)
    /\ (Exists (fun f => rejects (f subject)) fs
        -> isValid (new fs) subject = Resolved false)
    /\ (forall e, isValid (new fs) subject <> Rejected e).
Proof.
  intros fs subject. rewrite isValid_verdict. repeat split.
  - intros H. injection H as H. rewrite forallb_forall in H.
    apply Forall_forall. intros f Hf. apply contribution_true. auto.
  - intros H. f_equal. apply forallb_forall. intros f Hf.
    apply contribution_true. rewrite Forall_forall in H. auto.
  - intros H. f_equal. apply Exists_exists in H.
    destruct H as (f & Hf & e & He).
    destruct (forallb (fun f => contribution (f subject)) fs) eqn:E;
      [| reflexivity].
    rewrite forallb_forall in E. specialize (E f Hf).
    rewrite He in E. discriminate.
  - intros e H. discriminate.
Qed.

End ValidatorFacts.

(* ================================================================== *)
(** * Properties of [GitBranch.create] *)
(* ================================================================== *)

Section CreateFacts.

Import GitBranch.

Variable spawn : jsstring -> list jsstring -> option jsstring -> Outcome jsstring.

Lemma branch_validation_verdict (branchName : jsstring) :
  Validator.isValid (branchNameValidator spawn) branchName
  = Resolved
      (Async.is_resolved
         (spawn (js "git")
                [js "check-ref-format"; js "--allow-onelevel"; branchName]
                None)).
Proof.
  unfold branchNameValidator. rewrite isValid_verdict. simpl.
  unfold isValidBranchName.
  destruct (spawn _ _ _); reflexivity.
Qed.

(** C7: when the validation of the name yields [false], [create]
    fails with the invalid-branch-name error, which is not a
    [ProcessError] (not even when the name check ended with one);
    when it yields [true], [create] returns a branch that carries the
    name. *)
Theorem create_checks_the_name :
  forall (repo : GitRepo) (branchName : jsstring) (remoteName : option jsstring),
    (Validator.isValid (branchNameValidator spawn) branchName = Resolved false
     -> create spawn repo branchName remoteName
          = Rejected (InvalidBranchName branchName)
        /\ isProcessError (InvalidBranchName branchName) = false)
    /\ (Validator.isValid (branchNameValidator spawn) branchName = Resolved true
        -> exists b, create spawn repo branchName remoteName = Resolved b
                     /\ name b = branchName /\ _repo b = repo).
Proof.
  intros repo branchName remoteName. unfold create.
  fold (branchNameValidator spawn). split; intros H; rewrite H.
  - split; reflexivity.
  - eexists. split; [reflexivity | split; reflexivity].
Qed.

End CreateFacts.

(* ================================================================== *)
(** * Properties of the matchers *)
(* ================================================================== *)

Section RegExpFacts.

Import RegExp.

Variable p : N -> bool.

Lemma succ_neq_eqb (i : nat) : Nat.eqb (S i) i = false.
Proof. apply Nat.eqb_neq. lia. Qed.

Lemma RepeatGreedy_class_step fuel ch (s : jsstring) i caps (c : MatcherContinuation) :
  p ch = true ->
  RepeatGreedy (S fuel) [] (CharacterSetMatcher p) (mkState i (ch :: s) caps) c
  = match RepeatGreedy fuel [] (CharacterSetMatcher p) (mkState (S i) s caps) c with
    | Some z => Some z
    | None => c (mkState i (ch :: s) caps)
    end.
Proof.
  intros Hch. cbn -[Nat.eqb]. unfold CharacterSetMatcher at 1.
  cbn -[Nat.eqb]. rewrite Hch. cbn -[Nat.eqb].
  rewrite succ_neq_eqb. reflexivity.
Qed.

(** Greedy repetition finds a match whenever some split of the input
    lets the rest of the pattern match. *)
Lemma RepeatGreedy_class_complete (a : jsstring) :
  Forall (fun ch => p ch = true) a ->
  forall fuel b i caps (c : MatcherContinuation),
    length (a ++ b) <= fuel ->
    (exists z, c (mkState (i + length a) b caps) = Some z) ->
    exists z, RepeatGreedy fuel [] (CharacterSetMatcher p)
                           (mkState i (a ++ b) caps) c = Some z.
Proof.
  induction 1 as [| ch a Hch Ha IH]; intros fuel b i caps c Hfuel (z & Hz).
  - simpl in Hz. rewrite Nat.add_0_r in Hz. simpl app.
    destruct fuel as [| fuel]; cbn -[Nat.eqb]; [eauto |].
    match goal with
    | |- exists z', match ?m with Some _ => _ | None => _ end = _ =>
        destruct m as [z0 |]; eauto
    end.
  - destruct fuel as [| fuel]; [simpl in Hfuel; lia |].
    simpl app. rewrite RepeatGreedy_class_step by exact Hch.
    destruct (IH fuel b (S i) caps c) as (z' & Hz').
    + simpl in Hfuel. lia.
    + exists z. simpl in Hz. rewrite <- Nat.add_succ_comm in Hz. exact Hz.
    + rewrite Hz'. eauto.
Qed.

Lemma Plus_class_complete (ch : N) (a b : jsstring) i caps (c : MatcherContinuation) :
  p ch = true ->
  Forall (fun ch => p ch = true) a ->
  (exists z, c (mkState (i + length (ch :: a)) b caps) = Some z) ->
  exists z, Plus [] (CharacterSetMatcher p) (mkState i ((ch :: a) ++ b) caps) c
            = Some z.
Proof.
  intros Hch Ha (z & Hz). unfold Plus. cbn -[Nat.eqb].
  unfold CharacterSetMatcher at 1. cbn -[Nat.eqb]. rewrite Hch.
  unfold Star. cbn [remaining].
  apply RepeatGreedy_class_complete; [exact Ha | lia |].
  exists z. simpl in Hz. rewrite <- Nat.add_succ_comm in Hz. exact Hz.
Qed.

Lemma Lit_consumes (s r : jsstring) i caps (c : MatcherContinuation) :
  Lit s (mkState i (s ++ r) caps) c = c (mkState (i + length s) r caps).
Proof.
  revert i. induction s as [| ch s IH]; intros i; simpl.
  - unfold Empty. now rewrite Nat.add_0_r.
  - unfold Seq, Chr, CharacterSetMatcher. simpl. rewrite N.eqb_refl.
    rewrite IH. now rewrite Nat.add_succ_comm.
Qed.

(** ** Line terminators stop [.] and [$] *)

Lemma line_terminator_or_not (s : jsstring) :
  noLineTerminator s \/ hasLineTerminator s.
Proof.
  induction s as [| ch s [IH | IH]].
  - left. constructor.
  - destruct (isLineTerminator ch) eqn:E.
    + right. now constructor.
    + left. now constructor.
  - right. now apply Exists_cons_tl.
Qed.

Lemma carries_class :
  (forall ch, p ch = true -> isLineTerminator ch = false) ->
  carries (CharacterSetMatcher p).
Proof.
  intros Hp x c Hx Hc. unfold CharacterSetMatcher.
  destruct (remaining x) as [| ch rest]; [reflexivity |].
  destruct (p ch) eqn:E; [| reflexivity].
  apply Hc. cbn [remaining].
  inversion Hx as [? ? Hch | ? ? Hrest]; subst; [| exact Hrest].
  rewrite (Hp ch E) in Hch. discriminate.
Qed.

Lemma carries_Empty : carries Empty.
Proof. intros x c Hx Hc. unfold Empty. auto. Qed.

Lemma carries_Seq (m1 m2 : Matcher) :
  carries m1 -> carries m2 -> carries (Seq m1 m2).
Proof.
  intros H1 H2 x c Hx Hc. unfold Seq. apply H1; [exact Hx |].
  intros y Hy. apply H2; assumption.
Qed.

Lemma carries_Group (k : nat) (m : Matcher) : carries m -> carries (Group k m).
Proof.
  intros Hm x c Hx Hc. unfold Group. apply Hm; [exact Hx |].
  intros y Hy. apply Hc. exact Hy.
Qed.

Lemma carries_RepeatGreedy (fuel : nat) (ks : list nat) (m : Matcher) :
  carries m -> carries (RepeatGreedy fuel ks m).
Proof.
  intros Hm. induction fuel as [| fuel IH]; intros x c Hx Hc.
  - simpl. auto.
  - cbn [RepeatGreedy]. rewrite Hm.
    + auto.
    + exact Hx.
    + intros y Hy. destruct (Nat.eqb (endIndex y) (endIndex x)); [reflexivity |].
      apply IH; assumption.
Qed.

Lemma carries_Star (ks : list nat) (m : Matcher) : carries m -> carries (Star ks m).
Proof. intros Hm x c Hx Hc. unfold Star. now apply carries_RepeatGreedy. Qed.

Lemma carries_Plus (ks : list nat) (m : Matcher) : carries m -> carries (Plus ks m).
Proof.
  intros Hm x c Hx Hc. unfold Plus. apply Hm; [exact Hx |].
  intros y Hy. now apply carries_Star.
Qed.

Lemma carries_Opt (ks : list nat) (m : Matcher) : carries m -> carries (Opt ks m).
Proof.
  intros Hm x c Hx Hc. unfold Opt. rewrite Hm.
  - auto.
  - exact Hx.
  - intros y Hy. destruct (Nat.eqb (endIndex y) (endIndex x)); auto.
Qed.

Lemma carries_AssertStart : carries AssertStart.
Proof.
  intros x c Hx Hc. unfold AssertStart. destruct (endIndex x); auto.
Qed.

Lemma blocks_AssertEnd : blocks AssertEnd.
Proof.
  intros x c Hx. unfold AssertEnd.
  destruct (remaining x); [inversion Hx | reflexivity].
Qed.

Lemma blocks_Seq (m1 m2 : Matcher) : carries m1 -> blocks m2 -> blocks (Seq m1 m2).
Proof.
  intros H1 H2 x c Hx. unfold Seq. apply H1; [exact Hx |].
  intros y Hy. now apply H2.
Qed.

(** A pattern that begins with [^] matches at index 0 or nowhere. *)
Lemma exec_from_anchored (m : Matcher) (n : nat) (s : jsstring) (i : nat) :
  exec_from (mkRegExp (Seq AssertStart m) n) (S i) s = None.
Proof.
  revert i. induction s as [| ch s IH]; intros i; cbn [exec_from matcher];
    unfold Seq at 1, AssertStart; cbn [endIndex]; [reflexivity | apply IH].
Qed.

End RegExpFacts.

(* ================================================================== *)
(** * Properties of the branch listing parser *)
(* ================================================================== *)

Section ListingFacts.

Import RegExp GitBranch.

(** ** Greedy [.*] runs to the end of a text without line terminators *)

Lemma RepeatGreedy_Dot_step fuel ch (s : jsstring) i caps (c : MatcherContinuation) :
  isLineTerminator ch = false ->
  RepeatGreedy (S fuel) [] Dot (mkState i (ch :: s) caps) c
  = match RepeatGreedy fuel [] Dot (mkState (S i) s caps) c with
    | Some z => Some z
    | None => c (mkState i (ch :: s) caps)
    end.
Proof.
  intros Hch. unfold Dot. apply RepeatGreedy_class_step. now rewrite Hch.
Qed.

Lemma RepeatGreedy_Dot_all (s : jsstring) :
  noLineTerminator s ->
  forall fuel i caps (c : MatcherContinuation) z,
    length s <= fuel ->
    c (mkState (i + length s) [] caps) = Some z ->
    RepeatGreedy fuel [] Dot (mkState i s caps) c = Some z.
Proof.
  induction 1 as [| ch s Hch Hs IH]; intros fuel i caps c z Hfuel Hc.
  - simpl in Hc. rewrite Nat.add_0_r in Hc.
    destruct fuel; simpl; [exact Hc |].
    unfold Dot, CharacterSetMatcher. simpl. exact Hc.
  - destruct fuel as [| fuel]; [simpl in Hfuel; lia |].
    rewrite RepeatGreedy_Dot_step by exact Hch.
    rewrite (IH fuel (S i) caps c z); [reflexivity | simpl in Hfuel; lia |].
    simpl in Hc. rewrite <- Nat.add_succ_comm in Hc. exact Hc.
Qed.

Lemma branch_name_group_matches (s : jsstring) i caps :
  noLineTerminator s ->
  exists z, Seq (Group 3 (Star [] Dot)) AssertEnd (mkState i s caps)
                (fun y => Some y) = Some z.
Proof.
  intros Hs. unfold Seq, Group, Star. simpl.
  eexists. apply RepeatGreedy_Dot_all; [exact Hs | lia |].
  unfold AssertEnd. simpl. reflexivity.
Qed.

Lemma strParserRegex_matches (s : jsstring) :
  noLineTerminator s -> exec strParserRegex s <> None.
Proof.
  intros Hs. unfold exec.
  assert (Hm : exists z, matcher strParserRegex
                           (mkState 0 s (repeat None (nGroups strParserRegex)))
                           (fun y => Some y) = Some z).
  { unfold strParserRegex. simpl matcher. simpl nGroups.
    unfold Seq at 1. unfold AssertStart. simpl endIndex.
    unfold Seq at 1. unfold Opt.
    match goal with
    | |- exists z, match ?m with Some _ => _ | None => _ end = _ =>
        destruct m as [z0 |]
    end.
    - eexists; reflexivity.
    - apply branch_name_group_matches. exact Hs. }
  destruct Hm as [z Hz].
  destruct s; cbn [exec_from]; rewrite Hz; discriminate.
Qed.

Lemma strParserRegex_blocks :
  blocks (Seq (Opt [1; 2]
                 (Group 1
                    (Seq (Lit (js "remotes/"))
                    (Seq (Group 2
                            (Plus [] (CharacterSetMatcher
                                        (fun ch => isWordChar ch
                                                   || (ch =? 46)%N
                                                   || (ch =? 45)%N))))
                         (Chr 47)))))
         (Seq (Group 3 (Star [] Dot)) AssertEnd)).
Proof.
  apply blocks_Seq.
  - apply carries_Opt, carries_Group.
    apply carries_Seq.
    + cbn [js map list_ascii_of_string Lit].
      repeat (apply carries_Seq;
              [apply carries_class; intros ch H; apply N.eqb_eq in H;
               subst; reflexivity |]).
      apply carries_Empty.
    + apply carries_Seq.
      * apply carries_Group, carries_Plus, carries_class.
        intros ch H. unfold isLineTerminator, isWordChar in *.
        repeat rewrite orb_true_iff in H.
        repeat rewrite andb_true_iff in H.
        repeat rewrite N.leb_le in H. repeat rewrite N.eqb_eq in H.
        repeat rewrite orb_false_iff. repeat rewrite N.eqb_neq.
        lia.
      * apply carries_class. intros ch H. apply N.eqb_eq in H.
        subst. reflexivity.
  - apply blocks_Seq; [| apply blocks_AssertEnd].
    apply carries_Group, carries_Star, carries_class.
    intros ch H. now apply negb_true_iff in H.
Qed.

Lemma strParserRegex_fails (s : jsstring) :
  hasLineTerminator s -> exec strParserRegex s = None.
Proof.
  intros Hs. unfold exec, strParserRegex.
  assert (H0 : forall caps c,
             Seq AssertStart
                 (Seq (Opt [1; 2]
                         (Group 1
                            (Seq (Lit (js "remotes/"))
                            (Seq (Group 2
                                    (Plus [] (CharacterSetMatcher
                                                (fun ch => isWordChar ch
                                                           || (ch =? 46)%N
                                                           || (ch =? 45)%N))))
                                 (Chr 47)))))
                 (Seq (Group 3 (Star [] Dot)) AssertEnd))
                 (mkState 0 s caps) c = None).
  { intros caps c. unfold Seq at 1, AssertStart. cbn [endIndex].
    apply strParserRegex_blocks. exact Hs. }
  destruct s as [| ch s]; [inversion Hs |].
  cbn [exec_from matcher nGroups]. rewrite H0.
  apply exec_from_anchored.
Qed.

Lemma parseLongName_resolves (repo : GitRepo) (longName : jsstring) :
  noLineTerminator longName ->
  exists b, parseLongName repo longName = Resolved b.
Proof.
  intros Hs. unfold parseLongName.
  destruct (exec strParserRegex longName) eqn:E.
  - eexists; reflexivity.
  - exfalso. now apply (strParserRegex_matches Hs).
Qed.

(** ** The steps before the parse keep line terminators out *)

Lemma split_pieces (P : N -> Prop) (sep : N) (s : jsstring) :
  Forall (fun ch => ch = sep \/ P ch) s ->
  Forall (Forall P) (split sep s).
Proof.
  induction 1 as [| ch s Hch Hs IH]; simpl.
  - repeat constructor.
  - destruct (N.eqb_spec ch sep) as [-> | Hne].
    + constructor; [constructor | exact IH].
    + destruct Hch as [Heq | HP]; [contradiction |].
      destruct (split sep s) as [| l ls].
      * repeat constructor; assumption.
      * inversion IH; subst. constructor; [constructor |]; assumption.
Qed.

Lemma Forall_trimStart (P : N -> Prop) (s : jsstring) :
  Forall P s -> Forall P (trimStart s).
Proof.
  induction 1 as [| ch s Hch Hs IH]; simpl; [constructor |].
  destruct (isTrimmable ch); [exact IH | constructor; assumption].
Qed.

Lemma Forall_trim (P : N -> Prop) (s : jsstring) :
  Forall P s -> Forall P (trim s).
Proof.
  intros H. unfold trim, trimEnd.
  apply Forall_rev, Forall_trimStart, Forall_rev, Forall_trimStart, H.
Qed.

Lemma Forall_firstn_skipn (P : N -> Prop) (n : nat) (s : jsstring) :
  Forall P s -> Forall P (firstn n s) /\ Forall P (skipn n s).
Proof.
  intros H. rewrite <- (firstn_skipn n s) in H.
  apply Forall_app in H. exact H.
Qed.

Lemma Forall_replace_empty (P : N -> Prop) (r : RegExp) (s : jsstring) :
  Forall P s -> Forall P (replace r [] s).
Proof.
  intros H. unfold replace. destruct (exec r s) as [res |]; [| exact H].
  simpl. apply Forall_app. split.
  - apply Forall_firstn_skipn, H.
  - apply Forall_firstn_skipn, H.
Qed.

Lemma Forall_filter_keeps {A} (P : A -> Prop) (f : A -> bool) (l : list A) :
  Forall P l -> Forall P (filter f l).
Proof.
  induction 1 as [| a l Ha Hl IH]; simpl; [constructor |].
  destruct (f a); [constructor |]; assumption.
Qed.

Lemma Forall_map_preserved {A} (P : A -> Prop) (f : A -> A) (l : list A) :
  (forall a, P a -> P (f a)) -> Forall P l -> Forall P (map f l).
Proof.
  intros Hf. induction 1; simpl; constructor; auto.
Qed.

Lemma map_throwing_resolves {A B} (f : A -> Outcome B) (l : list A) :
  Forall (fun a => exists b, f a = Resolved b) l ->
  exists bs, map_throwing f l = Resolved bs.
Proof.
  induction 1 as [| a l [b Hb] Hl [bs IH]]; simpl.
  - eexists; reflexivity.
  - rewrite Hb, IH. simpl. eexists; reflexivity.
Qed.

Lemma listing_lines_plain (stdout : jsstring) :
  plainListing stdout ->
  Forall noLineTerminator
    (map trim
       (filter (fun curLine => negb (test headLineRegex curLine))
          (map (replace currentMarkerRegex [])
             (map trim (split 10 stdout))))).
Proof.
  intros H. unfold noLineTerminator.
  apply Forall_map_preserved; [intros a; apply Forall_trim |].
  apply Forall_filter_keeps.
  apply Forall_map_preserved; [intros a; apply Forall_replace_empty |].
  apply Forall_map_preserved; [intros a; apply Forall_trim |].
  apply split_pieces. exact H.
Qed.

(** ** What the filter recognises, and what it misses *)

(** The line of a remote whose name, like the name of its default
    branch, is made of letters, digits, underscores and slashes, is
    recognised by the pattern of the filter. *)
Lemma headLineRegex_recognises_plain_names (remote branch : jsstring) :
  plainName remote -> plainName branch ->
  test headLineRegex (headLine remote branch) = true.
Proof.
  intros (Hr0 & Hr) (Hb0 & Hb). unfold test, exec.
  assert (Hm : exists z,
             matcher headLineRegex
               (mkState 0 (headLine remote branch)
                        (repeat None (nGroups headLineRegex)))
               (fun y => Some y) = Some z).
  { unfold headLineRegex. cbn [matcher nGroups repeat].
    unfold Seq at 1. unfold AssertStart. cbn [endIndex].
    unfold Seq at 1.
    unfold headLine.
    change (js "remotes/" ++ remote ++ js "/HEAD -> " ++ remote ++ js "/" ++ branch)
      with ((114%N :: (js "emotes/" ++ remote))
              ++ (js "/HEAD" ++ (32%N :: []) ++ (js "->"
                    ++ (32%N :: []) ++ (remote ++ js "/" ++ branch)))).
    apply Plus_class_complete.
    { reflexivity. }
    { apply Forall_app. split; [repeat constructor | exact Hr]. }
    unfold Seq at 1. rewrite Lit_consumes.
    unfold Seq at 1.
    apply Plus_class_complete with (a := []);
      [reflexivity | constructor |].
    unfold Seq at 1. rewrite Lit_consumes.
    unfold Seq at 1.
    apply Plus_class_complete with (a := []);
      [reflexivity | constructor |].
    unfold Seq at 1.
    destruct remote as [| r0 remote']; [contradiction |].
    inversion Hr as [| ? ? Hr0' Hr']; subst.
    rewrite <- (app_nil_r ((r0 :: remote') ++ js "/" ++ branch)).
    change (((r0 :: remote') ++ js "/" ++ branch) ++ [])
      with ((r0 :: (remote' ++ js "/" ++ branch)) ++ []).
    apply Plus_class_complete.
    { exact Hr0'. }
    { apply Forall_app. split; [exact Hr' |].
      apply Forall_app. split; [repeat constructor | exact Hb]. }
    unfold AssertEnd. cbn [remaining]. eauto. }
  destruct Hm as (z & Hz).
  destruct (headLine remote branch); cbn [exec_from]; rewrite Hz; reflexivity.
Qed.

(** C5, at a remote called [my-remote]: the line
    [remotes/my-remote/HEAD -> my-remote/master] is not discarded; it
    comes out as a branch of the remote [my-remote] with the name
    [HEAD -> my-remote/master]. *)
Theorem enumerate_keeps_head_line_of_dashed_remote :
  enumerateGitRepoBranches
    (fun _ _ _ => Resolved Examples.listing_dashed_remote)
    Examples.publishRepo
  = Resolved
      [ mkGitBranch Examples.publishRepo None (js "master");
        mkGitBranch Examples.publishRepo (Some (js "my-remote"))
                    (js "HEAD -> my-remote/master");
        mkGitBranch Examples.publishRepo (Some (js "my-remote"))
                    (js "master") ].
Proof. vm_compute. reflexivity. Qed.

(** The line of the comment in the source,
    [remotes/origin/HEAD -> origin/master], is discarded. *)
Lemma enumerate_drops_head_line_of_origin :
  enumerateGitRepoBranches
    (fun _ _ _ => Resolved Examples.listing_origin)
    Examples.publishRepo
  = Resolved
      [ mkGitBranch Examples.publishRepo None (js "master");
        mkGitBranch Examples.publishRepo None (js "develop");
        mkGitBranch Examples.publishRepo (Some (js "origin")) (js "master") ].
Proof. vm_compute. reflexivity. Qed.

(** A default branch with a dash or a dot in its name has the same
    effect as a remote with one. *)
Lemma enumerate_keeps_head_line_of_dotted_branch :
  enumerateGitRepoBranches
    (fun _ _ _ => Resolved Examples.listing_dotted_branch)
    Examples.publishRepo
  = Resolved
      [ mkGitBranch Examples.publishRepo None (js "release-1.0");
        mkGitBranch Examples.publishRepo (Some (js "origin"))
                    (js "HEAD -> origin/release-1.0");
        mkGitBranch Examples.publishRepo (Some (js "origin"))
                    (js "release-1.0") ].
Proof. vm_compute. reflexivity. Qed.

(** C10 as stated fails: a line with a carriage return inside passes
    the filter, [strParserRegex] does not match it, and the parse
    error is thrown. *)
Lemma strParserRegex_rejects_line_with_cr :
  test headLineRegex Examples.line_with_cr = false
  /\ exec strParserRegex Examples.line_with_cr = None
  /\ parseBranchListing Examples.publishRepo Examples.line_with_cr
     = Rejected (JsError (js "Error: Branch " ++ [34%N]
                            ++ Examples.line_with_cr ++ [34%N]
                            ++ js " could not be parsed by enumerateGitRepoBranches().")).
Proof. vm_compute. repeat split; reflexivity. Qed.

(** C10, amended: [strParserRegex] matches every text without a line
    terminator (LF, CR, LS, PS), and no other text; and for every
    listing in which line feeds are the only line terminators, no line
    reaches the parse error: the listing is parsed into branches. *)
Theorem strParserRegex_total_on_plain_lines :
  (forall s : jsstring, exec strParserRegex s <> None <-> noLineTerminator s)
  /\ (forall (repo : GitRepo) (stdout : jsstring),
         plainListing stdout ->
         exists branches, parseBranchListing repo stdout = Resolved branches).
Proof.
  split.
  - intros s. split; [| apply strParserRegex_matches].
    intros H. destruct (line_terminator_or_not s) as [Hn | Hh]; [exact Hn |].
    contradiction H. now apply strParserRegex_fails.
  - intros repo stdout H. unfold parseBranchListing.
    apply map_throwing_resolves.
    eapply Forall_impl; [| apply listing_lines_plain; exact H].
    intros a Ha. apply parseLongName_resolves. exact Ha.
Qed.

End ListingFacts.

(* ================================================================== *)
(** * Reasoning about asynchronous computations *)
(* ================================================================== *)

Section AsyncFacts.

Import Async.

Variable P : Event -> Prop.

Lemma safe_ret {A} (Q : A -> Prop) (a : A) : Q a -> safe P Q (ret a).
Proof.
  intros Ha s Hs. simpl. repeat split; auto.
  intros a' H. now injection H as <-.
Qed.

Lemma safe_throw {A} (Q : A -> Prop) (e : Error) : safe P Q (throw e).
Proof. intros s Hs. simpl. repeat split; auto. discriminate. Qed.

Lemma safe_lift {A} (Q : A -> Prop) (o : Outcome A) :
  (forall a, o = Resolved a -> Q a) -> safe P Q (lift o).
Proof. intros Ho s Hs. simpl. repeat split; auto. Qed.

Lemma safe_log (Q : unit -> Prop) (msg : jsstring) :
  P (Log msg) -> Q tt -> safe P Q (log msg).
Proof.
  intros Hl Hq s Hs. simpl. repeat split; auto.
  intros []. auto.
Qed.

Lemma safe_invoke {A} (Q : A -> Prop) (op : Op) (out : Outcome A) :
  P (Invoked op) -> (forall a, out = Resolved a -> Q a) ->
  safe P Q (invoke op out).
Proof. intros Hi Ho s Hs. simpl. repeat split; auto. Qed.

Lemma safe_fire {A} (lat : Op -> nat) (op : Op) (out : Outcome A) :
  P (Started op) -> P (Settled op (is_resolved out)) ->
  safe P (fun p => outcome p = out) (fire lat op out).
Proof.
  intros Hst Hse s Hs. simpl. repeat split.
  - auto.
  - unfold pending_ok. simpl. apply Forall_app. split; [exact Hs |].
    constructor; [exact Hse | constructor].
  - intros a H. injection H as <-. reflexivity.
Qed.

Lemma Forall_insert_by_due (R : Pending -> Prop) q l :
  R q -> Forall R l -> Forall R (insert_by_due q l).
Proof.
  intros Hq. induction 1 as [| q' l Hq' Hl IH]; simpl.
  - repeat constructor; assumption.
  - destruct (p_due q <=? p_due q'); repeat constructor; assumption.
Qed.

Lemma Forall_sort_by_due (R : Pending -> Prop) l :
  Forall R l -> Forall R (sort_by_due l).
Proof.
  induction 1; simpl; [constructor |].
  apply Forall_insert_by_due; assumption.
Qed.

Lemma safe_settle {A} (p : Promise A) :
  safe P (fun o => o = outcome p) (settle p).
Proof.
  intros s Hs. unfold settle. simpl. repeat split.
  - apply Forall_map. apply Forall_sort_by_due, Forall_filter_keeps, Hs.
  - unfold pending_ok. simpl. apply Forall_filter_keeps, Hs.
  - intros a H. now injection H as <-.
Qed.

Lemma safe_bind {A B} (Q : A -> Prop) (R : B -> Prop) (m : M A) (k : A -> M B) :
  safe P Q m -> (forall a, Q a -> safe P R (k a)) -> safe P R (bind m k).
Proof.
  intros Hm Hk s Hs. destruct (Hm s Hs) as (He & Hp & Hq).
  unfold bind. destruct (result (m s)) as [a | e] eqn:E; simpl.
  - destruct (Hk a (Hq a eq_refl) (sched (m s)) Hp) as (He' & Hp' & Hq').
    repeat split; auto. apply Forall_app. split; assumption.
  - repeat split; auto. discriminate.
Qed.

Lemma safe_weaken {A} (Q Q' : A -> Prop) (m : M A) :
  safe P Q m -> (forall a, Q a -> Q' a) -> safe P Q' m.
Proof.
  intros Hm Hq s Hs. destruct (Hm s Hs) as (He & Hp & Hr).
  repeat split; auto.
Qed.

Lemma safe_await {A} (p : Promise A) :
  safe P (fun a => outcome p = Resolved a) (await p).
Proof.
  unfold await. eapply safe_bind; [apply safe_settle |].
  intros o ->. apply safe_lift. auto.
Qed.

Lemma safe_call {A} (lat : Op -> nat) (op : Op) (out : Outcome A) :
  P (Started op) -> P (Settled op (is_resolved out)) ->
  safe P (fun a => out = Resolved a) (call lat op out).
Proof.
  intros Hst Hse. unfold call.
  eapply safe_bind; [apply safe_fire; assumption |].
  intros p <-. apply safe_await.
Qed.

Lemma safe_mapM {A B} (f : A -> M B) (l : list A) :
  (forall a, In a l -> safe P (fun _ => True) (f a)) ->
  safe P (fun _ => True) (mapM f l).
Proof.
  induction l as [| a l IH]; intros Hf; simpl.
  - apply safe_ret. exact I.
  - eapply safe_bind; [apply Hf; now left |].
    intros b _. eapply safe_bind; [apply IH; intros; apply Hf; now right |].
    intros bs _. apply safe_ret. exact I.
Qed.

Lemma safe_any {A} (Q : A -> Prop) (m : M A) :
  safe P Q m -> safe P (fun _ => True) m.
Proof. intros H. eapply safe_weaken; [exact H | intros; exact I]. Qed.

(** A computation whose value is impossible does not return one. *)
Lemma safe_never_returns {A} (m : M A) (s : Sched) :
  safe P (fun _ => False) m -> pending_ok P s ->
  exists e, result (m s) = Rejected e.
Proof.
  intros Hm Hs. destruct (Hm s Hs) as (_ & _ & Hr).
  destruct (result (m s)) as [a | e].
  - destruct (Hr a eq_refl).
  - eexists; reflexivity.
Qed.

End AsyncFacts.

(* ================================================================== *)
(** * Properties of the publish workflow *)
(* ================================================================== *)

Section WorkflowFacts.

Import Async PublishToGit.

Ltac safe_atom :=
  eapply safe_any;
  first
    [ apply (@safe_ret _ _ (fun _ => True)); exact I
    | apply (@safe_throw _ _ (fun _ => True))
    | apply (@safe_log _ (fun _ => True)); [try exact I; try reflexivity | exact I]
    | apply (@safe_invoke _ _ (fun _ => True)); [try reflexivity | intros; exact I]
    | apply safe_call; first [reflexivity | exact I]
    | apply safe_fire; first [reflexivity | exact I]
    | apply safe_await
    | apply safe_settle
    | apply (@safe_lift _ _ (fun _ => True)); intros ? ?; exact I ].

Ltac safe_seq :=
  repeat (eapply (safe_bind (Q := fun _ => True)); [ solve [safe_atom] | intros ? _ ]).

Lemma checkInitialConditions_refuses_dirty (w : World) (cfg : IInstanceConfig) :
  dirty w (devRepo cfg) ->
  safe before_clone (fun _ => False) (checkInitialConditions w cfg).
Proof.
  intros Hd. unfold checkInitialConditions.
  eapply safe_bind; [apply safe_call; reflexivity |].
  intros modified Hm. destruct modified as [| f fs]; [| apply safe_throw].
  eapply safe_bind; [apply safe_call; reflexivity |].
  intros untracked Hu. destruct untracked as [| f fs]; [| apply safe_throw].
  exfalso. destruct Hd as [(f & fs & H) | (f & fs & H)]; congruence.
Qed.

Lemma getInstanceConfig_safe (P : Event -> Prop) (w : World) (a : Arguments) :
  (forall op, inspection op = true -> P (Started op)) ->
  (forall op ok, inspection op = true -> P (Settled op ok)) ->
  safe P (fun cfg =>
            out_GitRepo_fromDirectory w (js ".") = Resolved (devRepo cfg)
            /\ out_NodePackage_fromDirectory w (js ".") = Resolved (pkg cfg)
            /\ dryRun cfg = arg_dry_run a
            /\ cfg_tags cfg
               = explicit_tags a
                   ++ (if arg_tag_version a
                       then [VString (js "v" ++ version_text (pkg cfg))] else []))
       (getInstanceConfig w a).
Proof.
  intros Hst Hse. unfold getInstanceConfig.
  eapply safe_bind; [apply safe_call; [apply Hst | apply Hse]; reflexivity |].
  intros repo Hrepo.
  eapply safe_bind; [apply safe_call; [apply Hst | apply Hse]; reflexivity |].
  intros p Hp.
  destruct (arg_tag_version a).
  - destruct (explicit_tags a ++ [VString (js "v" ++ version_text p)]) eqn:E.
    + apply safe_throw.
    + apply safe_ret. simpl. rewrite <- E. auto.
  - destruct (explicit_tags a) eqn:E.
    + apply safe_throw.
    + apply safe_ret. simpl. rewrite app_nil_r. auto.
Qed.

Lemma main_refuses_dirty (w : World) (repo : GitRepo) :
  out_GitRepo_fromDirectory w (js ".") = Resolved repo ->
  dirty w repo ->
  safe before_clone (fun _ => False) (main w).
Proof.
  intros Hrepo Hd. unfold main.
  eapply safe_bind; [apply safe_invoke; [reflexivity | intros; exact I] |].
  intros _ _.
  eapply safe_bind.
  { apply getInstanceConfig_safe; intros; assumption. }
  intros cfg (Hcfg & _).
  eapply safe_bind.
  { apply checkInitialConditions_refuses_dirty.
    rewrite Hrepo in Hcfg. injection Hcfg as <-. exact Hd. }
  intros _ [].
Qed.

Lemma checkInitialConditions_dirty_error (w : World) (cfg : IInstanceConfig) (s : Sched) :
  dirty w (devRepo cfg) ->
  result (checkInitialConditions w cfg s)
    = Rejected (JsError (js "This repository contains modified files."))
  \/ result (checkInitialConditions w cfg s)
     = Rejected (JsError (js "This repository contains untracked files."))
  \/ exists e, out_modifiedFiles w (devRepo cfg) = Rejected e
               /\ result (checkInitialConditions w cfg s) = Rejected e.
Proof.
  intros Hd. unfold checkInitialConditions, call, await, bind, fire, settle, lift.
  cbn [result sched events outcome].
  destruct (out_modifiedFiles w (devRepo cfg)) as [[| f fs] | e] eqn:Em;
    cbn [result sched events outcome].
  - destruct (out_untrackedFiles w (devRepo cfg)) as [[| f fs] | e] eqn:Eu;
      cbn [result sched events outcome].
    + exfalso. destruct Hd as [(f & fs & H) | (f & fs & H)]; congruence.
    + right; left. reflexivity.
    + exfalso. destruct Hd as [(f & fs & H) | (f & fs & H)]; congruence.
  - left. reflexivity.
  - right; right. exists e. split; reflexivity.
Qed.

(** C3: when the source repository has a modified or an untracked
    file, [checkInitialConditions] fails, with the error that names
    the condition (or with the error of the query for modified
    files, when that query itself failed); the run ends in failure,
    and nothing but the set-up and the inspection of the source
    repository has happened: no clone-related operation was started
    and nothing was changed. *)
Theorem dirty_repository_is_refused :
  forall (w : World) (repo : GitRepo),
    out_GitRepo_fromDirectory w (js ".") = Resolved repo ->
    dirty w repo ->
    (forall cfg s, devRepo cfg = repo ->
       result (checkInitialConditions w cfg s)
         = Rejected (JsError (js "This repository contains modified files."))
       \/ result (checkInitialConditions w cfg s)
          = Rejected (JsError (js "This repository contains untracked files."))
       \/ exists e, out_modifiedFiles w repo = Rejected e
                    /\ result (checkInitialConditions w cfg s) = Rejected e)
    /\ (exists e, snd (run w) = Rejected e)
    /\ Forall before_clone (fst (run w)).
Proof.
  intros w repo Hrepo Hd. split; [| split].
  - intros cfg s <-. apply checkInitialConditions_dirty_error. exact Hd.
  - unfold run. simpl.
    eapply safe_never_returns;
      [apply (main_refuses_dirty Hrepo Hd) | constructor].
  - unfold run. simpl.
    apply (main_refuses_dirty Hrepo Hd). constructor.
Qed.

Lemma dirty_repository_is_refused_witness :
  let w := Examples.dirty_world in
  out_GitRepo_fromDirectory w (js ".") = Resolved Examples.devRepo
  /\ dirty w Examples.devRepo
  /\ (forall cfg s, devRepo cfg = Examples.devRepo ->
         result (checkInitialConditions w cfg s)
           = Rejected (JsError (js "This repository contains modified files."))
         \/ result (checkInitialConditions w cfg s)
            = Rejected (JsError (js "This repository contains untracked files."))
         \/ exists e, out_modifiedFiles w Examples.devRepo = Rejected e
                      /\ result (checkInitialConditions w cfg s) = Rejected e)
  /\ (exists e, snd (run w) = Rejected e)
  /\ Forall before_clone (fst (run w)).
Proof.
  intros w.
  assert (H1 : out_GitRepo_fromDirectory w (js ".") = Resolved Examples.devRepo)
    by reflexivity.
  assert (H2 : dirty w Examples.devRepo)
    by (left; exists (js "index.ts"), []; reflexivity).
  split; [exact H1 |]. split; [exact H2 |].
  exact (@dirty_repository_is_refused w Examples.devRepo H1 H2).
Defined.

(** ** Dry run *)

Lemma inspection_not_push (op : Op) : inspection op = true -> is_push op = false.
Proof. destruct op; simpl; congruence. Qed.

Lemma checkInitialConditions_no_push (w : World) (cfg : IInstanceConfig) :
  safe not_a_push (fun _ => True) (checkInitialConditions w cfg).
Proof.
  unfold checkInitialConditions.
  eapply safe_bind; [apply safe_call; reflexivity |].
  intros modified _. destruct modified; [| apply safe_throw].
  eapply safe_bind; [apply safe_call; reflexivity |].
  intros untracked _. destruct untracked; [| apply safe_throw].
  destruct (no_version (pkg cfg)); [apply safe_throw |].
  eapply safe_bind; [apply safe_call; reflexivity |].
  intros existingTags _.
  destruct (intersection (map VString existingTags) (cfg_tags cfg));
    [apply safe_ret; exact I | apply safe_throw].
Qed.

Lemma checkoutTempBranch_no_push (w : World) (repo : GitRepo) (baseName : jsstring) :
  safe not_a_push (fun _ => True) (checkoutTempBranch w repo baseName).
Proof.
  unfold checkoutTempBranch, GitBranch_create.
  eapply safe_bind.
  { safe_seq. safe_atom. }
  intros tmpBranch _. safe_seq. safe_atom.
Qed.

Lemma deleteTrackedFiles_no_push (w : World) (repo : GitRepo) :
  safe not_a_push (fun _ => True) (deleteTrackedFiles w repo).
Proof.
  unfold deleteTrackedFiles.
  eapply safe_bind; [safe_atom |]. intros fs _.
  eapply safe_bind; [apply safe_mapM; intros f _; safe_atom |].
  intros ps _. safe_seq. safe_atom.
Qed.


(** ** What a successful computation has gone through *)

Lemma bind_resolved {A B} (m : M A) (k : A -> M B) (s : Sched) (b : B) :
  result (bind m k s) = Resolved b ->
  exists a, result (m s) = Resolved a
            /\ result (k a (sched (m s))) = Resolved b
            /\ events (bind m k s) = events (m s) ++ events (k a (sched (m s))).
Proof.
  unfold bind. destruct (result (m s)) as [a | e]; simpl; intros H.
  - exists a. auto.
  - discriminate.
Qed.


Lemma first_rejection_none {A} (ps : list (Promise A)) :
  first_rejection ps = None ->
  forall p, In p ps -> is_resolved (outcome p) = true.
Proof.
  induction ps as [| q ps IH]; simpl; intros H p Hp; [contradiction |].
  destruct (outcome q) as [a | e] eqn:E.
  - destruct Hp as [<- | Hp]; [rewrite E; reflexivity | auto].
  - destruct (first_rejection ps) as [[d' e'] |]; [| discriminate].
    destruct (d' <? due q); discriminate.
Qed.

Lemma Promise_all_resolved {A} (ps : list (Promise A)) (vs : list A) :
  outcome (Promise_all ps) = Resolved vs ->
  forall p, In p ps -> is_resolved (outcome p) = true.
Proof.
  unfold Promise_all. intros H. apply first_rejection_none.
  destruct (first_rejection ps) as [[d e] |]; [discriminate | reflexivity].
Qed.

Lemma pending_ok_True (s : Sched) : pending_ok (fun _ => True) s.
Proof. unfold pending_ok. apply Forall_forall. auto. Qed.

Lemma reach_bind_k {A B} (F : list Event -> Prop) (Q : A -> Prop)
      (m : M A) (k : A -> M B) :
  extensible F ->
  safe (fun _ => True) Q m ->
  (forall a, Q a -> reach F (k a)) ->
  reach F (bind m k).
Proof.
  intros HF Hm Hk s b H.
  apply bind_resolved in H as (a & Ha & Hb & ->).
  destruct (Hm s (pending_ok_True s)) as (_ & _ & Hq).
  apply HF. eapply Hk; eauto.
Qed.

Lemma bind_run {A B} (m : M A) (k : A -> M B) (s : Sched) (a : A) :
  result (m s) = Resolved a ->
  bind m k s
  = mkRun (events (m s) ++ events (k a (sched (m s))))
          (sched (k a (sched (m s))))
          (result (k a (sched (m s)))).
Proof. intros H. unfold bind. rewrite H. reflexivity. Qed.




Lemma safe_trivial {A} (m : M A) : safe (fun _ => True) (fun _ => True) m.
Proof.
  intros s _. repeat split; auto.
  - apply Forall_forall. auto.
  - apply pending_ok_True.
Qed.

Lemma reach_throw {A} (F : list Event -> Prop) (e : Error) : reach F (@throw A e).
Proof. intros s a H. discriminate. Qed.

(** ** Tag collisions *)

Lemma str_eqb_eq (a b : jsstring) : str_eqb a b = true <-> a = b.
Proof.
  revert b. induction a as [| x a IH]; intros [| y b]; simpl;
    try (split; [discriminate | discriminate]); try tauto.
  rewrite andb_true_iff, N.eqb_eq, IH.
  split; [intros [-> ->]; reflexivity | intros H; injection H; auto].
Qed.

Lemma SameValueZero_eq (a b : Value) : SameValueZero a b = true <-> a = b.
Proof.
  destruct a as [x | x | x], b as [y | y | y]; simpl;
    try (split; [discriminate | discriminate]).
  - rewrite str_eqb_eq. split; [now intros -> | intros H; now injection H].
  - rewrite str_eqb_eq. split; [now intros -> | intros H; now injection H].
  - rewrite Bool.eqb_true_iff. split; [now intros -> | intros H; now injection H].
Qed.

Lemma includes_value_In (l : list Value) (x : Value) :
  includes_value l x = true <-> In x l.
Proof.
  unfold includes_value. rewrite existsb_exists. split.
  - intros (y & Hy & E). apply SameValueZero_eq in E. now subst.
  - intros H. exists x. split; [exact H | now apply SameValueZero_eq].
Qed.

Lemma includes_value_false (l : list Value) (x : Value) :
  includes_value l x = false <-> ~ In x l.
Proof.
  rewrite <- includes_value_In. destruct (includes_value l x); split; congruence.
Qed.

Lemma intersection_from_In (a b seen : list Value) (t : Value) :
  In t (intersection_from seen a b) <-> In t a /\ In t b /\ ~ In t seen.
Proof.
  revert seen. induction a as [| x a IH]; intros seen; simpl; [tauto |].
  destruct (includes_value b x) eqn:Eb; simpl.
  - destruct (includes_value seen x) eqn:Es; simpl.
    + apply includes_value_In in Es. rewrite IH. split.
      * tauto.
      * intros ([<- | H] & Hb & Hs); [contradiction | tauto].
    + apply includes_value_In in Eb. apply includes_value_false in Es.
      rewrite IH. simpl. split.
      * intros [<- | (Ha & Hb & Hs)]; [tauto |]. tauto.
      * intros ([-> | Ha] & Hb & Hs); [tauto |].
        destruct (SameValueZero x t) eqn:E.
        -- apply SameValueZero_eq in E. tauto.
        -- right. repeat split; try tauto.
           intros [-> | H]; [| tauto].
           assert (E' : SameValueZero t t = true) by now apply SameValueZero_eq.
           congruence.
  - apply includes_value_false in Eb. rewrite IH. split.
    + tauto.
    + intros ([<- | H] & Hb & Hs); [contradiction | tauto].
Qed.

Lemma intersection_from_NoDup (a b seen : list Value) :
  NoDup (intersection_from seen a b).
Proof.
  revert seen. induction a as [| x a IH]; intros seen; simpl; [constructor |].
  destruct (includes_value b x && negb (includes_value seen x)); [| apply IH].
  constructor; [| apply IH].
  rewrite intersection_from_In. simpl. tauto.
Qed.

Lemma intersection_spec (a b : list Value) :
  (forall t, In t (intersection a b) <-> In t a /\ In t b)
  /\ NoDup (intersection a b).
Proof.
  split; [| apply intersection_from_NoDup].
  intros t. unfold intersection. rewrite intersection_from_In. simpl. tauto.
Qed.

Lemma checkInitialConditions_refuses_collision (w : World) (cfg : IInstanceConfig)
      (existing : list jsstring) :
  out_tags w (devRepo cfg) = Resolved existing ->
  intersection (map VString existing) (cfg_tags cfg) <> [] ->
  safe (fun _ => True) (fun _ => False) (checkInitialConditions w cfg).
Proof.
  intros Htags Hne. unfold checkInitialConditions.
  eapply safe_bind; [apply safe_call; exact I |].
  intros modified _. destruct modified; [| apply safe_throw].
  eapply safe_bind; [apply safe_call; exact I |].
  intros untracked _. destruct untracked; [| apply safe_throw].
  destruct (no_version (pkg cfg)); [apply safe_throw |].
  eapply safe_bind; [apply safe_call; exact I |].
  intros existingTags H. rewrite Htags in H. injection H as <-.
  destruct (intersection (map VString existing) (cfg_tags cfg));
    [contradiction | apply safe_throw].
Qed.

Lemma checkInitialConditions_collision_error (w : World) (cfg : IInstanceConfig)
      (s : Sched) (existing : list jsstring) :
  out_modifiedFiles w (devRepo cfg) = Resolved [] ->
  out_untrackedFiles w (devRepo cfg) = Resolved [] ->
  no_version (pkg cfg) = false ->
  out_tags w (devRepo cfg) = Resolved existing ->
  intersection (map VString existing) (cfg_tags cfg) <> [] ->
  result (checkInitialConditions w cfg s)
  = Rejected (JsError (js "The following tags already exist: "
                         ++ join (js ", ")
                              (map ToString
                                 (intersection (map VString existing)
                                               (cfg_tags cfg))))).
Proof.
  intros Hm Hu Hv Ht Hne.
  unfold checkInitialConditions, call, await, bind, fire, settle, lift.
  cbn [result sched events outcome]. rewrite Hm.
  cbn [result sched events outcome]. rewrite Hu.
  cbn [result sched events outcome]. rewrite Hv.
  cbn [result sched events outcome]. rewrite Ht.
  cbn [result sched events outcome].
  destruct (intersection (map VString existing) (cfg_tags cfg));
    [contradiction |].
  reflexivity.
Qed.

(** A requested number or boolean is never found among the existing
    tags, which are strings. *)
Lemma intersection_of_other_types (existing : list jsstring) (tags : list Value) :
  (forall t, In t tags -> forall s, t <> VString s) ->
  intersection (map VString existing) tags = [].
Proof.
  intros H.
  destruct (intersection (map VString existing) tags) as [| t l] eqn:E;
    [reflexivity |].
  destruct (proj1 (proj1 (intersection_spec (map VString existing) tags) t))
    as (Hex & Ht); [rewrite E; now left |].
  apply in_map_iff in Hex as (s & <- & _).
  destruct (H _ Ht s eq_refl).
Qed.

(** On [Examples.numeric_tag_world] the command line asks for the
    tag 2, which yargs hands over as a number; the source repository
    has the tag [2] already. The intersection with the existing tags
    is empty, the validation passes, and the run goes on to create and
    push the tag. *)
Lemma existing_numeric_tag_passes_validation :
  let w := Examples.numeric_tag_world in
  let cfg := Examples.numeric_tag_config in
  arg_tag (argv w) = TagOne (VNumber (js "2"))
  /\ result (getInstanceConfig w (argv w) start) = Resolved cfg
  /\ out_tags w (devRepo cfg) = Resolved [js "v1.0.0"; js "2"]
  /\ map ToString (cfg_tags cfg) = [js "2"]
  /\ intersection (map VString [js "v1.0.0"; js "2"]) (cfg_tags cfg) = []
  /\ result (checkInitialConditions w cfg start) = Resolved tt
  /\ snd (run w) = Resolved tt
  /\ created_tags (fst (run w)) = [VNumber (js "2")]
  /\ pushed_tags (fst (run w)) = [VNumber (js "2")].
Proof. vm_compute. repeat split; reflexivity. Qed.

(** The same holds of every requested tag list without a string, in
    every clean repository of a package with a version. *)
Lemma tags_of_other_types_pass_validation (w : World) (cfg : IInstanceConfig)
      (s : Sched) (existing : list jsstring) :
  out_modifiedFiles w (devRepo cfg) = Resolved [] ->
  out_untrackedFiles w (devRepo cfg) = Resolved [] ->
  no_version (pkg cfg) = false ->
  out_tags w (devRepo cfg) = Resolved existing ->
  (forall t, In t (cfg_tags cfg) -> forall x, t <> VString x) ->
  result (checkInitialConditions w cfg s) = Resolved tt.
Proof.
  intros Hm Hu Hv Ht Hne.
  unfold checkInitialConditions, call, await, bind, fire, settle, lift.
  cbn [result sched events outcome]. rewrite Hm.
  cbn [result sched events outcome]. rewrite Hu.
  cbn [result sched events outcome]. rewrite Hv.
  cbn [result sched events outcome]. rewrite Ht.
  cbn [result sched events outcome].
  rewrite (@intersection_of_other_types existing _ Hne). reflexivity.
Qed.

(** C4 as stated fails: with a modified file in the working tree and
    the requested tag [latest] already present, the validation fails
    with the message about modified files, which names no tag. *)
Lemma collision_hidden_by_modified_files :
  let w := Examples.dirty_world in
  let cfg := Examples.instanceConfig in
  out_tags w (devRepo cfg) = Resolved [js "v1.0.0"; js "latest"]
  /\ In (js "latest") [js "v1.0.0"; js "latest"]
  /\ In (VString (js "latest")) (cfg_tags cfg)
  /\ result (checkInitialConditions w cfg start)
     = Rejected (JsError (js "This repository contains modified files."))
  /\ includes (js "This repository contains modified files.") (js "latest") = false.
Proof. vm_compute. repeat split; auto. Qed.

(** In a clean working tree the message lists the tags, in the order
    of the existing tags, each once. *)
Lemma collision_names_the_tags :
  result (checkInitialConditions Examples.collision_world
                                 Examples.instanceConfig start)
  = Rejected (JsError (js "The following tags already exist: stable, latest")).
Proof. vm_compute. reflexivity. Qed.

(** What the intersection with the existing tags holds, as texts. *)
Lemma offending_tags (existing : list jsstring) (tags : list Value) :
  let offending := map ToString (intersection (map VString existing) tags) in
  (forall t, In t offending <-> In t existing /\ In (VString t) tags)
  /\ NoDup offending.
Proof.
  intros offending. unfold offending.
  destruct (intersection_spec (map VString existing) tags) as (Hin & Hnd).
  assert (Hstr : forall x, In x (intersection (map VString existing) tags) ->
                           x = VString (ToString x)).
  { intros x Hx. apply Hin in Hx as (Hx & _).
    apply in_map_iff in Hx as (t & <- & _). reflexivity. }
  split.
  - intros t. rewrite in_map_iff. split.
    + intros (x & <- & Hx). assert (E := Hstr x Hx).
      apply Hin in Hx as (Hex & Ht). rewrite E in Hex, Ht. split; [| exact Ht].
      apply in_map_iff in Hex as (t' & Et & Hex). injection Et as ->. exact Hex.
    + intros (Hex & Ht). exists (VString t). split; [reflexivity |].
      apply Hin. split; [apply in_map, Hex | exact Ht].
  - clear Hin. revert Hstr Hnd.
    generalize (intersection (map VString existing) tags) as l.
    induction l as [| x l IH]; intros Hstr Hnd; simpl; [constructor |].
    inversion Hnd as [| ? ? Hx Hl]; subst. constructor.
    + intros H. apply in_map_iff in H as (y & Ey & Hy). apply Hx.
      rewrite (Hstr x (or_introl eq_refl)), <- Ey, <- (Hstr y (or_intror Hy)).
      exact Hy.
    + apply IH; [intros y Hy; apply Hstr; now right | exact Hl].
Qed.

(** C4, amended: when a tag that is requested as a string is among the
    existing tags of the source repository, [checkInitialConditions]
    fails; when the checks before it pass (no modified file, no
    untracked file, a version), the error message names exactly the
    offending tags, that is the existing tags that are requested as
    strings. *)
Theorem tag_collision_is_refused :
  forall (w : World) (cfg : IInstanceConfig) (s : Sched) (existing : list jsstring),
    out_tags w (devRepo cfg) = Resolved existing ->
    (exists t, In t existing /\ In (VString t) (cfg_tags cfg)) ->
    (exists e, result (checkInitialConditions w cfg s) = Rejected e)
    /\ (out_modifiedFiles w (devRepo cfg) = Resolved [] ->
        out_untrackedFiles w (devRepo cfg) = Resolved [] ->
        no_version (pkg cfg) = false ->
        exists offending,
          result (checkInitialConditions w cfg s)
          = Rejected (JsError (js "The following tags already exist: "
                                 ++ join (js ", ") offending))
          /\ (forall t, In t offending
                        <-> In t existing /\ In (VString t) (cfg_tags cfg))
          /\ NoDup offending).
Proof.
  intros w cfg s existing Ht (t & Hex & Hreq).
  assert (Hne : intersection (map VString existing) (cfg_tags cfg) <> []).
  { intros E.
    assert (H : In (VString t) (intersection (map VString existing) (cfg_tags cfg))).
    { apply intersection_spec. split; [apply in_map, Hex | exact Hreq]. }
    rewrite E in H. destruct H. }
  split.
  - eapply safe_never_returns;
      [apply (checkInitialConditions_refuses_collision w cfg Ht Hne)
      | apply pending_ok_True].
  - intros Hm Hu Hv.
    exists (map ToString (intersection (map VString existing) (cfg_tags cfg))).
    split; [now apply checkInitialConditions_collision_error |].
    apply offending_tags.
Qed.

Lemma tag_collision_is_refused_witness :
  let w := Examples.collision_world in
  let cfg := Examples.instanceConfig in
  let existing := [js "stable"; js "v1.0.0"; js "latest"; js "stable"] in
  out_tags w (devRepo cfg) = Resolved existing
  /\ (exists t, In t existing /\ In (VString t) (cfg_tags cfg))
  /\ (exists e, result (checkInitialConditions w cfg start) = Rejected e)
  /\ (out_modifiedFiles w (devRepo cfg) = Resolved [] ->
      out_untrackedFiles w (devRepo cfg) = Resolved [] ->
      no_version (pkg cfg) = false ->
      exists offending,
        result (checkInitialConditions w cfg start)
        = Rejected (JsError (js "The following tags already exist: "
                               ++ join (js ", ") offending))
        /\ (forall t, In t offending
                      <-> In t existing /\ In (VString t) (cfg_tags cfg))
        /\ NoDup offending).
Proof.
  intros w cfg existing.
  assert (H1 : out_tags w (devRepo cfg) = Resolved existing) by reflexivity.
  assert (H2 : exists t, In t existing /\ In (VString t) (cfg_tags cfg)).
  { exists (js "latest"). split; [right; right; left; reflexivity |].
    left; reflexivity. }
  split; [exact H1 |]. split; [exact H2 |].
  exact (@tag_collision_is_refused w cfg start existing H1 H2).
Defined.

(** ** The temporary branch *)

Lemma bind_run_rejected {A B} (m : M A) (k : A -> M B) (s : Sched) (e : Error) :
  result (m s) = Rejected e ->
  bind m k s = mkRun (events (m s)) (sched (m s)) (Rejected e).
Proof. intros H. unfold bind. rewrite H. reflexivity. Qed.

Lemma settle_run {A} (p : Promise A) (s : Sched) :
  Forall is_settlement (events (settle p s))
  /\ result (settle p s) = Resolved (outcome p).
Proof.
  unfold settle. simpl. split; [| reflexivity].
  apply Forall_map. apply Forall_forall. intros q _. exact I.
Qed.

Lemma call_run {A} (lat : Op -> nat) (op : Op) (out : Outcome A) (s : Sched) :
  exists settled,
    events (call lat op out s) = Started op :: settled
    /\ Forall is_settlement settled
    /\ result (call lat op out s) = out.
Proof.
  unfold call, await.
  set (p := mkPromise (clock s + S (lat op)) out).
  assert (Hf : result (fire lat op out s) = Resolved p) by reflexivity.
  rewrite (bind_run _ _ _ Hf).
  set (s1 := sched (fire lat op out s)).
  destruct (settle_run p s1) as (Hev & Hres).
  rewrite (bind_run _ _ _ Hres). cbn [events result lift].
  exists (events (settle p s1) ++ []). repeat split.
  rewrite app_nil_r. exact Hev.
Qed.

Lemma GitBranch_create_run (w : World) (repo : GitRepo) (branchName : jsstring)
      (remoteName : option jsstring) (s : Sched) :
  exists settled,
    events (GitBranch_create w repo branchName remoteName s)
    = Started (spawn (js "git")
                     [js "check-ref-format"; js "--allow-onelevel"; branchName]
                     None) :: settled
    /\ Forall is_settlement settled
    /\ result (GitBranch_create w repo branchName remoteName s)
       = GitBranch.create (out_spawn w) repo branchName remoteName.
Proof.
  unfold GitBranch_create.
  set (op := spawn (js "git")
                   [js "check-ref-format"; js "--allow-onelevel"; branchName] None).
  set (out := out_spawn w (js "git")
                   [js "check-ref-format"; js "--allow-onelevel"; branchName] None).
  set (p := mkPromise (clock s + S (latency w op)) out).
  assert (Hf : result (fire (latency w) op out s) = Resolved p) by reflexivity.
  rewrite (bind_run _ _ _ Hf).
  set (s1 := sched (fire (latency w) op out s)).
  destruct (settle_run p s1) as (Hev & Hres).
  rewrite (bind_run _ _ _ Hres). cbn [events result lift].
  exists (events (settle p s1) ++ []). repeat split.
  rewrite app_nil_r. exact Hev.
Qed.

(** What a run of [checkoutTempBranch] does: it launches the check of
    the name; when [GitBranch.create] fails that is all, and its error
    is the result; otherwise [git checkout -b] of the new branch is
    launched next. In between, only settlements happen. *)
Lemma checkoutTempBranch_run (w : World) (repo : GitRepo) (baseName : jsstring)
      (s : Sched) :
  let name := tmpBranchName baseName (username w) (now w) in
  exists settled rest,
    events (checkoutTempBranch w repo baseName s)
    = Started (spawn (js "git")
                     [js "check-ref-format"; js "--allow-onelevel"; name]
                     None) :: settled ++ rest
    /\ Forall is_settlement settled
    /\ match GitBranch.create (out_spawn w) repo name None with
       | Rejected e =>
           rest = []
           /\ result (checkoutTempBranch w repo baseName s) = Rejected e
       | Resolved b =>
           exists settled',
             rest = Started (checkoutBranch repo b true) :: settled'
             /\ Forall is_settlement settled'
             /\ GitBranch.name b = name
             /\ result (checkoutTempBranch w repo baseName s)
                = then_ (out_void w (checkoutBranch repo b true)) (fun _ => b)
       end.
Proof.
  intros name. unfold checkoutTempBranch. fold name.
  destruct (GitBranch_create_run w repo name None s) as (settled & Hev & Hse & Hres).
  exists settled.
  destruct (GitBranch.create (out_spawn w) repo name None) as [b | e] eqn:E.
  - rewrite (bind_run _ _ _ Hres). cbn [events result].
    set (s1 := sched (GitBranch_create w repo name None s)).
    destruct (call_run (latency w) (checkoutBranch repo b true)
                       (out_void w (checkoutBranch repo b true)) s1)
      as (settled' & Hev' & Hse' & Hres').
    destruct (out_void w (checkoutBranch repo b true)) as [[] | e'] eqn:Eo.
    + rewrite (bind_run _ _ _ Hres'). cbn [events result ret].
      exists (Started (checkoutBranch repo b true) :: settled').
      rewrite Hev, Hev', app_nil_r. split; [reflexivity |]. split; [exact Hse |].
      exists settled'. repeat split; auto.
      unfold GitBranch.create in E.
      destruct (Validator.isValid _ name) as [[|] | e0]; try discriminate.
      injection E as <-. reflexivity.
    + rewrite (bind_run_rejected _ _ _ Hres'). cbn [events result].
      exists (Started (checkoutBranch repo b true) :: settled').
      rewrite Hev, Hev'. split; [reflexivity |]. split; [exact Hse |].
      exists settled'. repeat split; auto.
      unfold GitBranch.create in E.
      destruct (Validator.isValid _ name) as [[|] | e0]; try discriminate.
      injection E as <-. reflexivity.
  - rewrite (bind_run_rejected _ _ _ Hres). cbn [events result].
    exists []. rewrite Hev, app_nil_r. repeat split; auto.
Qed.

Lemma js_injective (a b : string) : js a = js b -> a = b.
Proof.
  unfold js. intros H.
  rewrite <- (string_of_list_ascii_of_string a),
          <- (string_of_list_ascii_of_string b).
  f_equal. revert H.
  generalize (list_ascii_of_string a) (list_ascii_of_string b).
  induction l as [| x l IH]; intros [| y l']; simpl; intros H;
    try discriminate; [reflexivity |].
  injection H as Hxy Hl.
  rewrite <- (ascii_N_embedding x), <- (ascii_N_embedding y), Hxy.
  f_equal. apply IH, Hl.
Qed.

Lemma to_uint_nonnil (n : N) : N.to_uint n <> Decimal.Nil.
Proof.
  destruct n as [| p]; simpl; [discriminate |].
  apply DecimalPos.Unsigned.to_uint_nonnil.
Qed.

Lemma Number_toString_injective (m n : N) :
  Number_toString m = Number_toString n -> m = n.
Proof.
  unfold Number_toString. intros H. apply js_injective in H.
  apply Unsigned.to_uint_inj.
  assert (Hm := NilZero.usu (N.to_uint m) (to_uint_nonnil m)).
  assert (Hn := NilZero.usu (N.to_uint n) (to_uint_nonnil n)).
  rewrite H in Hm. rewrite Hm in Hn. now injection Hn.
Qed.

Lemma tmpBranchName_tells_milliseconds (baseName user : jsstring) (d1 d2 : Date) :
  same_second d1 d2 ->
  tmpBranchName baseName user d1 = tmpBranchName baseName user d2 ->
  getMilliseconds d1 = getMilliseconds d2.
Proof.
  intros (Hy & Hmo & Hd & Hh & Hmi & Hs) H.
  unfold tmpBranchName, datestamp in H.
  rewrite Hy, Hmo, Hd, Hh, Hmi, Hs in H.
  repeat apply app_inv_head in H.
  apply Number_toString_injective, H.
Qed.

(** C9 as stated fails: two instants of the same second, one
    millisecond apart, give two different branch names. *)
Lemma tmpBranchName_differs_within_a_second :
  let d1 := mkDate 2017 9 3 12 30 59 123 in
  let d2 := mkDate 2017 9 3 12 30 59 124 in
  same_second d1 d2
  /\ tmpBranchName (js "publishtogit") (js "kwpeters") d1
     = js "publishtogit-kwpeters-2017_9_3_12_30_59.123"
  /\ tmpBranchName (js "publishtogit") (js "kwpeters") d2
     = js "publishtogit-kwpeters-2017_9_3_12_30_59.124"
  /\ tmpBranchName (js "publishtogit") (js "kwpeters") d1
     <> tmpBranchName (js "publishtogit") (js "kwpeters") d2.
Proof.
  cbv zeta. split; [repeat split |]. split; [vm_compute; reflexivity |].
  split; [vm_compute; reflexivity |]. vm_compute. discriminate.
Qed.

(** C9, amended: the name of the temporary branch is made of the base
    name, the user name and a time stamp that goes down to the
    millisecond (year, month as [getMonth] gives it, day, hours,
    minutes, seconds, milliseconds), so that two instants of one second
    with different milliseconds give different names; and
    [checkoutTempBranch] first has the name checked, by
    [GitBranch.create], and launches the checkout of the branch only
    after that, and only when the check passed. *)
Theorem tmpBranchName_is_stamped_and_checked :
  forall (w : World) (repo : GitRepo) (baseName : jsstring) (s : Sched),
    let t := now w in
    let name :=
      baseName ++ js "-" ++ username w ++ js "-"
        ++ Number_toString (getFullYear t) ++ js "_"
        ++ Number_toString (getMonth t) ++ js "_"
        ++ Number_toString (getDate t) ++ js "_"
        ++ Number_toString (getHours t) ++ js "_"
        ++ Number_toString (getMinutes t) ++ js "_"
        ++ Number_toString (getSeconds t) ++ js "."
        ++ Number_toString (getMilliseconds t) in
    tmpBranchName baseName (username w) (now w) = name
    /\ (forall user d1 d2,
          same_second d1 d2 ->
          getMilliseconds d1 <> getMilliseconds d2 ->
          tmpBranchName baseName user d1 <> tmpBranchName baseName user d2)
    /\ exists settled rest,
        events (checkoutTempBranch w repo baseName s)
        = Started (spawn (js "git")
                         [js "check-ref-format"; js "--allow-onelevel"; name]
                         None) :: settled ++ rest
        /\ Forall is_settlement settled
        /\ match GitBranch.create (out_spawn w) repo name None with
           | Rejected e =>
               rest = []
               /\ result (checkoutTempBranch w repo baseName s) = Rejected e
           | Resolved b =>
               exists settled',
                 rest = Started (checkoutBranch repo b true) :: settled'
                 /\ Forall is_settlement settled'
                 /\ GitBranch.name b = name
                 /\ result (checkoutTempBranch w repo baseName s)
                    = then_ (out_void w (checkoutBranch repo b true))
                            (fun _ => b)
           end.
Proof.
  intros w repo baseName s t name.
  assert (Hname : tmpBranchName baseName (username w) (now w) = name).
  { unfold tmpBranchName, datestamp, name, t.
    repeat rewrite <- app_assoc. reflexivity. }
  split; [exact Hname |]. split.
  - intros user d1 d2 Hsame Hms H. apply Hms.
    eapply tmpBranchName_tells_milliseconds; eauto.
  - rewrite <- Hname. apply checkoutTempBranch_run.
Qed.

(** ** The two calls that are not awaited *)

Lemma launches_back_to_back_extensible (w : World) :
  extensible (launches_back_to_back w).
Proof.
  intros l1 l2 (pre & post & R & h & ->).
  exists (l1 ++ pre), post, R, h. now rewrite app_assoc.
Qed.

Ltac reach_step_to_checkout F_ext :=
  lazymatch goal with
  | |- reach _ (bind (fire _ (checkoutCommit _ _) _) _) => fail
  | |- reach _ (bind _ _) =>
      eapply reach_bind_k with (Q := fun _ => True);
      [ apply F_ext | apply safe_trivial | intros ? _ ]
  end.

Lemma main_launches_back_to_back (w : World) :
  reach (launches_back_to_back w) (main w).
Proof.
  unfold main, void, getArgs.
  repeat reach_step_to_checkout (@launches_back_to_back_extensible w).
  destruct (Url_fromString w _) as [repoUrl |]; [| apply reach_throw].
  repeat reach_step_to_checkout (@launches_back_to_back_extensible w).
  intros s b H.
  apply bind_resolved in H as (p & _ & H & ->).
  apply bind_resolved in H as (u1 & _ & H & ->).
  apply bind_resolved in H as (u2 & _ & H & ->).
  apply bind_resolved in H as (br & _ & H & ->).
  match goal with
  | |- context [events (checkoutTempBranch w ?R ?base ?s1)] =>
      destruct (checkoutTempBranch_run w R base s1)
        as (settled & rest & -> & _)
  end.
  unfold launches_back_to_back. eexists [], _, _, _.
  cbn [events fire log app]. unfold CommitHash_toString. reflexivity.
Qed.

(** C1, on the run of [Examples.world]: the checkout of revision
    [abc123] is launched in the clone, and before it has settled the
    name of the temporary branch is checked and [git checkout -b] of
    that branch is launched and settles; the checkout of the revision
    settles only while the tracked files are listed. *)
Theorem temp_branch_created_while_checkout_runs :
  let trace := fst (run (Examples.world false)) in
  snd (run (Examples.world false)) = Resolved tt
  /\ firstn 11 (skipn 17 trace)
     = [ Started (checkoutCommit Examples.publishRepo (js "abc123"));
         Log (js "Checking out current development commit abc123...");
         Log (js "Creating temporary branch...");
         Started (spawn (js "git")
                        [ js "check-ref-format"; js "--allow-onelevel";
                          js "publishtogit-kwpeters-2017_9_3_12_30_59.123" ]
                        None);
         Settled (spawn (js "git")
                        [ js "check-ref-format"; js "--allow-onelevel";
                          js "publishtogit-kwpeters-2017_9_3_12_30_59.123" ]
                        None) true;
         Started (checkoutBranch Examples.publishRepo Examples.tmpBranch true);
         Settled (checkoutBranch Examples.publishRepo Examples.tmpBranch true) true;
         Log (js "Deleting all files...");
         Started (files Examples.publishRepo);
         Settled (checkoutCommit Examples.publishRepo (js "abc123")) true;
         Settled (files Examples.publishRepo) true ].
Proof. vm_compute. split; reflexivity. Qed.

(** The same holds in every run that completes: the check of the
    branch name is launched in the very turn in which the checkout of
    the revision was launched. *)
Lemma every_run_launches_back_to_back (w : World) :
  snd (run w) = Resolved tt -> launches_back_to_back w (fst (run w)).
Proof. unfold run. simpl. intros H. exact (@main_launches_back_to_back w _ _ H). Qed.

(** ** The final report *)

Lemma reports_a_promise_extensible (w : World) : extensible (reports_a_promise w).
Proof.
  intros l1 l2 (pre & url & ->). exists (l1 ++ pre), url. now rewrite app_assoc.
Qed.

Ltac reach_any F_ext :=
  lazymatch goal with
  | |- reach _ (bind _ _) =>
      eapply reach_bind_k with (Q := fun _ => True);
      [ apply F_ext | apply safe_trivial | intros ? _ ]
  end.

Lemma main_reports_a_promise (w : World) :
  arg_dry_run (argv w) = false ->
  reach (reports_a_promise w) (main w).
Proof.
  intros Hdry. unfold main, void, getArgs.
  reach_any (@reports_a_promise_extensible w).
  eapply reach_bind_k;
    [ apply (@reports_a_promise_extensible w)
    | apply (@getInstanceConfig_safe (fun _ => True)); intros; exact I
    | intros cfg (_ & Hpkg & Hd & Htags) ].
  rewrite Hdry in Hd.
  repeat reach_any (@reports_a_promise_extensible w).
  destruct (Url_fromString w _) as [repoUrl |]; [| apply reach_throw].
  repeat reach_any (@reports_a_promise_extensible w).
  rewrite Hd.
  repeat reach_any (@reports_a_promise_extensible w).
  intros s b _. cbn [events log].
  exists [], (Url_toString (Url_replaceProtocol w repoUrl (js "git+https"))).
  unfold done_report, Promise_toString. rewrite Htags. unfold requested_tags.
  rewrite Hpkg, app_assoc. simpl app at 1.
  destruct (arg_tag_version (argv w)); reflexivity.
Qed.

(** C8, on the run of [Examples.world]: the publish commit is
    [def456]; the report has an install line for each of the two tags;
    its last line ends in [[object Promise]], and the revision occurs
    nowhere in the report. *)
Theorem done_report_lacks_the_revision :
  let w := Examples.world false in
  let report :=
    join [10%N]
      [ js "Done.";
        js "To include the published library in a Node.js project, execute the following command:";
        js "npm install git+https://github.com/kwpeters/proj.git#latest";
        js "npm install git+https://github.com/kwpeters/proj.git#stable";
        js "npm install git+https://github.com/kwpeters/proj.git#[object Promise]" ] in
  snd (run w) = Resolved tt
  /\ out_currentCommitHash w Examples.publishRepo = Resolved (js "def456")
  /\ last (fst (run w)) (Log []) = Log report
  /\ includes report (js "def456") = false.
Proof. vm_compute. repeat split; reflexivity. Qed.

(** The same holds in every run without [--dry-run] that completes. *)
Lemma every_report_lacks_the_revision (w : World) :
  arg_dry_run (argv w) = false ->
  snd (run w) = Resolved tt ->
  reports_a_promise w (fst (run w)).
Proof.
  unfold run. simpl. intros Hdry H.
  exact (@main_reports_a_promise w Hdry _ _ H).
Qed.


(** ** Dry run: the tags *)

Lemma await_run {A} (p : Promise A) (s : Sched) :
  Forall is_settlement (events (await p s))
  /\ result (await p s) = outcome p.
Proof.
  unfold await. destruct (settle_run p s) as (Hev & Hres).
  rewrite (bind_run _ _ _ Hres). cbn [events result lift].
  rewrite app_nil_r. split; [exact Hev | reflexivity].
Qed.

Lemma cfg_tags_requested (w : World) (cfg : IInstanceConfig) :
  out_NodePackage_fromDirectory w (js ".") = Resolved (pkg cfg) ->
  cfg_tags cfg
  = explicit_tags (argv w)
      ++ (if arg_tag_version (argv w)
          then [VString (js "v" ++ version_text (pkg cfg))] else []) ->
  cfg_tags cfg = requested_tags w.
Proof.
  intros Hpkg ->. unfold requested_tags. rewrite Hpkg.
  destruct (arg_tag_version (argv w)); reflexivity.
Qed.

(** The tags that the program applies are the tags asked for. *)
Lemma requested_tags_asked_for (w : World) (t : Value) :
  In t (requested_tags w) <-> asked_for w t.
Proof.
  unfold requested_tags, asked_for, explicit_tags.
  rewrite in_app_iff. split.
  - intros [H | H].
    + destruct (arg_tag (argv w)) as [| v | ts].
      * destruct H.
      * destruct (truthy v) eqn:E; [| destruct H].
        destruct H as [<- | []]. right; left. split; [reflexivity | exact E].
      * left. exists ts. split; [reflexivity | exact H].
    + destruct (out_NodePackage_fromDirectory w (js ".")) as [p | e];
        [| destruct H].
      destruct (arg_tag_version (argv w)); [| destruct H].
      destruct H as [<- | []]. right; right.
      split; [reflexivity |]. exists p. split; reflexivity.
  - intros [(ts & E & H) | [(E & Ht) | (Hv & p & Hp & ->)]].
    + left. rewrite E. exact H.
    + left. rewrite E, Ht. now left.
    + right. rewrite Hp, Hv. now left.
Qed.




Ltac reach_to_clone F_ext :=
  lazymatch goal with
  | |- reach _ (bind (call _ (GitRepo_clone _ _) _) _) => fail
  | |- reach _ (bind _ _) =>
      eapply reach_bind_k with (Q := fun _ => True);
      [ apply F_ext | apply safe_trivial | intros ? _ ]
  end.





(** The scenario of the specification: [--dry-run] with two explicit
    tags. The run completes, both tags are created, nothing is pushed,
    and the last thing printed is the location of the clone. *)
Lemma dry_run_with_two_tags :
  let trace := fst (run (Examples.world true)) in
  snd (run (Examples.world true)) = Resolved tt
  /\ created_tags trace = [VString (js "latest"); VString (js "stable")]
  /\ pushed_tags trace = []
  /\ last trace (Log [])
     = Log (join [10%N]
              [ js "Running in dry-run mode.  The repository in the following temporary directory";
                js "has been left ready to push to a public server.";
                js "/tmp/publish/proj" ]).
Proof. vm_compute. repeat split; reflexivity. Qed.

(** Without [--dry-run] the same run pushes both tags. *)
Lemma full_run_with_two_tags :
  let trace := fst (run (Examples.world false)) in
  snd (run (Examples.world false)) = Resolved tt
  /\ created_tags trace = [VString (js "latest"); VString (js "stable")]
  /\ pushed_tags trace = [VString (js "latest"); VString (js "stable")].
Proof. vm_compute. repeat split; reflexivity. Qed.

End WorkflowFacts.

(* ================================================================== *)
(** * More properties of the matchers *)
(* ================================================================== *)

Section MatcherExactFacts.

Import RegExp.

Variable p : N -> bool.

(** Greedy repetition of a class takes the whole run of the class when
    what follows the run is not in the class and the rest of the
    pattern matches there. *)
Lemma RepeatGreedy_class_exact (a : jsstring) :
  Forall (fun ch => p ch = true) a ->
  forall fuel b i caps (c : MatcherContinuation) z,
    (forall ch b', b = ch :: b' -> p ch = false) ->
    length (a ++ b) <= fuel ->
    c (mkState (i + length a) b caps) = Some z ->
    RepeatGreedy fuel [] (CharacterSetMatcher p) (mkState i (a ++ b) caps) c
    = Some z.
Proof.
  induction 1 as [| ch a Hch Ha IH]; intros fuel b i caps c z Hb Hfuel Hz.
  - simpl in Hz. rewrite Nat.add_0_r in Hz. simpl app.
    destruct fuel as [| fuel]; [exact Hz |].
    cbn [RepeatGreedy clear_groups fold_left endIndex remaining captures].
    unfold CharacterSetMatcher at 1. cbn [remaining].
    destruct b as [| ch b']; [exact Hz |].
    rewrite (Hb ch b' eq_refl). exact Hz.
  - destruct fuel as [| fuel]; [simpl in Hfuel; lia |].
    simpl app. rewrite RepeatGreedy_class_step by exact Hch.
    rewrite (IH fuel b (S i) caps c z); auto.
    + simpl in Hfuel. lia.
    + simpl in Hz. rewrite <- Nat.add_succ_comm in Hz. exact Hz.
Qed.

Lemma Plus_class_exact (ch : N) (a b : jsstring) i caps
      (c : MatcherContinuation) z :
  p ch = true ->
  Forall (fun ch => p ch = true) a ->
  (forall ch' b', b = ch' :: b' -> p ch' = false) ->
  c (mkState (i + length (ch :: a)) b caps) = Some z ->
  Plus [] (CharacterSetMatcher p) (mkState i ((ch :: a) ++ b) caps) c = Some z.
Proof.
  intros Hch Ha Hb Hz. unfold Plus.
  cbn [clear_groups fold_left endIndex remaining captures app].
  unfold CharacterSetMatcher at 1. cbn [remaining]. rewrite Hch.
  unfold Star. cbn [remaining].
  apply RepeatGreedy_class_exact; auto.
  simpl in Hz. rewrite <- Nat.add_succ_comm in Hz. exact Hz.
Qed.

End MatcherExactFacts.

Section MatcherInvariantFacts.

Import RegExp.

(** An invariant of the input ahead that is kept when a character is
    consumed. *)
Variable I : jsstring -> Prop.
Hypothesis I_tail : forall ch r, I (ch :: r) -> I r.

Lemma carries_on_class (p : N -> bool) : carries_on I (CharacterSetMatcher p).
Proof.
  intros x c Hx Hc. unfold CharacterSetMatcher.
  destruct (remaining x) as [| ch rest]; [reflexivity |].
  destruct (p ch); [| reflexivity].
  apply Hc. cbn [remaining]. eapply I_tail, Hx.
Qed.

Lemma carries_on_Empty : carries_on I Empty.
Proof. intros x c Hx Hc. unfold Empty. auto. Qed.

Lemma carries_on_Seq (m1 m2 : Matcher) :
  carries_on I m1 -> carries_on I m2 -> carries_on I (Seq m1 m2).
Proof.
  intros H1 H2 x c Hx Hc. unfold Seq. apply H1; [exact Hx |].
  intros y Hy. apply H2; assumption.
Qed.

Lemma carries_on_Lit (s : jsstring) : carries_on I (Lit s).
Proof.
  induction s as [| ch s IH]; simpl.
  - apply carries_on_Empty.
  - apply carries_on_Seq; [apply carries_on_class | exact IH].
Qed.

Lemma carries_on_RepeatGreedy (fuel : nat) (ks : list nat) (m : Matcher) :
  carries_on I m -> carries_on I (RepeatGreedy fuel ks m).
Proof.
  intros Hm. induction fuel as [| fuel IH]; intros x c Hx Hc.
  - simpl. auto.
  - cbn [RepeatGreedy]. rewrite Hm.
    + auto.
    + exact Hx.
    + intros y Hy. destruct (Nat.eqb (endIndex y) (endIndex x)); [reflexivity |].
      apply IH; assumption.
Qed.

Lemma carries_on_Plus (ks : list nat) (m : Matcher) :
  carries_on I m -> carries_on I (Plus ks m).
Proof.
  intros Hm x c Hx Hc. unfold Plus. apply Hm; [exact Hx |].
  intros y Hy. unfold Star. now apply carries_on_RepeatGreedy.
Qed.

Lemma blocks_on_Seq (m1 m2 : Matcher) :
  carries_on I m1 -> blocks_on I m2 -> blocks_on I (Seq m1 m2).
Proof.
  intros H1 H2 x c Hx. unfold Seq. apply H1; [exact Hx |].
  intros y Hy. now apply H2.
Qed.

Lemma blocks_on_Seq_first (m1 m2 : Matcher) :
  blocks_on I m1 -> blocks_on I (Seq m1 m2).
Proof. intros H1 x c Hx. unfold Seq. now apply H1. Qed.

End MatcherInvariantFacts.

Section WhiteSpaceFacts.

Import RegExp GitBranch.

Lemma noWhiteSpace_tail (ch : N) (r : jsstring) :
  noWhiteSpace (ch :: r) -> noWhiteSpace r.
Proof. intros H. now inversion H. Qed.

(** [\s+] needs a white-space character. *)
Lemma white_space_run_blocks :
  blocks_on noWhiteSpace (Plus [] (CharacterSetMatcher isTrimmable)).
Proof.
  intros x c Hx. unfold Plus, CharacterSetMatcher. cbn [remaining].
  destruct (remaining x) as [| ch rest]; [reflexivity |].
  inversion Hx as [| ? ? Hch Hrest]; subst. now rewrite Hch.
Qed.

Lemma headLineRegex_needs_white_space (s : jsstring) :
  noWhiteSpace s -> test headLineRegex s = false.
Proof.
  intros Hs. unfold test, exec, headLineRegex.
  assert (H0 : forall m caps (c : MatcherContinuation),
             blocks_on noWhiteSpace m ->
             Seq AssertStart m (mkState 0 s caps) c = None).
  { intros m caps c Hm. unfold Seq, AssertStart. cbn [endIndex].
    apply Hm. exact Hs. }
  match goal with
  | |- match exec_from (mkRegExp (Seq AssertStart ?m) ?n) 0 s with _ => _ end = _ =>
      assert (Hb : blocks_on noWhiteSpace m)
  end.
  { apply blocks_on_Seq;
      [apply carries_on_Plus, carries_on_class; exact noWhiteSpace_tail |].
    apply blocks_on_Seq;
      [apply carries_on_Lit; exact noWhiteSpace_tail |].
    apply blocks_on_Seq_first. apply white_space_run_blocks. }
  destruct s as [| ch s]; cbn [exec_from matcher nGroups];
    rewrite (H0 _ _ _ Hb); [reflexivity |].
  now rewrite exec_from_anchored.
Qed.

Lemma currentMarkerRegex_needs_white_space (s : jsstring) :
  noWhiteSpace s -> replace currentMarkerRegex [] s = s.
Proof.
  intros Hs. unfold replace, exec, currentMarkerRegex.
  assert (Hb : blocks_on noWhiteSpace
                 (Seq (Chr 42) (Plus [] (CharacterSetMatcher isTrimmable)))).
  { apply blocks_on_Seq;
      [ apply carries_on_class; exact noWhiteSpace_tail
      | apply white_space_run_blocks ]. }
  assert (H0 : forall caps (c : MatcherContinuation),
             Seq AssertStart
                 (Seq (Chr 42) (Plus [] (CharacterSetMatcher isTrimmable)))
                 (mkState 0 s caps) c = None).
  { intros caps c. unfold Seq at 1, AssertStart. cbn [endIndex].
    apply Hb. exact Hs. }
  destruct s as [| ch s]; cbn [exec_from matcher nGroups];
    rewrite H0; [reflexivity |].
  now rewrite exec_from_anchored.
Qed.

(** The marker of the current branch is taken off. *)
Lemma currentMarkerRegex_strips (s : jsstring) :
  noWhiteSpace s -> replace currentMarkerRegex [] (js "* " ++ s) = s.
Proof.
  intros Hs. change (js "* " ++ s) with (42%N :: 32%N :: s).
  unfold replace, exec, currentMarkerRegex.
  assert (Hm : Seq AssertStart
                   (Seq (Chr 42) (Plus [] (CharacterSetMatcher isTrimmable)))
                   (mkState 0 (42%N :: 32%N :: s) []) (fun y => Some y)
               = Some (mkState 2 s [])).
  { unfold Seq at 1, AssertStart. cbn [endIndex].
    unfold Seq at 1, Chr, CharacterSetMatcher at 1.
    cbn [remaining endIndex captures]. rewrite N.eqb_refl.
    change (32%N :: s) with ((32%N :: []) ++ s).
    apply Plus_class_exact; try reflexivity; [constructor |].
    intros ch' b' ->. now inversion Hs. }
  cbn [exec_from matcher nGroups repeat]. rewrite Hm. reflexivity.
Qed.

End WhiteSpaceFacts.

(* ================================================================== *)
(** * Parsing the long name of a branch *)
(* ================================================================== *)

Section LongNameFacts.

Import RegExp GitBranch.

Lemma Lit_fails (s r : jsstring) i caps (c : MatcherContinuation) :
  startsWith s r = false -> Lit s (mkState i r caps) c = None.
Proof.
  revert r i. induction s as [| ch s IH]; intros r i H; [discriminate |].
  simpl. unfold Seq, Chr, CharacterSetMatcher. cbn [remaining].
  destruct r as [| y r']; [reflexivity |].
  simpl in H. destruct (N.eqb ch y); [| reflexivity].
  apply IH. exact H.
Qed.

Lemma noWhiteSpace_noLineTerminator (s : jsstring) :
  noWhiteSpace s -> noLineTerminator s.
Proof.
  apply Forall_impl. intros ch H. unfold isTrimmable in H.
  now apply orb_false_iff in H.
Qed.

Lemma firstn_length_app {A} (l l' : list A) : firstn (length l) (l ++ l') = l.
Proof.
  rewrite firstn_app, firstn_all, Nat.sub_diag. simpl. apply app_nil_r.
Qed.

(** The branch name group takes all of a text without line
    terminators. *)
Lemma branch_name_group_exact (s : jsstring) i c0 c1 :
  noLineTerminator s ->
  Seq (Group 3 (Star [] Dot)) AssertEnd (mkState i s [c0; c1; None])
      (fun y => Some y)
  = Some (mkState (i + length s) [] [c0; c1; Some s]).
Proof.
  intros Hs. unfold Seq, Group, Star. cbn [remaining endIndex captures].
  apply RepeatGreedy_Dot_all; [exact Hs | lia |].
  unfold AssertEnd. cbn [remaining endIndex captures set_nth pred].
  now rewrite Nat.add_comm, Nat.add_sub, firstn_all.
Qed.

Lemma strParserRegex_remote (r name : jsstring) :
  r <> [] ->
  Forall (fun ch => remoteNameChar ch = true) r ->
  noLineTerminator name ->
  exec strParserRegex (js "remotes/" ++ r ++ js "/" ++ name)
  = Some (mkExec 0 (js "remotes/" ++ r ++ js "/" ++ name)
                 [Some (js "remotes/" ++ r ++ js "/"); Some r; Some name]).
Proof.
  intros Hr0 Hr Hn.
  set (s := js "remotes/" ++ r ++ js "/" ++ name).
  assert (Hm : matcher strParserRegex (mkState 0 s [None; None; None])
                       (fun y => Some y)
               = Some (mkState (length s) []
                         [Some (js "remotes/" ++ r ++ js "/"); Some r; Some name])).
  { unfold strParserRegex. cbn [matcher].
    unfold Seq at 1, AssertStart. cbn [endIndex].
    unfold Seq at 1, Opt.
    cbn [clear_groups fold_left set_nth pred endIndex remaining captures].
    assert (Hg :
      Group 1
        (Seq (Lit (js "remotes/"))
           (Seq (Group 2
                   (Plus [] (CharacterSetMatcher
                               (fun ch => isWordChar ch || (ch =? 46)%N
                                          || (ch =? 45)%N))))
                (Chr 47)))
        (mkState 0 s [None; None; None])
        (fun y =>
           if Nat.eqb (endIndex y) 0 then None
           else Seq (Group 3 (Star [] Dot)) AssertEnd y (fun y0 => Some y0))
      = Some (mkState (length s) []
                [Some (js "remotes/" ++ r ++ js "/"); Some r; Some name])).
    { unfold Group at 1. unfold Seq at 1. unfold s at 1.
      rewrite Lit_consumes. unfold Seq at 1. unfold Group at 1.
      cbn [endIndex remaining captures].
      destruct r as [| r0 r']; [contradiction |].
      inversion Hr as [| ? ? Hr0' Hr']; subst.
      change ((r0 :: r') ++ js "/" ++ name)
        with ((r0 :: r') ++ (47%N :: name)).
      apply Plus_class_exact.
      - exact Hr0'.
      - exact Hr'.
      - intros ch' b' E. injection E as <- _. reflexivity.
      - cbn [endIndex remaining captures set_nth pred].
        unfold Chr, CharacterSetMatcher. cbn [remaining]. rewrite N.eqb_refl.
        cbn [endIndex remaining captures set_nth pred Nat.eqb].
        rewrite branch_name_group_exact by exact Hn.
        f_equal. f_equal.
        + unfold s. rewrite !length_app. simpl length. lia.
        + f_equal; [| f_equal].
          * f_equal. rewrite Nat.sub_0_r.
            replace (S (0 + length (js "remotes/") + length (r0 :: r')))
              with (length (js "remotes/" ++ (r0 :: r') ++ js "/"))
              by (rewrite !length_app; simpl length; lia).
            unfold s.
            replace (js "remotes/" ++ (r0 :: r') ++ js "/" ++ name)
              with ((js "remotes/" ++ (r0 :: r') ++ js "/") ++ name)
              by (now rewrite <- !app_assoc).
            apply firstn_length_app.
          * f_equal.
            replace (0 + length (js "remotes/") + length (r0 :: r')
                     - (0 + length (js "remotes/")))
              with (length (r0 :: r')) by lia.
            apply firstn_length_app. }
    rewrite Hg. reflexivity. }
  unfold exec. cbn [nGroups repeat] in *.
  assert (Hs : s = 114%N :: tl s) by reflexivity.
  rewrite Hs at 1. cbn [exec_from]. rewrite <- Hs.
  change (nGroups strParserRegex) with 3. cbn [repeat]. rewrite Hm.
  cbn [endIndex captures]. now rewrite Nat.sub_0_r, firstn_all.
Qed.

Lemma strParserRegex_local (s : jsstring) :
  noLineTerminator s ->
  startsWith (js "remotes/") s = false ->
  exec strParserRegex s = Some (mkExec 0 s [None; None; Some s]).
Proof.
  intros Hn Hs.
  assert (Hm : matcher strParserRegex (mkState 0 s [None; None; None])
                       (fun y => Some y)
               = Some (mkState (length s) [] [None; None; Some s])).
  { unfold strParserRegex. cbn [matcher].
    unfold Seq at 1, AssertStart. cbn [endIndex].
    unfold Seq at 1, Opt.
    cbn [clear_groups fold_left set_nth pred endIndex remaining captures].
    unfold Group at 1. unfold Seq at 1. rewrite Lit_fails by exact Hs.
    now rewrite branch_name_group_exact. }
  unfold exec. change (nGroups strParserRegex) with 3.
  destruct s as [| ch s']; cbn [exec_from repeat];
    change (nGroups strParserRegex) with 3; cbn [repeat]; rewrite Hm;
    cbn [endIndex captures]; now rewrite Nat.sub_0_r, firstn_all.
Qed.

Lemma parseLongName_remote (repo : GitRepo) (r name : jsstring) :
  r <> [] ->
  Forall (fun ch => remoteNameChar ch = true) r ->
  noLineTerminator name ->
  parseLongName repo (js "remotes/" ++ r ++ js "/" ++ name)
  = Resolved (mkGitBranch repo (Some r) name).
Proof.
  intros Hr0 Hr Hn. unfold parseLongName.
  rewrite strParserRegex_remote by assumption.
  cbn [result_nth groups nth]. unfold new_GitBranch.
  destruct r; [contradiction | reflexivity].
Qed.

Lemma parseLongName_local (repo : GitRepo) (name : jsstring) :
  noLineTerminator name ->
  startsWith (js "remotes/") name = false ->
  parseLongName repo name = Resolved (mkGitBranch repo None name).
Proof.
  intros Hn Hs. unfold parseLongName.
  rewrite strParserRegex_local by assumption. reflexivity.
Qed.

Lemma parseLongName_longName (repo : GitRepo) (b : GitBranch) :
  listable repo b -> parseLongName repo (longName b) = Resolved b.
Proof.
  destruct b as [repo' remote name]. unfold listable, longName.
  cbn [_repo _name _remoteName]. intros (-> & Hn0 & Hn & Hremote).
  destruct remote as [r |].
  - destruct Hremote as (Hr0 & Hr).
    apply parseLongName_remote; auto using noWhiteSpace_noLineTerminator.
  - apply parseLongName_local; auto using noWhiteSpace_noLineTerminator.
Qed.

End LongNameFacts.

(* ================================================================== *)
(** * Listings, line by line *)
(* ================================================================== *)

Section ListingRoundTrip.

Import RegExp GitBranch.

Lemma trimStart_keeps (ch : N) (s : jsstring) :
  isTrimmable ch = false -> trimStart (ch :: s) = ch :: s.
Proof. intros H. simpl. now rewrite H. Qed.

Lemma trimEnd_keeps (pre s : jsstring) :
  s <> [] -> noWhiteSpace s -> trimEnd (pre ++ s) = pre ++ s.
Proof.
  intros Hs0 Hs. unfold trimEnd. rewrite rev_app_distr.
  assert (Hr : noWhiteSpace (rev s)) by now apply Forall_rev.
  destruct (rev s) as [| ch t] eqn:E.
  - apply (f_equal (@rev N)) in E. rewrite rev_involutive in E.
    simpl in E. contradiction.
  - inversion Hr as [| ? ? Hch Ht]; subst.
    simpl app. rewrite trimStart_keeps by exact Hch.
    change (ch :: t ++ rev pre) with ((ch :: t) ++ rev pre).
    rewrite <- E, <- rev_app_distr. apply rev_involutive.
Qed.

Lemma trimEnd_noWhiteSpace (s : jsstring) :
  s <> [] -> noWhiteSpace s -> trimEnd s = s.
Proof. intros H0 H. exact (trimEnd_keeps [] H0 H). Qed.

Lemma trim_noWhiteSpace (s : jsstring) : noWhiteSpace s -> trim s = s.
Proof.
  intros Hs. unfold trim. destruct s as [| ch s']; [reflexivity |].
  inversion Hs as [| ? ? Hch Hs']; subst.
  rewrite trimStart_keeps by exact Hch.
  apply (trimEnd_keeps [] (s := ch :: s')); [discriminate | exact Hs].
Qed.

Lemma split_without_separator (sep : N) (l : jsstring) :
  Forall (fun ch => ch <> sep) l -> split sep l = [l].
Proof.
  induction 1 as [| ch l Hch Hl IH]; simpl; [reflexivity |].
  apply N.eqb_neq in Hch. now rewrite Hch, IH.
Qed.

Lemma split_at_separator (sep : N) (l rest : jsstring) :
  Forall (fun ch => ch <> sep) l ->
  split sep (l ++ sep :: rest) = l :: split sep rest.
Proof.
  induction 1 as [| ch l Hch Hl IH]; simpl.
  - now rewrite N.eqb_refl.
  - apply N.eqb_neq in Hch. now rewrite Hch, IH.
Qed.

Lemma split_join (sep : N) (ls : list jsstring) :
  ls <> [] ->
  Forall (Forall (fun ch => ch <> sep)) ls ->
  split sep (join [sep] ls) = ls.
Proof.
  intros Hne H. induction H as [| l ls Hl Hls IH]; [contradiction |].
  destruct ls as [| l' ls'].
  - simpl. now apply split_without_separator.
  - cbn [join]. cbn [app]. rewrite split_at_separator by exact Hl.
    f_equal. apply IH. discriminate.
Qed.

Lemma plain_char_not_trimmable (ch : N) :
  (isWordChar ch || (ch =? 47)%N) = true -> isTrimmable ch = false.
Proof.
  unfold isTrimmable, isWhiteSpace, isLineTerminator, isWordChar. intros H.
  repeat rewrite orb_true_iff in H. repeat rewrite andb_true_iff in H.
  repeat rewrite N.leb_le in H. repeat rewrite N.eqb_eq in H.
  repeat rewrite orb_false_iff. repeat rewrite andb_false_iff.
  repeat rewrite N.eqb_neq. repeat rewrite N.leb_gt. lia.
Qed.

Lemma remote_char_not_trimmable (ch : N) :
  remoteNameChar ch = true -> isTrimmable ch = false.
Proof.
  unfold remoteNameChar, isTrimmable, isWhiteSpace, isLineTerminator, isWordChar.
  intros H.
  repeat rewrite orb_true_iff in H. repeat rewrite andb_true_iff in H.
  repeat rewrite N.leb_le in H. repeat rewrite N.eqb_eq in H.
  repeat rewrite orb_false_iff. repeat rewrite andb_false_iff.
  repeat rewrite N.eqb_neq. repeat rewrite N.leb_gt. lia.
Qed.

Lemma plainName_noWhiteSpace (s : jsstring) : plainName s -> noWhiteSpace s.
Proof.
  intros (_ & H). eapply Forall_impl; [| exact H].
  apply plain_char_not_trimmable.
Qed.

Lemma longName_noWhiteSpace (repo : GitRepo) (b : GitBranch) :
  listable repo b -> longName b <> [] /\ noWhiteSpace (longName b).
Proof.
  destruct b as [repo' remote name]. unfold listable, longName.
  cbn [_repo _name _remoteName]. intros (_ & Hn0 & Hn & Hremote).
  destruct remote as [r |]; [| auto].
  destruct Hremote as (_ & Hr). split; [discriminate |].
  unfold noWhiteSpace. repeat (apply Forall_app; split); auto.
  - repeat constructor.
  - eapply Forall_impl; [| exact Hr]. apply remote_char_not_trimmable.
  - repeat constructor.
Qed.

Lemma noWhiteSpace_no_line_feed (s : jsstring) :
  noWhiteSpace s -> Forall (fun ch => ch <> 10%N) s.
Proof.
  apply Forall_impl. intros ch H ->. discriminate.
Qed.

Lemma headLine_parts (remote branch : jsstring) :
  plainName remote -> plainName branch ->
  Forall (fun ch => ch <> 10%N) (headLine remote branch)
  /\ trim (js "  " ++ headLine remote branch) = headLine remote branch.
Proof.
  intros Hr Hb.
  assert (Hrw := plainName_noWhiteSpace Hr).
  assert (Hbw := plainName_noWhiteSpace Hb).
  split.
  - unfold headLine. repeat (apply Forall_app; split);
      try (now apply noWhiteSpace_no_line_feed);
      repeat constructor; discriminate.
  - unfold trim.
    change (trimStart (js "  " ++ headLine remote branch))
      with (headLine remote branch).
    unfold headLine.
    replace (js "remotes/" ++ remote ++ js "/HEAD -> " ++ remote ++ js "/" ++ branch)
      with ((js "remotes/" ++ remote ++ js "/HEAD -> " ++ remote ++ js "/") ++ branch)
      by (now rewrite <- !app_assoc).
    apply trimEnd_keeps; [apply Hb | exact Hbw].
Qed.

(** A line that does not begin with a star has no marker to strip. *)
Lemma currentMarkerRegex_other_start (ch : N) (s : jsstring) :
  ch <> 42%N -> replace currentMarkerRegex [] (ch :: s) = ch :: s.
Proof.
  intros Hch. unfold replace, exec, currentMarkerRegex.
  cbn [exec_from matcher nGroups repeat].
  unfold Seq at 1, AssertStart. cbn [endIndex].
  unfold Seq at 1, Chr, CharacterSetMatcher at 1. cbn [remaining].
  replace (N.eqb 42 ch) with false
    by (symmetry; apply N.eqb_neq; congruence).
  now rewrite exec_from_anchored.
Qed.

(** What the steps of the chain make of one line. *)
Lemma item_line_steps (repo : GitRepo) (it : ListingItem) :
  listableItem repo it ->
  let line := replace currentMarkerRegex [] (trim (itemLine it)) in
  Forall (fun ch => ch <> 10%N) (itemLine it)
  /\ match it with
     | BranchItem _ b =>
         test headLineRegex line = false
         /\ parseLongName repo (trim line) = Resolved b
     | HeadItem _ _ => test headLineRegex line = true
     end.
Proof.
  destruct it as [current b | remote branch]; cbn [listableItem]; intros H.
  - destruct (longName_noWhiteSpace H) as (Hl0 & Hl).
    assert (Hline : replace currentMarkerRegex []
                            (trim (itemLine (BranchItem current b)))
                    = longName b).
    { destruct current; cbn [itemLine].
      - unfold trim.
        change (trimStart (js "* " ++ longName b)) with (js "* " ++ longName b).
        rewrite trimEnd_keeps by assumption.
        now apply currentMarkerRegex_strips.
      - unfold trim.
        replace (trimStart (js "  " ++ longName b)) with (longName b).
        + rewrite trimEnd_noWhiteSpace by assumption.
          now apply currentMarkerRegex_needs_white_space.
        + destruct (longName b) as [| ch l]; [contradiction |].
          inversion Hl as [| ? ? Hch ?]; subst.
          cbn [js map list_ascii_of_string app trimStart].
          change (isTrimmable (N_of_ascii " ")) with true. cbn iota.
          now rewrite Hch. }
    cbv zeta. rewrite Hline. split; [| split].
    + destruct current; cbn [itemLine];
        (apply Forall_app; split;
         [repeat constructor; discriminate
         | now apply noWhiteSpace_no_line_feed]).
    + now apply headLineRegex_needs_white_space.
    + rewrite trim_noWhiteSpace by exact Hl.
      now apply parseLongName_longName.
  - destruct H as (Hr & Hb).
    destruct (headLine_parts Hr Hb) as (Hlf & Htrim).
    cbv zeta. cbn [itemLine]. rewrite Htrim. split.
    + apply Forall_app. split; [repeat constructor; discriminate | exact Hlf].
    + change (headLine remote branch)
        with (114%N :: tl (headLine remote branch)).
      rewrite currentMarkerRegex_other_start by discriminate.
      now apply headLineRegex_recognises_plain_names.
Qed.

Lemma listing_lines_round_trip (repo : GitRepo) (items : list ListingItem) :
  Forall (listableItem repo) items ->
  map_throwing (parseLongName repo)
    (map trim
       (filter (fun curLine => negb (test headLineRegex curLine))
          (map (replace currentMarkerRegex [])
             (map trim (map itemLine items)))))
  = Resolved (flat_map itemBranches items).
Proof.
  induction 1 as [| it items Hit Hitems IH]; [reflexivity |].
  destruct (item_line_steps repo it Hit) as (_ & Hstep). cbv zeta in Hstep.
  cbn [map filter flat_map].
  destruct it as [current b | remote branch].
  - destruct Hstep as (Hkeep & Hparse). rewrite Hkeep.
    cbn [negb map map_throwing]. rewrite Hparse, IH. reflexivity.
  - rewrite Hstep. cbn [negb]. exact IH.
Qed.

End ListingRoundTrip.

(* ================================================================== *)
(** * Further properties of [Validator] and [GitBranch] *)
(* ================================================================== *)

Section MoreBranchFacts.

Import RegExp GitBranch.

Lemma forallb_Permutation {A} (f : A -> bool) (l l' : list A) :
  Permutation l l' -> forallb f l = forallb f l'.
Proof.
  induction 1 as [| x l l' _ IH | x y l | l l' l'' _ IH1 _ IH2]; simpl.
  - reflexivity.
  - now rewrite IH.
  - now rewrite !andb_assoc, (andb_comm (f y)).
  - now rewrite IH1.
Qed.

(** X1: the verdict of a validator does not depend on the order of its
    functions; the verdict for two lists of functions put together is
    the conjunction of the two verdicts; and a validator without
    functions accepts every subject. *)
Theorem isValid_order_and_append :
  forall (SubjectType : Type)
         (fs gs : list (Validator.ValidatorFunc SubjectType))
         (subject : SubjectType),
    (Permutation fs gs ->
     Validator.isValid (Validator.new fs) subject
     = Validator.isValid (Validator.new gs) subject)
    /\ (exists a b,
          Validator.isValid (Validator.new fs) subject = Resolved a
          /\ Validator.isValid (Validator.new gs) subject = Resolved b
          /\ Validator.isValid (Validator.new (fs ++ gs)) subject
             = Resolved (a && b))
    /\ Validator.isValid (Validator.new []) subject = Resolved true.
Proof.
  intros S fs gs subject. rewrite !isValid_verdict. split; [| split].
  - intros H. f_equal. now apply forallb_Permutation.
  - do 2 eexists. split; [reflexivity |]. split; [reflexivity |].
    now rewrite forallb_app.
  - reflexivity.
Qed.

(** X2: [create] accepts a name exactly when [git check-ref-format
    --allow-onelevel] succeeds on it, whatever that process prints;
    when the process fails, whatever its error, [create] fails with
    the invalid-branch-name error; and an empty remote name counts as
    no remote. *)
Theorem create_follows_check_ref_format :
  forall (spawn : jsstring -> list jsstring -> option jsstring -> Outcome jsstring)
         (repo : GitRepo) (branchName : jsstring) (remoteName : option jsstring),
    let check := spawn (js "git")
                       [js "check-ref-format"; js "--allow-onelevel"; branchName]
                       None in
    (forall stdout, check = Resolved stdout ->
       create spawn repo branchName remoteName
       = Resolved (mkGitBranch repo
                     (match remoteName with
                      | Some [] => None
                      | other => other
                      end)
                     branchName))
    /\ (forall e, check = Rejected e ->
          create spawn repo branchName remoteName
          = Rejected (InvalidBranchName branchName))
    /\ create spawn repo branchName (Some []) = create spawn repo branchName None.
Proof.
  intros spawn repo branchName remoteName check. unfold create.
  fold (branchNameValidator spawn). rewrite branch_validation_verdict.
  fold check. split; [| split].
  - intros stdout ->. reflexivity.
  - intros e ->. reflexivity.
  - destruct check; reflexivity.
Qed.

(** X3: the long name [remotes/<remote>/<name>] is split into the
    remote and the name, whatever the name holds besides line
    terminators; a long name that does not begin with [remotes/] is a
    local branch of that name. *)
Theorem parseLongName_splits_remote_prefix :
  forall repo : GitRepo,
    (forall r name : jsstring,
        r <> [] ->
        Forall (fun ch => remoteNameChar ch = true) r ->
        noLineTerminator name ->
        parseLongName repo (js "remotes/" ++ r ++ js "/" ++ name)
        = Resolved (mkGitBranch repo (Some r) name))
    /\ (forall name : jsstring,
          noLineTerminator name ->
          startsWith (js "remotes/") name = false ->
          parseLongName repo name = Resolved (mkGitBranch repo None name)).
Proof.
  intros repo. split.
  - intros r name. apply parseLongName_remote.
  - intros name. apply parseLongName_local.
Qed.

Lemma listing_lines_without_line_feed (repo : GitRepo) (items : list ListingItem) :
  Forall (listableItem repo) items ->
  Forall (Forall (fun ch => ch <> 10%N)) (map itemLine items).
Proof.
  induction 1 as [| it items Hit _ IH]; simpl; constructor; [| exact IH].
  apply (item_line_steps repo it Hit).
Qed.

(** X4: a listing is read back line by line: each branch line, with or
    without the marker of the current branch, gives its branch, in
    order, and each symbolic-reference line of a remote with a plain
    name gives nothing. *)
Theorem enumerate_reads_listing :
  forall (spawn : jsstring -> list jsstring -> option jsstring -> Outcome jsstring)
         (repo : GitRepo) (items : list ListingItem),
    items <> [] ->
    Forall (listableItem repo) items ->
    spawn (js "git") [js "branch"; js "-a"] (Some (directory repo))
    = Resolved (listingText items) ->
    enumerateGitRepoBranches spawn repo
    = Resolved (flat_map itemBranches items).
Proof.
  intros spawn repo items Hne Hitems Hspawn.
  unfold enumerateGitRepoBranches. rewrite Hspawn.
  unfold parseBranchListing, listingText.
  rewrite split_join.
  - now apply listing_lines_round_trip.
  - destruct items; [contradiction | discriminate].
  - now apply listing_lines_without_line_feed with (repo := repo).
Qed.

Lemma enumerate_reads_listing_witness :
  let spawn := fun _ _ _ => Resolved Examples.listing_origin in
  let repo := Examples.publishRepo in
  let items := MoreExamples.origin_items in
  items <> []
  /\ Forall (listableItem repo) items
  /\ spawn (js "git") [js "branch"; js "-a"] (Some (directory repo))
     = Resolved (listingText items)
  /\ enumerateGitRepoBranches spawn repo
     = Resolved (flat_map itemBranches items).
Proof.
  intros spawn repo items.
  assert (H1 : items <> []) by discriminate.
  assert (H2 : Forall (listableItem repo) items).
  { unfold items, MoreExamples.origin_items.
    repeat constructor; try discriminate; try reflexivity. }
  assert (H3 : spawn (js "git") [js "branch"; js "-a"] (Some (directory repo))
               = Resolved (listingText items)) by reflexivity.
  split; [exact H1 |]. split; [exact H2 |]. split; [exact H3 |].
  exact (@enumerate_reads_listing spawn repo items H1 H2 H3).
Defined.

Lemma trimStart_blank (s : jsstring) :
  Forall (fun ch => isWhiteSpace ch = true) s -> trimStart s = [].
Proof.
  induction 1 as [| ch s Hch _ IH]; simpl; [reflexivity |].
  unfold isTrimmable. now rewrite Hch.
Qed.

(** X5: for an empty listing, and for one made of blanks, the
    enumeration is not empty: it holds one local branch whose name is
    the empty string. *)
Theorem enumerate_of_blank_listing :
  forall (spawn : jsstring -> list jsstring -> option jsstring -> Outcome jsstring)
         (repo : GitRepo) (stdout : jsstring),
    Forall (fun ch => isWhiteSpace ch = true) stdout ->
    spawn (js "git") [js "branch"; js "-a"] (Some (directory repo))
    = Resolved stdout ->
    enumerateGitRepoBranches spawn repo = Resolved [mkGitBranch repo None []].
Proof.
  intros spawn repo stdout Hblank Hspawn.
  unfold enumerateGitRepoBranches. rewrite Hspawn. unfold parseBranchListing.
  rewrite split_without_separator.
  - cbn [map]. unfold trim at 2. rewrite (trimStart_blank Hblank).
    vm_compute. reflexivity.
  - eapply Forall_impl; [| exact Hblank]. intros ch H ->. discriminate.
Qed.

Lemma enumerate_of_blank_listing_witness :
  let spawn := fun _ _ _ => Resolved (@nil N) in
  let repo := Examples.publishRepo in
  Forall (fun ch => isWhiteSpace ch = true) (@nil N)
  /\ spawn (js "git") [js "branch"; js "-a"] (Some (directory repo))
     = Resolved (@nil N)
  /\ enumerateGitRepoBranches spawn repo = Resolved [mkGitBranch repo None []].
Proof.
  intros spawn repo.
  assert (H1 : Forall (fun ch => isWhiteSpace ch = true) (@nil N)) by constructor.
  assert (H2 : spawn (js "git") [js "branch"; js "-a"] (Some (directory repo))
               = Resolved (@nil N)) by reflexivity.
  split; [exact H1 |]. split; [exact H2 |].
  exact (@enumerate_of_blank_listing spawn repo [] H1 H2).
Defined.

End MoreBranchFacts.

(* ================================================================== *)
(** * More on the publish workflow *)
(* ================================================================== *)

Section MoreWorkflowFacts.

Import Async PublishToGit.

Ltac step_atom :=
  eapply safe_any;
  first
    [ apply (@safe_ret _ _ (fun _ => True)); exact I
    | apply (@safe_throw _ _ (fun _ => True))
    | apply (@safe_log _ (fun _ => True)); [try exact I; try reflexivity | exact I]
    | apply (@safe_invoke _ _ (fun _ => True));
        [first [reflexivity | exact I] | intros; exact I]
    | apply safe_call;
        first [reflexivity | exact I | assumption
              | eexists; split; [eassumption | reflexivity]]
    | apply safe_fire;
        first [reflexivity | exact I | assumption
              | eexists; split; [eassumption | reflexivity]]
    | apply safe_await
    | apply safe_settle
    | apply (@safe_lift _ _ (fun _ => True)); intros ? ?; exact I ].

Ltac step_seq :=
  repeat (eapply (safe_bind (Q := fun _ => True)); [ solve [step_atom] | intros ? _ ]).

Ltac step_to_clone :=
  repeat
    lazymatch goal with
    | |- safe _ _ (bind (call _ (GitRepo_clone _ _) _) _) => fail
    | |- _ =>
        eapply (safe_bind (Q := fun _ => True)); [ solve [step_atom] | intros ? _ ]
    end.

(** ** The stages *)

Lemma loading_inspection (op : Op) : loading op = true -> inspection op = true.
Proof. destruct op; simpl; congruence. Qed.

Lemma inspection_validating (op : Op) : inspection op = true -> validating op = true.
Proof. destruct op; simpl; congruence. Qed.

Lemma validating_preparing (op : Op) : validating op = true -> preparing op = true.
Proof. destruct op; simpl; congruence. Qed.

Lemma preparing_not_purging (op : Op) : preparing op = true -> purging op = false.
Proof. destruct op; simpl; congruence. Qed.

Lemma validating_not_purging (op : Op) : validating op = true -> purging op = false.
Proof. intros H. apply preparing_not_purging, validating_preparing, H. Qed.

Lemma inspection_not_purging (op : Op) : inspection op = true -> purging op = false.
Proof. intros H. apply validating_not_purging, inspection_validating, H. Qed.

(** ** [getInstanceConfig] *)

Lemma getInstanceConfig_loads (P : Event -> Prop) (Q : IInstanceConfig -> Prop)
      (w : World) (a : Arguments) :
  (forall op, loading op = true -> P (Started op)) ->
  (forall op ok, loading op = true -> P (Settled op ok)) ->
  (forall repo p t ts,
     out_GitRepo_fromDirectory w (js ".") = Resolved repo ->
     out_NodePackage_fromDirectory w (js ".") = Resolved p ->
     explicit_tags a
       ++ (if arg_tag_version a then [VString (js "v" ++ version_text p)] else []) = t :: ts ->
     Q (mkInstanceConfig repo p (arg_dry_run a) (t :: ts))) ->
  safe P Q (getInstanceConfig w a).
Proof.
  intros Hst Hse HQ. unfold getInstanceConfig.
  eapply safe_bind; [apply safe_call; [apply Hst | apply Hse]; reflexivity |].
  intros repo Hrepo.
  eapply safe_bind; [apply safe_call; [apply Hst | apply Hse]; reflexivity |].
  intros p Hp.
  destruct (arg_tag_version a).
  - destruct (explicit_tags a ++ [VString (js "v" ++ version_text p)]) eqn:E.
    + apply safe_throw.
    + apply safe_ret. apply HQ; auto.
  - destruct (explicit_tags a) eqn:E.
    + apply safe_throw.
    + apply safe_ret. apply HQ; auto. now rewrite app_nil_r.
Qed.

Lemma call_result {A} (lat : Op -> nat) (op : Op) (out : Outcome A) (s : Sched) :
  result (call lat op out s) = out.
Proof. destruct (call_run lat op out s) as (? & _ & _ & H). exact H. Qed.

Lemma getInstanceConfig_no_tag_error (w : World) (a : Arguments) (s : Sched)
      (repo : GitRepo) (p : NodePackage) :
  explicit_tags a = [] -> arg_tag_version a = false ->
  out_GitRepo_fromDirectory w (js ".") = Resolved repo ->
  out_NodePackage_fromDirectory w (js ".") = Resolved p ->
  result (getInstanceConfig w a s)
  = Rejected (JsError (js
      "At least one tag must be applied by using either --tag-version or --tag.")).
Proof.
  intros Ht Hv Hrepo Hp. unfold getInstanceConfig.
  erewrite bind_run by (rewrite call_result; exact Hrepo). cbn [result].
  erewrite bind_run by (rewrite call_result; exact Hp). cbn [result].
  rewrite Ht, Hv. reflexivity.
Qed.

Lemma main_without_tag (w : World) :
  explicit_tags (argv w) = [] -> arg_tag_version (argv w) = false ->
  safe only_loading (fun _ => False) (main w).
Proof.
  intros Ht Hv. unfold main, getArgs.
  eapply safe_bind; [apply safe_invoke; [reflexivity | intros; exact I] |].
  intros _ _.
  eapply safe_bind with (Q := fun _ => False); [| intros _ []].
  apply getInstanceConfig_loads; try (intros; assumption).
  intros repo p t ts _ _ E. rewrite Ht, Hv in E. discriminate.
Qed.

Lemma no_tag_value_explicit (a : Arguments) :
  no_tag_value a -> explicit_tags a = [] /\ arg_tag_version a = false.
Proof.
  unfold no_tag_value, explicit_tags. intros (Hv & Ht). split; [| exact Hv].
  destruct (arg_tag a) as [| t | ts]; [reflexivity | now rewrite Ht | exact Ht].
Qed.

Lemma getInstanceConfig_with_tag (w : World) (a : Arguments) (s : Sched)
      (repo : GitRepo) (p : NodePackage) :
  ~ no_tag_value a ->
  out_GitRepo_fromDirectory w (js ".") = Resolved repo ->
  out_NodePackage_fromDirectory w (js ".") = Resolved p ->
  exists cfg, result (getInstanceConfig w a s) = Resolved cfg.
Proof.
  intros Hno Hrepo Hp. unfold getInstanceConfig.
  erewrite bind_run by (rewrite call_result; exact Hrepo). cbn [result].
  erewrite bind_run by (rewrite call_result; exact Hp). cbn [result].
  destruct (arg_tag_version a) eqn:Hv.
  - destruct (explicit_tags a ++ [VString (js "v" ++ version_text p)]) eqn:E.
    + destruct (explicit_tags a); discriminate.
    + eexists. reflexivity.
  - destruct (explicit_tags a) eqn:E; [| eexists; reflexivity].
    exfalso. apply Hno. split; [exact Hv |].
    unfold explicit_tags in E.
    destruct (arg_tag a) as [| t | ts]; [exact I | | exact E].
    destruct (truthy t); [discriminate | reflexivity].
Qed.

(** X6: the run is refused for lack of a tag exactly when
    [--tag-version] is off and [argv.tag] is [undefined], a single
    falsy value (the empty string, the number zero, [false]) or an
    empty array. Then the run fails having done nothing but the set-up
    and the loading of the repository and the package: the working
    tree is not even inspected. In every other case, several [--tag]
    values that are all empty included, [getInstanceConfig] does not
    throw the error that asks for a tag. *)
Theorem run_without_tag_is_refused :
  forall w : World,
    (no_tag_value (argv w) ->
     (exists e, snd (run w) = Rejected e)
     /\ Forall only_loading (fst (run w)))
    /\ (forall s repo p,
          out_GitRepo_fromDirectory w (js ".") = Resolved repo ->
          out_NodePackage_fromDirectory w (js ".") = Resolved p ->
          (result (getInstanceConfig w (getArgs w) s)
           = Rejected (JsError (js
               "At least one tag must be applied by using either --tag-version or --tag."))
           <-> no_tag_value (argv w))).
Proof.
  intros w. split.
  - intros Hno. destruct (no_tag_value_explicit Hno) as (Ht & Hv). split.
    + unfold run. simpl.
      eapply safe_never_returns; [apply (main_without_tag w Ht Hv) | constructor].
    + unfold run. simpl. apply (main_without_tag w Ht Hv). constructor.
  - intros s repo p Hrepo Hp. split.
    + intros H.
      destruct (arg_tag_version (argv w)) eqn:Hv.
      * destruct (@getInstanceConfig_with_tag w (argv w) s repo p) as (cfg & E);
          [intros (Hv' & _); congruence | exact Hrepo | exact Hp |].
        unfold getArgs in H. congruence.
      * split; [exact Hv |].
        destruct (arg_tag (argv w)) as [| t | ts] eqn:Et; [exact I | |].
        -- destruct (truthy t) eqn:E; [| reflexivity].
           destruct (@getInstanceConfig_with_tag w (argv w) s repo p)
             as (cfg & E');
             [intros (_ & Hn); rewrite Et in Hn; congruence
             | exact Hrepo | exact Hp |].
           unfold getArgs in H. congruence.
        -- destruct ts as [| t ts]; [reflexivity |].
           destruct (@getInstanceConfig_with_tag w (argv w) s repo p)
             as (cfg & E');
             [intros (_ & Hn); rewrite Et in Hn; discriminate
             | exact Hrepo | exact Hp |].
           unfold getArgs in H. congruence.
    + intros Hno. destruct (no_tag_value_explicit Hno) as (Ht & Hv).
      exact (@getInstanceConfig_no_tag_error w (argv w) s repo p Ht Hv Hrepo Hp).
Qed.

Lemma run_without_tag_is_refused_witness :
  let w := MoreExamples.untagged_world in
  no_tag_value (argv w)
  /\ (exists e, snd (run w) = Rejected e)
  /\ Forall only_loading (fst (run w)).
Proof.
  intros w.
  assert (H : no_tag_value (argv w)) by (split; reflexivity).
  split; [exact H |].
  exact (proj1 (run_without_tag_is_refused w) H).
Defined.

(** [--tag 0] alone is refused like no tag at all; [--tag] given twice
    with the empty string is not: the run completes, and [createTag]
    is called twice with the empty string. *)
Lemma lone_zero_and_empty_tags :
  snd (run MoreExamples.zero_tag_world)
  = Rejected (JsError (js
      "At least one tag must be applied by using either --tag-version or --tag."))
  /\ snd (run MoreExamples.empty_tags_world) = Resolved tt
  /\ created_tags (fst (run MoreExamples.empty_tags_world))
     = [VString []; VString []].
Proof. vm_compute. repeat split; reflexivity. Qed.

(** ** [checkInitialConditions] *)

Lemma disjoint_intersection (existing requested : list Value) :
  intersection existing requested = []
  <-> forall t, In t requested -> ~ In t existing.
Proof.
  destruct (intersection_spec existing requested) as (Hin & _). split.
  - intros E t Ht Hex.
    assert (H : In t (intersection existing requested)) by (apply Hin; auto).
    rewrite E in H. destruct H.
  - intros H.
    destruct (intersection existing requested) as [| t l] eqn:E; [reflexivity |].
    destruct (proj1 (Hin t) (or_introl eq_refl)) as (Hex & Ht).
    destruct (H t Ht Hex).
Qed.

Lemma checkInitialConditions_validates (P : Event -> Prop) (w : World)
      (cfg : IInstanceConfig) :
  (forall op, validating op = true -> P (Started op)) ->
  (forall op ok, validating op = true -> P (Settled op ok)) ->
  safe P (fun _ => validated w cfg) (checkInitialConditions w cfg).
Proof.
  intros Hst Hse. unfold checkInitialConditions.
  eapply safe_bind; [apply safe_call; [apply Hst | apply Hse]; reflexivity |].
  intros modified Hm. destruct modified; [| apply safe_throw].
  eapply safe_bind; [apply safe_call; [apply Hst | apply Hse]; reflexivity |].
  intros untracked Hu. destruct untracked; [| apply safe_throw].
  destruct (no_version (pkg cfg)) eqn:Hv; [apply safe_throw |].
  eapply safe_bind; [apply safe_call; [apply Hst | apply Hse]; reflexivity |].
  intros existing He.
  destruct (intersection (map VString existing) (cfg_tags cfg)) eqn:E;
    [| apply safe_throw].
  apply safe_ret.
  split; [exact Hm |]. split; [exact Hu |]. split; [exact Hv |].
  exists existing. split; [exact He |]. apply disjoint_intersection, E.
Qed.

Lemma checkInitialConditions_passes (w : World) (cfg : IInstanceConfig) (s : Sched) :
  validated w cfg -> result (checkInitialConditions w cfg s) = Resolved tt.
Proof.
  intros (Hm & Hu & Hv & existing & He & Hd). unfold checkInitialConditions.
  erewrite bind_run by (rewrite call_result; exact Hm). cbn [result].
  erewrite bind_run by (rewrite call_result; exact Hu). cbn [result].
  rewrite Hv.
  erewrite bind_run by (rewrite call_result; exact He). cbn [result].
  apply disjoint_intersection in Hd. rewrite Hd. reflexivity.
Qed.

(** X7: [checkInitialConditions] succeeds exactly when the source
    repository has no modified and no untracked file, the package has
    a version that is not empty, and the query for the existing tags
    succeeds with no requested value among them. The requested values
    are compared as [_.intersection] compares them: a requested
    string is among the existing tags when it is one of them, a
    requested number or boolean never is. *)
Theorem checkInitialConditions_passes_iff :
  forall (w : World) (cfg : IInstanceConfig) (s : Sched),
    result (checkInitialConditions w cfg s) = Resolved tt <-> validated w cfg.
Proof.
  intros w cfg s. split.
  - intros H.
    destruct (@checkInitialConditions_validates (fun _ => True) w cfg
                (fun _ _ => I) (fun _ _ _ => I) s (pending_ok_True s))
      as (_ & _ & Hq).
    exact (Hq tt H).
  - apply checkInitialConditions_passes.
Qed.

Lemma checkInitialConditions_refuses_no_version (w : World) (cfg : IInstanceConfig) :
  no_version (pkg cfg) = true ->
  safe before_clone (fun _ => False) (checkInitialConditions w cfg).
Proof.
  intros Hv. unfold checkInitialConditions.
  eapply safe_bind; [apply safe_call; reflexivity |].
  intros modified _. destruct modified; [| apply safe_throw].
  eapply safe_bind; [apply safe_call; reflexivity |].
  intros untracked _. destruct untracked; [| apply safe_throw].
  rewrite Hv. apply safe_throw.
Qed.

Lemma checkInitialConditions_no_version_error (w : World) (cfg : IInstanceConfig)
      (s : Sched) :
  out_modifiedFiles w (devRepo cfg) = Resolved [] ->
  out_untrackedFiles w (devRepo cfg) = Resolved [] ->
  no_version (pkg cfg) = true ->
  result (checkInitialConditions w cfg s)
  = Rejected (JsError (js "Package does not have a version.")).
Proof.
  intros Hm Hu Hv. unfold checkInitialConditions.
  erewrite bind_run by (rewrite call_result; exact Hm). cbn [result].
  erewrite bind_run by (rewrite call_result; exact Hu). cbn [result].
  rewrite Hv. reflexivity.
Qed.

Lemma main_without_version (w : World) (p : NodePackage) :
  out_NodePackage_fromDirectory w (js ".") = Resolved p ->
  no_version p = true ->
  safe before_clone (fun _ => False) (main w).
Proof.
  intros Hp Hv. unfold main.
  eapply safe_bind; [apply safe_invoke; [reflexivity | intros; exact I] |].
  intros _ _.
  eapply safe_bind.
  { apply getInstanceConfig_safe; intros; assumption. }
  intros cfg (_ & Hcfg & _).
  eapply safe_bind.
  { apply checkInitialConditions_refuses_no_version.
    rewrite Hp in Hcfg. injection Hcfg as <-. exact Hv. }
  intros _ [].
Qed.

(** X8: a package whose version is missing or empty is never
    published, even when [--tag-version] made a tag out of the missing
    version: the run fails before anything of the clone is touched,
    and in a clean working tree the error says that the package has no
    version. *)
Theorem package_without_version_is_refused :
  forall (w : World) (p : NodePackage),
    out_NodePackage_fromDirectory w (js ".") = Resolved p ->
    no_version p = true ->
    (exists e, snd (run w) = Rejected e)
    /\ Forall before_clone (fst (run w))
    /\ (forall cfg s,
          pkg cfg = p ->
          out_modifiedFiles w (devRepo cfg) = Resolved [] ->
          out_untrackedFiles w (devRepo cfg) = Resolved [] ->
          result (checkInitialConditions w cfg s)
          = Rejected (JsError (js "Package does not have a version."))).
Proof.
  intros w p Hp Hv. split; [| split].
  - unfold run. simpl.
    eapply safe_never_returns; [apply (main_without_version w Hp Hv) | constructor].
  - unfold run. simpl. apply (main_without_version w Hp Hv). constructor.
  - intros cfg s <- Hm Hu.
    now apply checkInitialConditions_no_version_error.
Qed.

Lemma package_without_version_is_refused_witness :
  let w := MoreExamples.unversioned_world in
  let p := MoreExamples.unversioned_package in
  out_NodePackage_fromDirectory w (js ".") = Resolved p
  /\ no_version p = true
  /\ (exists e, snd (run w) = Rejected e)
  /\ Forall before_clone (fst (run w))
  /\ (forall cfg s,
        pkg cfg = p ->
        out_modifiedFiles w (devRepo cfg) = Resolved [] ->
        out_untrackedFiles w (devRepo cfg) = Resolved [] ->
        result (checkInitialConditions w cfg s)
        = Rejected (JsError (js "Package does not have a version."))).
Proof.
  intros w p.
  assert (H1 : out_NodePackage_fromDirectory w (js ".") = Resolved p) by reflexivity.
  assert (H2 : no_version p = true) by reflexivity.
  split; [exact H1 |]. split; [exact H2 |].
  exact (@package_without_version_is_refused w p H1 H2).
Defined.

Lemma main_refuses_existing_tag (w : World) (repo : GitRepo)
      (existing : list jsstring) :
  out_GitRepo_fromDirectory w (js ".") = Resolved repo ->
  out_tags w repo = Resolved existing ->
  (exists t, asked_for w (VString t) /\ In t existing) ->
  safe only_validating (fun _ => False) (main w).
Proof.
  intros Hrepo Hex (t & Ht & Hin). apply requested_tags_asked_for in Ht.
  unfold main, getArgs.
  eapply safe_bind; [apply safe_invoke; [reflexivity | intros; exact I] |].
  intros _ _.
  eapply safe_bind.
  { apply getInstanceConfig_safe; intros; apply inspection_validating; assumption. }
  intros cfg (Hcfg & Hpkg & _ & Htags).
  apply (cfg_tags_requested w cfg Hpkg) in Htags.
  rewrite Hrepo in Hcfg. injection Hcfg as Hcfg.
  eapply safe_bind.
  { apply checkInitialConditions_validates; intros; assumption. }
  intros _ (_ & _ & _ & ex & He & Hd). exfalso.
  rewrite <- Hcfg, Hex in He. injection He as <-.
  apply (Hd (VString t)); [rewrite Htags; exact Ht | apply in_map, Hin].
Qed.

(** X9: when the command line asks for a tag that yargs hands over as
    a string and that exists already in the source repository, as
    after a run that has published it, the run fails during the
    validation: nothing is printed, and the publish directory is not
    deleted, nothing is cloned. *)
Theorem run_with_existing_tag_is_refused :
  forall (w : World) (repo : GitRepo) (existing : list jsstring),
    out_GitRepo_fromDirectory w (js ".") = Resolved repo ->
    out_tags w repo = Resolved existing ->
    (exists t, asked_for w (VString t) /\ In t existing) ->
    (exists e, snd (run w) = Rejected e)
    /\ Forall only_validating (fst (run w)).
Proof.
  intros w repo existing Hrepo Hex Ht. split.
  - unfold run. simpl.
    eapply safe_never_returns;
      [apply (main_refuses_existing_tag Hrepo Hex Ht) | constructor].
  - unfold run. simpl.
    apply (main_refuses_existing_tag Hrepo Hex Ht). constructor.
Qed.

Lemma run_with_existing_tag_is_refused_witness :
  let w := MoreExamples.rerun_world in
  let existing := [js "v1.0.0"; js "stable"] in
  out_GitRepo_fromDirectory w (js ".") = Resolved Examples.devRepo
  /\ out_tags w Examples.devRepo = Resolved existing
  /\ (exists t, asked_for w (VString t) /\ In t existing)
  /\ (exists e, snd (run w) = Rejected e)
  /\ Forall only_validating (fst (run w)).
Proof.
  intros w existing.
  assert (H1 : out_GitRepo_fromDirectory w (js ".") = Resolved Examples.devRepo)
    by reflexivity.
  assert (H2 : out_tags w Examples.devRepo = Resolved existing) by reflexivity.
  assert (H3 : exists t, asked_for w (VString t) /\ In t existing).
  { exists (js "stable"). split; [| vm_compute; auto].
    left. eexists. split; [reflexivity |]. right; left; reflexivity. }
  split; [exact H1 |]. split; [exact H2 |]. split; [exact H3 |].
  exact (@run_with_existing_tag_is_refused w Examples.devRepo existing H1 H2 H3).
Defined.

(** ** The temporary branch is refused *)

Lemma create_refuses (w : World) (repo : GitRepo) (branchName : jsstring)
      (remoteName : option jsstring) (e : Error) :
  out_spawn w (js "git")
            [js "check-ref-format"; js "--allow-onelevel"; branchName] None
  = Rejected e ->
  GitBranch.create (out_spawn w) repo branchName remoteName
  = Rejected (InvalidBranchName branchName).
Proof.
  intros H. unfold GitBranch.create.
  fold (branchNameValidator (out_spawn w)).
  rewrite branch_validation_verdict, H. reflexivity.
Qed.

Lemma checkoutTempBranch_refused (w : World) (repo : GitRepo) (baseName : jsstring)
      (e : Error) :
  out_spawn w (js "git")
            [ js "check-ref-format"; js "--allow-onelevel";
              tmpBranchName baseName (username w) (now w) ] None
  = Rejected e ->
  safe before_purge (fun _ => False) (checkoutTempBranch w repo baseName).
Proof.
  intros H. unfold checkoutTempBranch, GitBranch_create.
  eapply safe_bind with (Q := fun _ => False); [| intros _ []].
  eapply safe_bind; [apply safe_fire; reflexivity |]. intros p _.
  eapply safe_bind; [apply safe_settle |]. intros o _.
  apply safe_lift. intros b Hb.
  rewrite (create_refuses w repo _ None H) in Hb. discriminate.
Qed.

Lemma main_with_refused_branch (w : World) (e : Error) :
  out_spawn w (js "git")
            [ js "check-ref-format"; js "--allow-onelevel";
              tmpBranchName (js "publishtogit") (username w) (now w) ] None
  = Rejected e ->
  safe before_purge (fun _ => False) (main w).
Proof.
  intros H. unfold main, getArgs.
  eapply safe_bind; [apply safe_invoke; [reflexivity | intros; exact I] |].
  intros _ _.
  eapply safe_bind.
  { apply getInstanceConfig_safe; intros; apply inspection_not_purging; assumption. }
  intros cfg _.
  eapply safe_bind.
  { apply checkInitialConditions_validates;
      intros; apply validating_not_purging; assumption. }
  intros _ _.
  step_seq.
  destruct (Url_fromString w (config_repository_url (pkg cfg))) as [repoUrl |];
    [| apply safe_throw].
  step_seq.
  eapply safe_bind; [apply (checkoutTempBranch_refused w _ _ H) |].
  intros _ [].
Qed.

(** X10: when [git check-ref-format] refuses the name of the temporary
    branch, the run fails before the branch is checked out: no tracked
    file is listed or deleted, nothing is published, staged, committed,
    tagged or pushed. *)
Theorem refused_branch_name_stops_the_run :
  forall (w : World) (e : Error),
    out_spawn w (js "git")
              [ js "check-ref-format"; js "--allow-onelevel";
                tmpBranchName (js "publishtogit") (username w) (now w) ] None
    = Rejected e ->
    (exists e', snd (run w) = Rejected e')
    /\ Forall before_purge (fst (run w)).
Proof.
  intros w e H. split.
  - unfold run. simpl.
    eapply safe_never_returns; [apply (main_with_refused_branch w H) | constructor].
  - unfold run. simpl. apply (main_with_refused_branch w H). constructor.
Qed.

Lemma refused_branch_name_stops_the_run_witness :
  let w := MoreExamples.refusing_world in
  out_spawn w (js "git")
            [ js "check-ref-format"; js "--allow-onelevel";
              tmpBranchName (js "publishtogit") (username w) (now w) ] None
  = Rejected (ProcessError 1 [])
  /\ (exists e', snd (run w) = Rejected e')
  /\ Forall before_purge (fst (run w)).
Proof.
  intros w.
  assert (H : out_spawn w (js "git")
                [ js "check-ref-format"; js "--allow-onelevel";
                  tmpBranchName (js "publishtogit") (username w) (now w) ] None
              = Rejected (ProcessError 1 [])) by reflexivity.
  split; [exact H |].
  exact (@refused_branch_name_stops_the_run w (ProcessError 1 []) H).
Defined.

(** ** The repository URL cannot be read *)

Lemma main_with_invalid_url (w : World) (p : NodePackage) :
  out_NodePackage_fromDirectory w (js ".") = Resolved p ->
  Url_fromString w (config_repository_url p) = None ->
  safe only_preparing (fun _ => False) (main w).
Proof.
  intros Hp Hu. unfold main, getArgs.
  eapply safe_bind; [apply safe_invoke; [reflexivity | intros; exact I] |].
  intros _ _.
  eapply safe_bind.
  { apply getInstanceConfig_safe; intros;
      apply validating_preparing, inspection_validating; assumption. }
  intros cfg (_ & Hcfg & _).
  rewrite Hp in Hcfg. injection Hcfg as Hcfg.
  eapply safe_bind.
  { apply checkInitialConditions_validates;
      intros; apply validating_preparing; assumption. }
  intros _ _.
  step_seq.
  rewrite <- Hcfg, Hu. apply safe_throw.
Qed.

(** X11: when the repository URL of the package cannot be read, the
    run fails without printing anything and without cloning; by then
    at most the validation, the query for the current commit and the
    deletion of the publish directory have happened. *)
Theorem invalid_url_stops_before_clone :
  forall (w : World) (p : NodePackage),
    out_NodePackage_fromDirectory w (js ".") = Resolved p ->
    Url_fromString w (config_repository_url p) = None ->
    (exists e, snd (run w) = Rejected e)
    /\ Forall only_preparing (fst (run w)).
Proof.
  intros w p Hp Hu. split.
  - unfold run. simpl.
    eapply safe_never_returns; [apply (main_with_invalid_url w Hp Hu) | constructor].
  - unfold run. simpl. apply (main_with_invalid_url w Hp Hu). constructor.
Qed.

Lemma invalid_url_stops_before_clone_witness :
  let w := MoreExamples.bad_url_world in
  out_NodePackage_fromDirectory w (js ".") = Resolved Examples.package
  /\ Url_fromString w (config_repository_url Examples.package) = None
  /\ (exists e, snd (run w) = Rejected e)
  /\ Forall only_preparing (fst (run w)).
Proof.
  intros w.
  assert (H1 : out_NodePackage_fromDirectory w (js ".") = Resolved Examples.package)
    by reflexivity.
  assert (H2 : Url_fromString w (config_repository_url Examples.package) = None)
    by reflexivity.
  split; [exact H1 |]. split; [exact H2 |].
  exact (@invalid_url_stops_before_clone w Examples.package H1 H2).
Defined.

(** On [MoreExamples.bad_url_world] the publish directory has been
    deleted by the time the URL is found invalid. *)
Lemma invalid_url_after_deletion :
  let w := MoreExamples.bad_url_world in
  snd (run w) = Rejected (JsError (js "Invalid repository URL."))
  /\ last (fst (run w)) (Log [])
     = Invoked (Directory_deleteSync (js "/tmp/publish/proj")).
Proof. vm_compute. split; reflexivity. Qed.

(** ** Tags that cannot be created *)

Lemma safe_fanout {T} (P : Event -> Prop) (lat : Op -> nat) (msg : T -> jsstring)
      (op : T -> Op) (out : T -> Outcome unit) (l : list T) :
  (forall t, In t l -> P (Log (msg t))) ->
  (forall t, In t l -> P (Started (op t))) ->
  (forall t ok, In t l -> P (Settled (op t) ok)) ->
  safe P (fun ps => map (@outcome unit) ps = map out l)
       (mapM (fun t => bind (log (msg t)) (fun _ => fire lat (op t) (out t))) l).
Proof.
  induction l as [| t l IH]; intros Hl Hst Hse; cbn [mapM].
  - apply safe_ret. reflexivity.
  - eapply safe_bind.
    { eapply safe_bind; [apply (@safe_log _ (fun _ => True)); [| exact I] |].
      - apply Hl. now left.
      - intros _ _. apply safe_fire; [apply Hst | apply Hse]; now left. }
    intros p Hp. simpl in Hp.
    eapply safe_bind.
    { apply IH; intros; [apply Hl | apply Hst | apply Hse]; now right. }
    intros ps Hps. apply safe_ret. simpl. now rewrite Hp, Hps.
Qed.

Lemma Promise_all_of_failure {A} (ps : list (Promise A)) (outs : list (Outcome A))
      (o : Outcome A) (vs : list A) :
  map (@outcome A) ps = outs -> In o outs -> is_resolved o = false ->
  outcome (Promise_all ps) = Resolved vs -> False.
Proof.
  intros Hmap Hin Ho Hall. subst outs.
  apply in_map_iff in Hin as (p & Hp & Hpin).
  assert (H := Promise_all_resolved _ Hall p Hpin).
  rewrite Hp, Ho in H. discriminate.
Qed.

Lemma main_with_failing_tag (w : World) :
  some_tag_fails w -> safe not_a_push (fun _ => False) (main w).
Proof.
  intros Hfail. unfold main, void, getArgs.
  eapply safe_bind; [step_atom |]. intros _ _.
  eapply safe_bind.
  { apply getInstanceConfig_safe; intros; apply inspection_not_push; assumption. }
  intros cfg (_ & Hpkg & _ & Htags).
  apply (cfg_tags_requested w cfg Hpkg) in Htags.
  eapply safe_bind; [apply checkInitialConditions_no_push |]. intros _ _.
  step_seq.
  destruct (Url_fromString w (config_repository_url (pkg cfg))) as [repoUrl |];
    [| apply safe_throw].
  step_to_clone.
  eapply safe_bind; [apply safe_call; reflexivity |].
  intros R HR.
  assert (Hc : cloned w R) by (exists repoUrl, (tmpDir w); exact HR).
  step_seq.
  eapply safe_bind; [apply checkoutTempBranch_no_push |]. intros _ _.
  step_seq.
  eapply safe_bind; [apply deleteTrackedFiles_no_push |]. intros _ _.
  step_seq.
  eapply safe_bind.
  { apply safe_fanout; intros; first [exact I | reflexivity]. }
  intros createPromises Hout.
  eapply safe_bind; [apply safe_await |].
  intros vs Hvs. exfalso. cbv beta in Hout.
  destruct (Hfail R Hc) as (t & Ht & Hno).
  cbv beta in Hvs.
  apply (@Promise_all_of_failure _ _ _ _ _ Hout) with (3 := Hvs) (2 := Hno).
  rewrite Htags. apply (in_map (fun t => out_void w (createTag _ t [] false))), Ht.
Qed.

(** X12: when one of the requested tags cannot be created in the
    repository that [GitRepo.clone] returns, the run fails and no tag
    at all is pushed, not even those that were created. *)
Theorem failed_tag_is_never_pushed :
  forall w : World,
    some_tag_fails w ->
    (exists e, snd (run w) = Rejected e)
    /\ Forall not_a_push (fst (run w)).
Proof.
  intros w H. split.
  - unfold run. simpl.
    eapply safe_never_returns; [apply (main_with_failing_tag H) | constructor].
  - unfold run. simpl. apply (main_with_failing_tag H). constructor.
Qed.

Lemma failed_tag_is_never_pushed_witness :
  let w := MoreExamples.tag_failure_world in
  some_tag_fails w
  /\ (exists e, snd (run w) = Rejected e)
  /\ Forall not_a_push (fst (run w)).
Proof.
  intros w.
  assert (H : some_tag_fails w).
  { intros R _. exists (VString (js "stable")).
    split; [vm_compute; auto | reflexivity]. }
  split; [exact H |].
  exact (@failed_tag_is_never_pushed w H).
Defined.

(** On [MoreExamples.tag_failure_world] both tags are attempted and
    the error of the failing one is the error of the run. *)
Lemma failed_tag_run :
  let w := MoreExamples.tag_failure_world in
  snd (run w) = Rejected (ProcessError 128 (js "fatal: tag exists"))
  /\ created_tags (fst (run w)) = [VString (js "latest"); VString (js "stable")]
  /\ pushed_tags (fst (run w)) = [].
Proof. vm_compute. repeat split; reflexivity. Qed.

(** ** What a completed run has done *)






Lemma reports_the_clone_extensible (w : World) : extensible (reports_the_clone w).
Proof.
  intros l1 l2 (pre & R & Hc & ->). exists (l1 ++ pre), R.
  split; [exact Hc | now rewrite app_assoc].
Qed.

Ltac reach_to_clone F_ext :=
  lazymatch goal with
  | |- reach _ (bind (call _ (GitRepo_clone _ _) _) _) => fail
  | |- reach _ (bind _ _) =>
      eapply reach_bind_k with (Q := fun _ => True);
      [ apply F_ext | apply safe_trivial | intros ? _ ]
  end.

Lemma main_reports_the_clone (w : World) :
  arg_dry_run (argv w) = true -> reach (reports_the_clone w) (main w).
Proof.
  intros Hdry. unfold main, void, getArgs.
  reach_to_clone (@reports_the_clone_extensible w).
  eapply reach_bind_k;
    [ apply (@reports_the_clone_extensible w)
    | apply (@getInstanceConfig_safe (fun _ => True)); intros; exact I
    | intros cfg (_ & _ & Hd & _) ].
  rewrite Hdry in Hd.
  repeat reach_to_clone (@reports_the_clone_extensible w).
  destruct (Url_fromString w _) as [repoUrl |]; [| apply reach_throw].
  repeat reach_to_clone (@reports_the_clone_extensible w).
  eapply reach_bind_k;
    [ apply (@reports_the_clone_extensible w)
    | apply safe_call; exact I
    | intros R HR ].
  assert (Hc : cloned w R) by (exists repoUrl, (tmpDir w); exact HR).
  repeat reach_to_clone (@reports_the_clone_extensible w).
  rewrite Hd.
  intros s b _. cbn [events log].
  exists [], R. split; [exact Hc | reflexivity].
Qed.

(** X14: a dry run that completes ends by printing the directory of
    the repository that [GitRepo.clone] returned. *)
Theorem completed_dry_run_reports_the_clone :
  forall w : World,
    arg_dry_run (argv w) = true ->
    snd (run w) = Resolved tt ->
    reports_the_clone w (fst (run w)).
Proof.
  intros w Hdry. unfold run. simpl. intros H.
  exact (@main_reports_the_clone w Hdry _ _ H).
Qed.

Lemma completed_dry_run_reports_the_clone_witness :
  let w := Examples.world true in
  arg_dry_run (argv w) = true
  /\ snd (run w) = Resolved tt
  /\ reports_the_clone w (fst (run w)).
Proof.
  intros w.
  assert (H1 : arg_dry_run (argv w) = true) by reflexivity.
  assert (H2 : snd (run w) = Resolved tt) by (vm_compute; reflexivity).
  split; [exact H1 |]. split; [exact H2 |].
  exact (@completed_dry_run_reports_the_clone w H1 H2).
Defined.

(** ** Where the changes go *)

Lemma validating_on_clone (w : World) (op : Op) :
  validating op = true -> on_clone w (Started op).
Proof. destruct op; simpl; intros H; try discriminate; exact I. Qed.

Lemma checkoutTempBranch_on_clone (w : World) (repo : GitRepo) (baseName : jsstring) :
  cloned w repo ->
  safe (on_clone w) (fun _ => True) (checkoutTempBranch w repo baseName).
Proof.
  intros Hc. unfold checkoutTempBranch, GitBranch_create.
  eapply safe_bind.
  { step_seq. step_atom. }
  intros tmpBranch _. step_seq. step_atom.
Qed.

Lemma deleteTrackedFiles_on_clone (w : World) (repo : GitRepo) :
  cloned w repo ->
  safe (on_clone w) (fun _ => True) (deleteTrackedFiles w repo).
Proof.
  intros Hc. unfold deleteTrackedFiles.
  eapply safe_bind; [step_atom |]. intros fs _.
  eapply safe_bind; [apply safe_mapM; intros f _; step_atom |].
  intros ps _. step_seq. step_atom.
Qed.

Lemma main_on_clone (w : World) : safe (on_clone w) (fun _ => True) (main w).
Proof.
  unfold main, void, getArgs.
  eapply safe_bind; [step_atom |]. intros _ _.
  eapply safe_bind.
  { apply getInstanceConfig_safe; intros;
      [apply validating_on_clone, inspection_validating; assumption | exact I]. }
  intros cfg _.
  eapply safe_bind.
  { eapply safe_any. apply checkInitialConditions_validates; intros;
      [apply validating_on_clone; assumption | exact I]. }
  intros _ _.
  step_seq.
  destruct (Url_fromString w (config_repository_url (pkg cfg))) as [repoUrl |];
    [| apply safe_throw].
  step_to_clone.
  eapply safe_bind; [apply safe_call; exact I |].
  intros R HR.
  assert (Hc : cloned w R) by (exists repoUrl, (tmpDir w); exact HR).
  step_seq.
  eapply safe_bind; [apply (checkoutTempBranch_on_clone _ Hc) |]. intros _ _.
  step_seq.
  eapply safe_bind; [apply (deleteTrackedFiles_on_clone Hc) |]. intros _ _.
  step_seq.
  eapply safe_bind.
  { apply safe_mapM. intros t _. step_seq. step_atom. }
  intros createPromises _.
  step_seq.
  destruct (dryRun cfg); [step_atom |].
  eapply safe_bind.
  { apply safe_mapM. intros t _. step_seq. step_atom. }
  intros pushPromises _.
  step_seq. step_atom.
Qed.

(** X15: whatever happens, every checkout, listing of tracked files,
    pruning, staging, commit, tag and push of a run is launched on a
    repository that [GitRepo.clone] returned during that run. *)
Theorem changes_go_to_the_clone :
  forall w : World, Forall (on_clone w) (fst (run w)).
Proof.
  intros w. unfold run. simpl. apply (@main_on_clone w). constructor.
Qed.

(** ** [deleteTrackedFiles] *)

Lemma mapM_fire_run {A B} (lat : Op -> nat) (op : A -> Op) (out : A -> Outcome B)
      (l : list A) :
  forall s,
    exists ps,
      result (mapM (fun a => fire lat (op a) (out a)) l s) = Resolved ps
      /\ map (@outcome B) ps = map out l
      /\ events (mapM (fun a => fire lat (op a) (out a)) l s)
         = map (fun a => Started (op a)) l.
Proof.
  induction l as [| a l IH]; intros s.
  - exists []. repeat split.
  - cbn [mapM].
    set (p := mkPromise (clock s + S (lat (op a))) (out a)).
    assert (Hp : result (fire lat (op a) (out a) s) = Resolved p) by reflexivity.
    rewrite (bind_run _ _ _ Hp). cbn [result events sched].
    destruct (IH (sched (fire lat (op a) (out a) s))) as (ps & Hps & Hout & Hev).
    exists (p :: ps).
    rewrite (bind_run _ _ _ Hps). cbn [result events sched ret].
    rewrite Hev, app_nil_r. cbn [map fire events app outcome p].
    rewrite Hout. repeat split.
Qed.

Lemma first_rejection_of_resolved {A} (ps : list (Promise A)) :
  (forall p, In p ps -> is_resolved (outcome p) = true) ->
  first_rejection ps = None.
Proof.
  induction ps as [| q ps IH]; intros H; simpl; [reflexivity |].
  assert (Hq := H q (or_introl eq_refl)).
  destruct (outcome q); [| discriminate].
  apply IH. intros p Hp. apply H. now right.
Qed.

Lemma Promise_all_resolves {A} (ps : list (Promise A)) :
  (forall p, In p ps -> is_resolved (outcome p) = true) ->
  outcome (Promise_all ps) = Resolved (all_values ps).
Proof.
  intros H. unfold Promise_all.
  rewrite (first_rejection_of_resolved _ H). reflexivity.
Qed.

Lemma all_done_iff (fs : list File) (out : File -> Outcome unit)
      (ps : list (Promise unit)) :
  map (@outcome unit) ps = map out fs ->
  (forall p, In p ps -> is_resolved (outcome p) = true)
  <-> (forall f, In f fs -> out f = Resolved tt).
Proof.
  intros Hout. split.
  - intros H f Hf.
    assert (Ho : In (out f) (map (@outcome unit) ps))
      by (rewrite Hout; apply in_map, Hf).
    apply in_map_iff in Ho as (p & Hp & Hpin).
    specialize (H p Hpin). rewrite Hp in H.
    destruct (out f) as [[] | e]; [reflexivity | discriminate].
  - intros H p Hp.
    assert (Ho : In (outcome p) (map out fs))
      by (rewrite <- Hout; apply in_map, Hp).
    apply in_map_iff in Ho as (f & Hf & Hfin).
    rewrite <- Hf, (H f Hfin). reflexivity.
Qed.

(** X16: [deleteTrackedFiles] lists the tracked files of the
    repository and then launches the deletion of every one of them,
    in the order of the listing and without waiting in between, so
    that every deletion is launched even when one fails; it succeeds
    exactly when every deletion does. When the listing fails, no
    deletion is launched. *)
Theorem deleteTrackedFiles_deletes_the_listing :
  forall (w : World) (repo : GitRepo) (s : Sched),
    (forall fs,
       out_files w repo = Resolved fs ->
       exists settled settled',
         events (deleteTrackedFiles w repo s)
         = Started (files repo) :: settled
             ++ map (fun f => Started (File_delete f)) fs ++ settled'
         /\ Forall is_settlement settled
         /\ Forall is_settlement settled'
         /\ (result (deleteTrackedFiles w repo s) = Resolved tt
             <-> forall f, In f fs -> out_void w (File_delete f) = Resolved tt))
    /\ (forall e,
          out_files w repo = Rejected e ->
          exists settled,
            events (deleteTrackedFiles w repo s) = Started (files repo) :: settled
            /\ Forall is_settlement settled
            /\ result (deleteTrackedFiles w repo s) = Rejected e).
Proof.
  intros w repo s.
  destruct (call_run (latency w) (files repo) (out_files w repo) s)
    as (settled & Hev & Hse & Hres).
  unfold deleteTrackedFiles. split.
  - intros fs Hfs. assert (Hr := eq_trans Hres Hfs).
    rewrite (bind_run _ _ _ Hr). cbn [events result]. rewrite Hev.
    set (s1 := sched (call (latency w) (files repo) (out_files w repo) s)).
    destruct (mapM_fire_run (latency w) File_delete
                (fun f => out_void w (File_delete f)) fs s1)
      as (ps & Hps & Hout & Hev2).
    rewrite (bind_run _ _ _ Hps). cbn [events result]. rewrite Hev2.
    set (s2 := sched (mapM _ fs s1)).
    destruct (await_run (Promise_all ps) s2) as (Hse3 & Hres3).
    exists settled, (events (await (Promise_all ps) s2)).
    destruct (outcome (Promise_all ps)) as [vs | e] eqn:E.
    + rewrite (bind_run _ _ _ Hres3). cbn [events result ret].
      rewrite app_nil_r. repeat split; auto.
      intros _.
      apply (proj1 (@all_done_iff fs (fun f => out_void w (File_delete f)) ps Hout)).
      apply (Promise_all_resolved _ E).
    + rewrite (bind_run_rejected _ _ _ Hres3). cbn [events result].
      repeat split; auto; [discriminate |].
      intros H.
      assert (H' := proj2 (@all_done_iff fs (fun f => out_void w (File_delete f))
                             ps Hout) H).
      rewrite (Promise_all_resolves _ H') in E. discriminate.
  - intros e He. assert (Hr := eq_trans Hres He).
    rewrite (bind_run_rejected _ _ _ Hr). cbn [events result].
    exists settled. repeat split; auto.
Qed.

(** ** The order of the steps *)
























End MoreWorkflowFacts.
